(** * The local persistence and query layer of the TOEIC tutor (src/db.ts)

    A shallow embedding of the IndexedDB-backed vocabulary store: the
    ingest/dedup engine [addVocabularyItems], the query engine
    ([getVocabulary], [getAllVocabularyForLevelAndCategory],
    [getExistingWords], [getPaginatedVocabulary]) and the frequency
    annotation updater [updateFrequencyLevels]; then the other readers,
    [clearDatabase], the opening of the database with its [upgrade]
    callback, and the handlers of the screens that call all these.

    Conventions of the embedding:
    - a JavaScript value that the code inspects dynamically (truthiness,
      [typeof], [===]) is a [jsval]; numbers are the integral ones;
    - an object store is the list of its records in ascending primary key
      order (the order of [getAll] and of an index scan over one index key)
      together with its key generator;
    - a read-write transaction works on a copy of the database; [tx.done]
      installs the copy and [tx.abort()] discards it;
    - a storage request may fail: a fault plan tells which request of a
      transaction (counted from 0) is rejected, and with what error;
    - [console.warn], [console.error] and the storage requests are recorded
      as a list of events;
    - [Math.random()] is a stream of rationals in the half-open unit
      interval. *)

From Stdlib Require Import List ZArith String Ascii Bool Arith Lia DecimalString.
From Stdlib Require Import Permutation Sorted.
From Stdlib Require OrderedTypeEx.
Import ListNotations.

Set Implicit Arguments.

(** ** JavaScript values *)

Inductive jsval : Type :=
| JUndefined
| JNull
| JBool (b : bool)
| JNum (n : Z)
| JStr (s : string).

(** [!!v] *)
Definition truthy (v : jsval) : bool :=
  match v with
  | JUndefined | JNull => false
  | JBool b => b
  | JNum n => negb (n =? 0)%Z
  | JStr s => negb (s =? "")%string
  end.

(** [typeof v === 'string'] *)
Definition is_string (v : jsval) : bool :=
  match v with JStr _ => true | _ => false end.

(** [a === b] *)
Definition strict_eq (a b : jsval) : bool :=
  match a, b with
  | JUndefined, JUndefined => true
  | JNull, JNull => true
  | JBool x, JBool y => Bool.eqb x y
  | JNum x, JNum y => (x =? y)%Z
  | JStr x, JStr y => (x =? y)%string
  | _, _ => false
  end.

(** [arr.includes(v)] *)
Definition includes (arr : list jsval) (v : jsval) : bool :=
  existsb (strict_eq v) arr.

(** ** types.ts and constants.ts *)

Inductive Level : Type := Beginner | Intermediate | Advanced.

Definition Level_value (l : Level) : string :=
  match l with
  | Beginner => "Beginner (TOEIC 400-600)"
  | Intermediate => "Intermediate (TOEIC 600-800)"
  | Advanced => "Advanced (TOEIC 800-990)"
  end.

Inductive VocabCategory : Type := Business | Travel | DailyLife | Finance | Health.

Definition VocabCategory_value (c : VocabCategory) : string :=
  match c with
  | Business => "Business"
  | Travel => "Travel"
  | DailyLife => "Daily Life"
  | Finance => "Finance"
  | Health => "Health"
  end.

Inductive VocabType : Type := word | idiom.

Definition VocabType_value (t : VocabType) : string :=
  match t with word => "word" | idiom => "idiom" end.

Inductive PartOfSpeech : Type := Noun | Verb | Adjective | Adverb.

Definition PartOfSpeech_value (p : PartOfSpeech) : string :=
  match p with
  | Noun => "Noun"
  | Verb => "Verb"
  | Adjective => "Adjective"
  | Adverb => "Adverb"
  end.

Inductive SortOrder : Type := Random | Alphabetical.

Definition PARTS_OF_SPEECH : list jsval :=
  map (fun p => JStr (PartOfSpeech_value p)) [Noun; Verb; Adjective; Adverb].

(** [interface VocabDBItem].  The fields hold whatever the JSON import or
    the generation service delivered; [addVocabularyItems] checks them at
    run time. *)
Record VocabDBItem : Type := mkItem {
  id : option Z;
  english : jsval;
  japanese : jsval;
  pos : jsval;
  example_en : jsval;
  example_jp : jsval;
  level : jsval;
  category : jsval;
  type : jsval;
  frequencyLevel : jsval
}.

(** [const { id, ...data } = item] *)
Definition without_id (item : VocabDBItem) : VocabDBItem :=
  mkItem None (english item) (japanese item) (pos item) (example_en item)
         (example_jp item) (level item) (category item) (type item)
         (frequencyLevel item).

(** [{...data, pos: null}] *)
Definition with_pos (p : jsval) (item : VocabDBItem) : VocabDBItem :=
  mkItem (id item) (english item) (japanese item) p (example_en item)
         (example_jp item) (level item) (category item) (type item)
         (frequencyLevel item).

(** [item.frequencyLevel = f] *)
Definition with_frequencyLevel (f : jsval) (item : VocabDBItem) : VocabDBItem :=
  mkItem (id item) (english item) (japanese item) (pos item) (example_en item)
         (example_jp item) (level item) (category item) (type item) f.

(** the key generator writes the key at the key path ['id'] *)
Definition with_id (k : Z) (item : VocabDBItem) : VocabDBItem :=
  mkItem (Some k) (english item) (japanese item) (pos item) (example_en item)
         (example_jp item) (level item) (category item) (type item)
         (frequencyLevel item).

(** ** The database: two object stores *)

Inductive StoreName : Type := WORDS_STORE_NAME | IDIOMS_STORE_NAME.

Record ObjectStore : Type := mkStore {
  records : list VocabDBItem;
  keyGen : Z
}.

Record DB : Type := mkDB {
  words : ObjectStore;
  idioms : ObjectStore
}.

(** The state after [upgrade] ran on a fresh install: both stores exist and
    are empty, their key generators are at 1. *)
Definition empty_store : ObjectStore := mkStore [] 1.
Definition empty_db : DB := mkDB empty_store empty_store.

Definition objectStore (s : StoreName) (db : DB) : ObjectStore :=
  match s with
  | WORDS_STORE_NAME => words db
  | IDIOMS_STORE_NAME => idioms db
  end.

Definition set_objectStore (s : StoreName) (st : ObjectStore) (db : DB) : DB :=
  match s with
  | WORDS_STORE_NAME => mkDB st (idioms db)
  | IDIOMS_STORE_NAME => mkDB (words db) st
  end.

(** A value is a valid IndexedDB key when it is a number or a string (of the
    values modelled here). *)
Definition valid_key (v : jsval) : bool :=
  match v with JNum _ | JStr _ => true | _ => false end.

(** Key path of the unique index of each store: [english_pos] on
    [['english', 'pos']] for words, [english] on ['english'] for idioms. *)
Definition unique_keyPath (s : StoreName) : list (VocabDBItem -> jsval) :=
  match s with
  | WORDS_STORE_NAME => [english; pos]
  | IDIOMS_STORE_NAME => [english]
  end.

(** The index key of a record; a record whose key path yields an invalid key
    is not in the index. *)
Definition index_key (s : StoreName) (r : VocabDBItem) : option (list jsval) :=
  let k := map (fun f => f r) (unique_keyPath s) in
  if forallb valid_key k then Some k else None.

Definition key_eq (a b : list jsval) : bool :=
  (List.length a =? List.length b) && forallb (fun p => strict_eq (fst p) (snd p)) (combine a b).

Definition has_index_key (s : StoreName) (k : list jsval) (r : VocabDBItem) : bool :=
  match index_key s r with
  | Some k' => key_eq k' k
  | None => false
  end.

Definition primary_key (r : VocabDBItem) : Z :=
  match id r with Some k => k | None => 0%Z end.

(** Insert or replace the record with primary key [k], keeping key order. *)
Fixpoint upsert (k : Z) (v : VocabDBItem) (l : list VocabDBItem) : list VocabDBItem :=
  match l with
  | [] => [v]
  | r :: t =>
      match (primary_key r ?= k)%Z with
      | Lt => r :: upsert k v t
      | Eq => v :: t
      | Gt => v :: r :: t
      end
  end.

(** Does storing [v] under primary key [k] break the unique index? *)
Definition violates_unique (s : StoreName) (k : Z) (v : VocabDBItem)
           (l : list VocabDBItem) : bool :=
  match index_key s v with
  | Some ik => existsb (fun r => has_index_key s ik r && negb (primary_key r =? k)%Z) l
  | None => false
  end.

(** Store [v] under the next generated key, which is written to [v.id]. *)
Definition append_record (s : StoreName) (v : VocabDBItem) (db : DB) : DB :=
  let st := objectStore s db in
  set_objectStore s
    (mkStore (records st ++ [with_id (keyGen st) v]) (keyGen st + 1)%Z) db.

(** Store [v] under the explicit key [k]. *)
Definition upsert_record (s : StoreName) (k : Z) (v : VocabDBItem) (db : DB) : DB :=
  let st := objectStore s db in
  set_objectStore s
    (mkStore (upsert k v (records st)) (Z.max (keyGen st) (k + 1))) db.

(** ** Transactions *)

(** What a promise is rejected with: the exceptions of IndexedDB that the
    code can meet, the [TypeError] of a method called on a value that has
    none, a fault of the storage, and an error of a service outside the
    database. *)
Inductive DBError : Type :=
| ConstraintError
| DataError
| InvalidStateError
| TypeError
| StorageFault (code : nat)
| ServiceError (code : nat).

Inductive TxMode : Type := readonly | readwrite.

Inductive Event : Type :=
| TxBegin (scope : list StoreName) (mode : TxMode)
| IndexGet (s : StoreName) (key : list jsval)
| StoreGet (s : StoreName) (key : Z)
| StoreAdd (s : StoreName) (v : VocabDBItem)
| StorePut (s : StoreName) (v : VocabDBItem)
| StoreClear (s : StoreName)
| TxDone
| TxAbort
| ConsoleLog (msg : string)
| ConsoleWarn (msg : string) (item : option VocabDBItem)
| ConsoleError (msg : string) (e : DBError).

(** Which request of a transaction fails, and how. *)
Definition FaultPlan : Type := nat -> option DBError.

Definition no_faults : FaultPlan := fun _ => None.

Record TxState : Type := mkTx {
  working : DB;
  requests : nat
}.

Record Step (A : Type) : Type := mkStep {
  emitted : list Event;
  outcome : DBError + A;
  post : TxState
}.

Definition Tx (A : Type) : Type := TxState -> Step A.

Definition ret {A} (a : A) : Tx A := fun s => mkStep [] (inr a) s.

Definition bind {A B} (m : Tx A) (f : A -> Tx B) : Tx B :=
  fun s =>
    let r := m s in
    match outcome r with
    | inl e => mkStep (emitted r) (inl e) (post r)
    | inr a =>
        let r' := f a (post r) in
        mkStep (emitted r ++ emitted r') (outcome r') (post r')
    end.

Notation "x <- m ;; k" := (bind m (fun x => k))
  (at level 61, m at next level, right associativity).
Notation "m ;; k" := (bind m (fun _ => k))
  (at level 61, right associativity).

Definition throw {A} (e : DBError) : Tx A := fun s => mkStep [] (inl e) s.

Definition emit (ev : Event) : Tx unit := fun s => mkStep [ev] (inr tt) s.

Definition console_warn (msg : string) (item : option VocabDBItem) : Tx unit :=
  emit (ConsoleWarn msg item).

Section Requests.

Variable fault : FaultPlan.

(** Place one request: it is recorded, counted, and rejected when the
    fault plan says so. *)
Definition request (ev : Event) : Tx unit :=
  fun s =>
    let s' := mkTx (working s) (S (requests s)) in
    match fault (requests s) with
    | Some e => mkStep [ev] (inl e) s'
    | None => mkStep [ev] (inr tt) s'
    end.

Definition get_working : Tx DB := fun s => mkStep [] (inr (working s)) s.

Definition set_working (db : DB) : Tx unit :=
  fun s => mkStep [] (inr tt) (mkTx db (requests s)).

(** [tx.objectStore(s).index(unique).get(key)] *)
Definition index_get (s : StoreName) (key : list jsval) : Tx (option VocabDBItem) :=
  request (IndexGet s key) ;;
  if forallb valid_key key then
    db <- get_working ;;
    ret (find (has_index_key s key) (records (objectStore s db)))
  else throw DataError.

(** [tx.objectStore(s).get(k)] *)
Definition store_get (s : StoreName) (k : Z) : Tx (option VocabDBItem) :=
  request (StoreGet s k) ;;
  db <- get_working ;;
  ret (find (fun r => (primary_key r =? k)%Z) (records (objectStore s db))).

(** [tx.objectStore(s).add(v)]: the stores have key path ['id'] and
    [autoIncrement]. *)
Definition store_add (s : StoreName) (v : VocabDBItem) : Tx unit :=
  request (StoreAdd s v) ;;
  db <- get_working ;;
  let st := objectStore s db in
  match id v with
  | None =>
      if violates_unique s (keyGen st) v (records st) then throw ConstraintError
      else set_working (append_record s v db)
  | Some k =>
      if existsb (fun r => (primary_key r =? k)%Z) (records st)
         || violates_unique s k v (records st)
      then throw ConstraintError
      else set_working (upsert_record s k v db)
  end.

(** [tx.objectStore(s).put(v)] *)
Definition store_put (s : StoreName) (v : VocabDBItem) : Tx unit :=
  request (StorePut s v) ;;
  db <- get_working ;;
  let st := objectStore s db in
  match id v with
  | None =>
      if violates_unique s (keyGen st) v (records st) then throw ConstraintError
      else set_working (append_record s v db)
  | Some k =>
      if violates_unique s k v (records st) then throw ConstraintError
      else set_working (upsert_record s k v db)
  end.

(** [await tx.done] *)
Definition tx_done : Tx unit := request TxDone.

(** *** addVocabularyItems *)

Definition warn_base : string :=
  "Skipping item with invalid base properties (english/type):".
Definition warn_core : string :=
  "Skipping item with missing core data fields:".
Definition warn_pos : string :=
  "Skipping invalid word item (bad or missing POS):".
Definition error_aborted : string :=
  "Transaction aborted during addVocabularyItems:".

(** One iteration of [for (const item of items)]; an element that is
    [null] or [undefined] is [None]. *)
Definition add_item (item : option VocabDBItem) (addedCount : nat) : Tx nat :=
  match item with
  | None => console_warn warn_base None ;; ret addedCount
  | Some it =>
      if negb (is_string (english it)) || negb (truthy (english it))
         || negb (truthy (type it))
      then console_warn warn_base item ;; ret addedCount
      else if negb (truthy (japanese it)) || negb (truthy (example_en it))
              || negb (truthy (example_jp it)) || negb (truthy (level it))
              || negb (truthy (category it))
      then console_warn warn_core item ;; ret addedCount
      else
        let data := without_id it in
        if strict_eq (type it) (JStr "word") then
          if truthy (pos it) && includes PARTS_OF_SPEECH (pos it) then
            existing <- index_get WORDS_STORE_NAME [english it; pos it] ;;
            match existing with
            | None => store_add WORDS_STORE_NAME data ;; ret (S addedCount)
            | Some _ => ret addedCount
            end
          else console_warn warn_pos item ;; ret addedCount
        else if strict_eq (type it) (JStr "idiom") then
          existing <- index_get IDIOMS_STORE_NAME [english it] ;;
          match existing with
          | None =>
              store_add IDIOMS_STORE_NAME (with_pos JNull data) ;;
              ret (S addedCount)
          | Some _ => ret addedCount
          end
        else ret addedCount
  end.

Fixpoint add_items (items : list (option VocabDBItem)) (addedCount : nat) : Tx nat :=
  match items with
  | [] => ret addedCount
  | item :: rest => n <- add_item item addedCount ;; add_items rest n
  end.

End Requests.

(** What a call leaves behind: the database, the events and either the
    returned value or the error the promise is rejected with. *)
Record Result (A : Type) : Type := mkResult {
  res_db : DB;
  res_events : list Event;
  res_value : DBError + A
}.

Definition vocab_scope : list StoreName := [WORDS_STORE_NAME; IDIOMS_STORE_NAME].

(** [addVocabularyItems]: the transaction over both stores, the loop,
    [await tx.done], and the [catch] that logs, calls [tx.abort()] and
    rethrows.  When a request of the loop is rejected the transaction is
    still active in the [catch]: [tx.abort()] discards the working copy
    and the error is rethrown.  When it is [await tx.done] that is
    rejected the transaction has finished, without its writes: [tx.abort()]
    on a finished transaction throws [InvalidStateError], and that is the
    error the caller gets, [throw error] is not reached. *)
Definition addVocabularyItems (fault : FaultPlan) (db : DB)
           (items : list (option VocabDBItem)) : Result nat :=
  let loop := add_items fault items 0 (mkTx db 0) in
  match outcome loop with
  | inr addedCount =>
      let commit := tx_done fault (post loop) in
      match outcome commit with
      | inr _ =>
          mkResult (working (post loop))
                   (TxBegin vocab_scope readwrite :: emitted loop ++ emitted commit)
                   (inr addedCount)
      | inl error =>
          mkResult db
                   (TxBegin vocab_scope readwrite :: emitted loop ++ emitted commit
                      ++ [ConsoleError error_aborted error; TxAbort])
                   (inl InvalidStateError)
      end
  | inl error =>
      mkResult db
               (TxBegin vocab_scope readwrite :: emitted loop
                  ++ [ConsoleError error_aborted error; TxAbort])
               (inl error)
  end.

(** ** updateFrequencyLevels *)

Module Update.
Record t : Type := mk {
  id : Z;
  type : VocabType;
  frequencyLevel : Z
}.
End Update.

(** [update.type === 'word' ? wordsStore : idiomsStore] *)
Definition update_store (update : Update.t) : StoreName :=
  if strict_eq (JStr (VocabType_value (Update.type update))) (JStr "word")
  then WORDS_STORE_NAME else IDIOMS_STORE_NAME.

Section Updates.

Variable fault : FaultPlan.

(** [Promise.all(updates.map(async ...))] runs every callback up to its
    first [await] before any of them is resumed: all the [store.get]
    requests are placed, in the order of the list, before the first
    [store.put]. *)
Fixpoint fetch_all (updates : list Update.t) : Tx (list (option VocabDBItem)) :=
  match updates with
  | [] => ret []
  | update :: rest =>
      item <- store_get fault (update_store update) (Update.id update) ;;
      items <- fetch_all rest ;;
      ret (item :: items)
  end.

(** The callbacks are resumed in the order their reads complete: [if (item)],
    the assignment to [item.frequencyLevel] and [store.put(item)]. *)
Fixpoint write_back (work : list (Update.t * option VocabDBItem)) : Tx unit :=
  match work with
  | [] => ret tt
  | (update, Some item) :: rest =>
      store_put fault (update_store update)
        (with_frequencyLevel (JNum (Update.frequencyLevel update)) item) ;;
      write_back rest
  | (_, None) :: rest => write_back rest
  end.

Definition update_body (updates : list Update.t) : Tx unit :=
  items <- fetch_all updates ;;
  write_back (combine updates items) ;;
  tx_done fault.

(** [db.clear(s)]: a transaction of its own with one request.  Clearing a
    store leaves its key generator alone. *)
Definition store_clear (s : StoreName) : Tx unit :=
  request fault (StoreClear s) ;;
  db <- get_working ;;
  set_working (set_objectStore s (mkStore [] (keyGen (objectStore s db))) db).

End Updates.

(** A request that is rejected and not handled aborts its transaction. *)
Definition updateFrequencyLevels (fault : FaultPlan) (db : DB)
           (updates : list Update.t) : Result unit :=
  let r := update_body fault updates (mkTx db 0) in
  match outcome r with
  | inr _ =>
      mkResult (working (post r))
               (TxBegin vocab_scope readwrite :: emitted r) (inr tt)
  | inl error =>
      mkResult db
               (TxBegin vocab_scope readwrite :: emitted r ++ [TxAbort])
               (inl error)
  end.

Definition db_clear (fault : FaultPlan) (s : StoreName) (db : DB) : Result unit :=
  let r := (store_clear fault s ;; tx_done fault) (mkTx db 0) in
  match outcome r with
  | inr _ => mkResult (working (post r)) (TxBegin [s] readwrite :: emitted r) (inr tt)
  | inl error => mkResult db (TxBegin [s] readwrite :: emitted r ++ [TxAbort]) (inl error)
  end.

(** [clearDatabase]: two calls of [db.clear], each with its own transaction
    and so its own fault plan. *)
Definition clearDatabase (fault1 fault2 : FaultPlan) (db : DB) : Result unit :=
  let r1 := db_clear fault1 WORDS_STORE_NAME db in
  match res_value r1 with
  | inl _ => r1
  | inr _ =>
      let r2 := db_clear fault2 IDIOMS_STORE_NAME (res_db r1) in
      match res_value r2 with
      | inl _ => mkResult (res_db r2) (res_events r1 ++ res_events r2) (res_value r2)
      | inr _ =>
          mkResult (res_db r2)
                   (res_events r1 ++ res_events r2 ++ [ConsoleLog "Database cleared."])
                   (inr tt)
      end
  end.

(** The states the exported mutators can produce from a fresh install.  (The
    copy of a legacy ['vocabulary'] store that [upgrade] makes for installs
    older than version 4 is left out: what such a store holds was written
    by earlier versions of the application.) *)
Inductive reachable : DB -> Prop :=
| reach_fresh : reachable empty_db
| reach_add fault db items :
    reachable db -> reachable (res_db (addVocabularyItems fault db items))
| reach_update fault db updates :
    reachable db -> reachable (res_db (updateFrequencyLevels fault db updates))
| reach_clear fault1 fault2 db :
    reachable db -> reachable (res_db (clearDatabase fault1 fault2 db)).

(** ** Strings *)

(** [String(v)], as a template literal and [localeCompare] apply it *)
Definition to_string (v : jsval) : string :=
  match v with
  | JUndefined => "undefined"
  | JNull => "null"
  | JBool true => "true"
  | JBool false => "false"
  | JNum n => NilZero.string_of_int (Z.to_int n)
  | JStr s => s
  end.

(** [String.prototype.toLowerCase] is the host's: it maps by the Unicode
    tables, and not character by character.  The queries take it as a
    parameter.  On text in ASCII it is the mapping of the letters A-Z to
    a-z, which is defined here. *)
Definition lower_char (c : ascii) : ascii :=
  let n := nat_of_ascii c in
  if (65 <=? n) && (n <=? 90) then ascii_of_nat (n + 32) else c.

Fixpoint ascii_toLowerCase (s : string) : string :=
  match s with
  | EmptyString => EmptyString
  | String c t => String (lower_char c) (ascii_toLowerCase t)
  end.

(** [s.includes(sub)] *)
Fixpoint str_includes (s sub : string) : bool :=
  String.prefix sub s
  || match s with
     | EmptyString => false
     | String _ t => str_includes t sub
     end.

(** ** Arrays *)

(** [arr.slice(start, end)] on integral arguments *)
Definition js_slice {A} (arr : list A) (start end_ : Z) : list A :=
  let len := Z.of_nat (List.length arr) in
  let k := if (start <? 0)%Z then Z.max (len + start) 0 else Z.min start len in
  let final := if (end_ <? 0)%Z then Z.max (len + end_) 0 else Z.min end_ len in
  firstn (Z.to_nat (final - k)) (skipn (Z.to_nat k) arr).

(** [arr[i] = v] for an index in range *)
Fixpoint set_at {A} (i : nat) (v : A) (arr : list A) : list A :=
  match arr, i with
  | [], _ => []
  | _ :: t, 0 => v :: t
  | x :: t, S i' => x :: set_at i' v t
  end.

(** [[arr[i], arr[j]] = [arr[j], arr[i]]]; both indices are in range where
    the code does this. *)
Definition swap_at {A} (i j : nat) (arr : list A) : list A :=
  match nth_error arr i, nth_error arr j with
  | Some x, Some y => set_at j x (set_at i y arr)
  | _, _ => arr
  end.

(** ** The query engine

    A query may draw from [Math.random()] and may throw a [TypeError] (a
    method called on a value that has none): a computation takes the number
    of draws made so far and returns [None] when it throws. *)

Definition Q (A : Type) : Type := nat -> option (A * nat).

Definition qret {A} (a : A) : Q A := fun k => Some (a, k).

Definition qbind {A B} (m : Q A) (f : A -> Q B) : Q B :=
  fun k => match m k with
           | Some (a, k') => f a k'
           | None => None
           end.

Definition type_error {A} : Q A := fun _ => None.

Notation "x <~ m ;; k" := (qbind m (fun x => k))
  (at level 61, m at next level, right associativity).

(** [arr.filter(p)] *)
Fixpoint array_filter {A} (p : A -> Q bool) (arr : list A) : Q (list A) :=
  match arr with
  | [] => qret []
  | x :: t =>
      keep <~ p x ;;
      t' <~ array_filter p t ;;
      qret (if keep then x :: t' else t')
  end.

(** [arr.sort(cmp)].  The sort is stable, which fixes its result for every
    consistent comparator; for the others the language leaves the order to
    the engine, and insertion from the right stands for the engine.  The
    comparator is called as [cmp(x, y)] with [x] the element being placed:
    a result above 0 puts [x] after [y]. *)
Fixpoint insert_sorted {A} (cmp : A -> A -> Q Z) (x : A) (arr : list A) : Q (list A) :=
  match arr with
  | [] => qret [x]
  | y :: t =>
      c <~ cmp x y ;;
      if (c <=? 0)%Z then qret (x :: y :: t)
      else t' <~ insert_sorted cmp x t ;; qret (y :: t')
  end.

Fixpoint array_sort {A} (cmp : A -> A -> Q Z) (arr : list A) : Q (list A) :=
  match arr with
  | [] => qret []
  | x :: t => t' <~ array_sort cmp t ;; insert_sorted cmp x t'
  end.

Inductive OrAll (A : Type) : Type :=
| All
| Only (a : A).
Arguments All {A}.
Arguments Only {A} a.

Definition VocabType_eqb (a b : VocabType) : bool :=
  match a, b with
  | word, word | idiom, idiom => true
  | _, _ => false
  end.

(** [sel === t || sel === 'all'] *)
Definition selects (t : VocabType) (sel : OrAll VocabType) : bool :=
  match sel with
  | All => true
  | Only t' => VocabType_eqb t' t
  end.

(** an optional argument as the value the code sees *)
Definition js_opt {A} (f : A -> jsval) (o : option A) : jsval :=
  match o with
  | Some a => f a
  | None => JUndefined
  end.

Definition js_level (l : Level) : jsval := JStr (Level_value l).
Definition js_category (c : VocabCategory) : jsval := JStr (VocabCategory_value c).
Definition js_type (t : VocabType) : jsval := JStr (VocabType_value t).
Definition js_pos (p : PartOfSpeech) : jsval := JStr (PartOfSpeech_value p).

Module Filters.
Inductive PageSort : Type := default | alphabetical.
Record t : Type := mk {
  level : option Level;
  category : option VocabCategory;
  type : option VocabType;
  search : option string;
  sortOrder : option PageSort;
  frequencyLevel : option Z
}.
End Filters.

Record Page : Type := mkPage {
  items : list VocabDBItem;
  total : nat
}.

(** [db.getAllFromIndex(store, 'level_category', IDBKeyRange.only([level, category]))]:
    the records whose index key is the given pair, in primary key order. *)
Definition getAllFromIndex_level_category (st : ObjectStore) (lvl : Level)
           (cat : VocabCategory) : list VocabDBItem :=
  filter (fun r => strict_eq (level r) (js_level lvl)
                   && strict_eq (category r) (js_category cat))
         (records st).

Section Queries.

(** The [k]-th value of [Math.random()] is [a / (a + b + 1)] for
    [random k = (a, b)]. *)
Variable random : nat -> nat * nat.

(** [String.prototype.localeCompare] of the host locale *)
Variable localeCompare : string -> string -> Z.

(** [String.prototype.toLowerCase] of the host *)
Variable toLowerCase : string -> string.

Definition math_random : Q (nat * nat) := fun k => Some (random k, S k).

(** [Math.floor(u * n)] *)
Definition floor_scaled (u : nat * nat) (n : nat) : nat :=
  (fst u * n) / (fst u + snd u + 1).

(** [0.5 - u], times the positive number [2 * (a + b + 1)] *)
Definition half_minus (u : nat * nat) : Z :=
  (Z.of_nat (snd u + 1) - Z.of_nat (fst u))%Z.

(** [(a, b) => a.english.localeCompare(b.english)] *)
Definition by_english (a b : VocabDBItem) : Q Z :=
  match english a with
  | JStr x => qret (localeCompare x (to_string (english b)))
  | _ => type_error
  end.

(** [(a, b) => (a.id ?? 0) - (b.id ?? 0)] *)
Definition by_id (a b : VocabDBItem) : Q Z :=
  qret (primary_key a - primary_key b)%Z.

(** [() => 0.5 - Math.random()] *)
Definition by_chance (a b : VocabDBItem) : Q Z :=
  u <~ math_random ;; qret (half_minus u).

(** The loop [for (let i = allItems.length - 1; i > 0; i--)] from [i] down. *)
Fixpoint shuffle_from {A} (i : nat) (allItems : list A) : Q (list A) :=
  match i with
  | 0 => qret allItems
  | S i' =>
      u <~ math_random ;;
      let j := floor_scaled u (i + 1) in
      shuffle_from i' (swap_at i j allItems)
  end.

Definition shuffle {A} (allItems : list A) : Q (list A) :=
  shuffle_from (List.length allItems - 1) allItems.

(** The part [getVocabulary] and [getAllVocabularyForLevelAndCategory] share:
    everything up to the sort. *)
Definition select_items (db : DB) (lvl : Level) (cat : VocabCategory)
           (vocabType : OrAll VocabType) (posFilter : OrAll PartOfSpeech)
           (freq : option Z) : list VocabDBItem :=
  let allItems := [] in
  let allItems :=
    if selects word vocabType
    then allItems ++ getAllFromIndex_level_category (words db) lvl cat
    else allItems in
  let allItems :=
    if selects idiom vocabType
    then allItems ++ getAllFromIndex_level_category (idioms db) lvl cat
    else allItems in
  let allItems :=
    match posFilter with
    | Only p => filter (fun item => strict_eq (pos item) (js_pos p)) allItems
    | All => allItems
    end in
  if truthy (js_opt JNum freq)
  then filter (fun item => strict_eq (frequencyLevel item) (js_opt JNum freq)) allItems
  else allItems.

Definition order_items (sortOrder : SortOrder) (allItems : list VocabDBItem)
  : Q (list VocabDBItem) :=
  match sortOrder with
  | Alphabetical => array_sort by_english allItems
  | Random => shuffle allItems
  end.

Definition getVocabulary (db : DB) (lvl : Level) (cat : VocabCategory)
           (vocabType : OrAll VocabType) (posFilter : OrAll PartOfSpeech)
           (sortOrder : SortOrder) (count : Z) (freq : option Z)
  : Q (list VocabDBItem) :=
  allItems <~ order_items sortOrder
                (select_items db lvl cat vocabType posFilter freq) ;;
  qret (js_slice allItems 0 count).

Definition getAllVocabularyForLevelAndCategory (db : DB) (lvl : Level)
           (cat : VocabCategory) (vocabType : OrAll VocabType)
           (posFilter : OrAll PartOfSpeech) (sortOrder : SortOrder)
           (freq : option Z) : Q (list VocabDBItem) :=
  order_items sortOrder (select_items db lvl cat vocabType posFilter freq).

(** [item.type === 'word' && item.pos ? `${item.english}-${item.pos}` : item.english] *)
Definition existing_name (item : VocabDBItem) : jsval :=
  if strict_eq (type item) (JStr "word") && truthy (pos item)
  then JStr (to_string (english item) ++ "-" ++ to_string (pos item))
  else english item.

Definition getExistingWords (db : DB) (lvl : OrAll Level)
           (cat : OrAll VocabCategory) (type_ : OrAll VocabType) (limit : Z)
  : Q (list jsval) :=
  let items := [] in
  let items := if selects word type_ then items ++ records (words db) else items in
  let items := if selects idiom type_ then items ++ records (idioms db) else items in
  let items :=
    match lvl with
    | Only l => filter (fun item => strict_eq (level item) (js_level l)) items
    | All => items
    end in
  let items :=
    match cat with
    | Only c => filter (fun item => strict_eq (category item) (js_category c)) items
    | All => items
    end in
  shuffled <~ array_sort by_chance items ;;
  qret (map existing_name (js_slice shuffled 0 limit)).

(** [x.toLowerCase()] on a value read from a record *)
Definition js_toLowerCase (v : jsval) : Q string :=
  match v with
  | JStr s => qret (toLowerCase s)
  | _ => type_error
  end.

Definition matches (filters : Filters.t) (item : VocabDBItem) : Q bool :=
  let lowerCaseSearch := option_map toLowerCase (Filters.search filters) in
  let f_level := js_opt js_level (Filters.level filters) in
  let f_category := js_opt js_category (Filters.category filters) in
  let f_type := js_opt js_type (Filters.type filters) in
  let f_frequencyLevel := js_opt JNum (Filters.frequencyLevel filters) in
  if truthy f_level && negb (strict_eq (level item) f_level) then qret false
  else if truthy f_category && negb (strict_eq (category item) f_category)
  then qret false
  else if truthy f_type && negb (strict_eq (type item) f_type) then qret false
  else if truthy f_frequencyLevel
          && negb (strict_eq (frequencyLevel item) f_frequencyLevel)
  then qret false
  else if truthy (js_opt JStr lowerCaseSearch) then
    let sub := to_string (js_opt JStr lowerCaseSearch) in
    e <~ js_toLowerCase (english item) ;;
    if negb (str_includes e sub) then
      j <~ js_toLowerCase (japanese item) ;;
      if negb (str_includes j sub) then qret false else qret true
    else qret true
  else qret true.

Definition getPaginatedVocabulary (db : DB) (page itemsPerPage : Z)
           (filters : Filters.t) : Q Page :=
  let f_type := js_opt js_type (Filters.type filters) in
  matchingWords <~
    (if negb (strict_eq f_type (JStr "idiom"))
     then array_filter (matches filters) (records (words db))
     else qret []) ;;
  matchingIdioms <~
    (if negb (strict_eq f_type (JStr "word"))
     then array_filter (matches filters) (records (idioms db))
     else qret []) ;;
  let allMatchingItems := matchingWords ++ matchingIdioms in
  allMatchingItems <~
    match Filters.sortOrder filters with
    | Some Filters.alphabetical => array_sort by_english allMatchingItems
    | _ => array_sort by_id allMatchingItems
    end ;;
  let total := List.length allMatchingItems in
  let start := ((page - 1) * itemsPerPage)%Z in
  qret (mkPage (js_slice allMatchingItems start (start + itemsPerPage)) total).

End Queries.

(** ** Vocabulary of the statements *)

(** The state of a transaction after one more request. *)
Definition bump (s : TxState) : TxState := mkTx (working s) (S (requests s)).

(** The checks of [add_item] that do not touch the store: either the item
    is skipped, with or without a warning, or the unique index of a store
    is probed for a key and [data] is added when the key is free. *)
Inductive Plan : Type :=
| Skip (warning : option string)
| Probe (s : StoreName) (key : list jsval) (data : VocabDBItem).

Definition plan (item : option VocabDBItem) : Plan :=
  match item with
  | None => Skip (Some warn_base)
  | Some it =>
      if negb (is_string (english it)) || negb (truthy (english it))
         || negb (truthy (type it))
      then Skip (Some warn_base)
      else if negb (truthy (japanese it)) || negb (truthy (example_en it))
              || negb (truthy (example_jp it)) || negb (truthy (level it))
              || negb (truthy (category it))
      then Skip (Some warn_core)
      else if strict_eq (type it) (JStr "word") then
        if truthy (pos it) && includes PARTS_OF_SPEECH (pos it)
        then Probe WORDS_STORE_NAME [english it; pos it] (without_id it)
        else Skip (Some warn_pos)
      else if strict_eq (type it) (JStr "idiom")
      then Probe IDIOMS_STORE_NAME [english it] (with_pos JNull (without_id it))
      else Skip None
  end.

Definition run_plan (fault : FaultPlan) (p : Plan) (item : option VocabDBItem)
           (addedCount : nat) : Tx nat :=
  match p with
  | Skip None => ret addedCount
  | Skip (Some w) => console_warn w item ;; ret addedCount
  | Probe s key data =>
      existing <- index_get fault s key ;;
      match existing with
      | None => store_add fault s data ;; ret (S addedCount)
      | Some _ => ret addedCount
      end
  end.

(** The body of the [try] block of [addVocabularyItems]. *)
Definition add_body (fault : FaultPlan) (items : list (option VocabDBItem)) : Tx nat :=
  n <- add_items fault items 0 ;; tx_done fault ;; ret n.

(** The error the caller of [addVocabularyItems] gets when the body of the
    [try] block fails with [e]: [e] itself when a request of the loop was
    rejected, [InvalidStateError] when the loop went through and [tx.done]
    was rejected. *)
Definition rethrown (fault : FaultPlan) (db : DB) (items : list (option VocabDBItem))
           (e : DBError) : DBError :=
  match outcome (add_items fault items 0 (mkTx db 0)) with
  | inr _ => InvalidStateError
  | inl _ => e
  end.

(** The values at the key path of the unique index of a store. *)
Definition unique_key (s : StoreName) (r : VocabDBItem) : list jsval :=
  map (fun f => f r) (unique_keyPath s).

(** The uniqueness keys of the two collections. *)
Definition word_key (r : VocabDBItem) : jsval * jsval := (english r, pos r).
Definition idiom_key (r : VocabDBItem) : jsval := english r.

(** What every record of a store looks like. *)
Definition record_ok (s : StoreName) (r : VocabDBItem) : Prop :=
  match s with
  | WORDS_STORE_NAME =>
      is_string (english r) = true
      /\ includes PARTS_OF_SPEECH (pos r) = true
      /\ type r = JStr "word"
  | IDIOMS_STORE_NAME =>
      is_string (english r) = true
      /\ pos r = JNull
      /\ type r = JStr "idiom"
  end.

Definition key_lt (a b : VocabDBItem) : Prop := (primary_key a < primary_key b)%Z.

Definition has_key_below (bound : Z) (r : VocabDBItem) : Prop :=
  exists k, id r = Some k /\ (0 < k < bound)%Z.

Record store_ok (s : StoreName) (st : ObjectStore) : Prop := mkStoreOk {
  ok_records : Forall (record_ok s) (records st);
  ok_unique : NoDup (map (unique_key s) (records st));
  ok_sorted : StronglySorted key_lt (records st);
  ok_keys : Forall (has_key_below (keyGen st)) (records st);
  ok_gen : (0 < keyGen st)%Z
}.

Definition store_inv (db : DB) : Prop :=
  store_ok WORDS_STORE_NAME (words db) /\ store_ok IDIOMS_STORE_NAME (idioms db).

(** The ways one iteration of the loop can go: no request at all, a rejected
    probe, a duplicate, a rejected insertion, an insertion. *)
Inductive item_step (fault : FaultPlan) (n : nat) (s : TxState) : Step nat -> Prop :=
| step_skip warning item :
    item_step fault n s
      (mkStep (match warning with
               | Some w => [ConsoleWarn w item]
               | None => []
               end) (inr n) s)
| step_probe_rejected sn key e :
    fault (requests s) = Some e ->
    item_step fault n s (mkStep [IndexGet sn key] (inl e) (bump s))
| step_duplicate sn key x :
    fault (requests s) = None ->
    find (has_index_key sn key) (records (objectStore sn (working s))) = Some x ->
    item_step fault n s (mkStep [IndexGet sn key] (inr n) (bump s))
| step_add_rejected sn key data e :
    fault (requests s) = None ->
    fault (S (requests s)) = Some e ->
    item_step fault n s
      (mkStep [IndexGet sn key; StoreAdd sn data] (inl e) (bump (bump s)))
| step_added sn key data :
    fault (requests s) = None ->
    fault (S (requests s)) = None ->
    find (has_index_key sn key) (records (objectStore sn (working s))) = None ->
    index_key sn data = Some key ->
    id data = None ->
    record_ok sn data ->
    item_step fault n s
      (mkStep [IndexGet sn key; StoreAdd sn data] (inr (S n))
              (mkTx (append_record sn data (working s)) (S (S (requests s))))).

(** The requests a step placed were answered as the fault plan says: a step
    that returns had all of them served, a step that throws had all but the
    last served and throws the error of the last. *)
Record accounted (fault : FaultPlan) (A : Type) (s : TxState) (r : Step A) : Prop :=
  mkAccounted {
  acc_mono : requests s <= requests (post r);
  acc_served : forall j, requests s <= j -> S j < requests (post r) -> fault j = None;
  acc_ok : forall a, outcome r = inr a ->
           forall j, requests s <= j -> j < requests (post r) -> fault j = None;
  acc_fail : forall e, outcome r = inl e ->
             requests s < requests (post r)
             /\ fault (pred (requests (post r))) = Some e
}.
Arguments accounted fault {A} s r.


(** A record [addVocabularyItems] accepts: a non-empty english string, the
    other required fields present, and a type that is ['word'], with a part
    of speech of the enumeration, or ['idiom']. *)
Definition valid_record (it : VocabDBItem) : bool :=
  is_string (english it) && truthy (english it)
  && truthy (japanese it) && truthy (example_en it) && truthy (example_jp it)
  && truthy (level it) && truthy (category it)
  && (strict_eq (type it) (JStr "word") && includes PARTS_OF_SPEECH (pos it)
      || strict_eq (type it) (JStr "idiom")).

(** The collection a record goes to and its uniqueness key there. *)
Definition target_store (it : VocabDBItem) : StoreName :=
  if strict_eq (type it) (JStr "word") then WORDS_STORE_NAME else IDIOMS_STORE_NAME.

Definition uniqueness_key (it : VocabDBItem) : StoreName * list jsval :=
  (target_store it, unique_key (target_store it) it).

Definition stored (db : DB) (k : StoreName * list jsval) : Prop :=
  In (snd k) (map (unique_key (fst k)) (records (objectStore (fst k) db))).

(** The record as it is added. *)
Definition stored_form (it : VocabDBItem) : VocabDBItem :=
  match target_store it with
  | WORDS_STORE_NAME => without_id it
  | IDIOMS_STORE_NAME => with_pos JNull (without_id it)
  end.

Definition missing (v : jsval) : bool := negb (truthy v).

(** A record that fails validation: english or type missing, one of the
    core fields missing, or a word whose part of speech is missing or not of
    the enumeration. *)
Definition invalid_record (item : option VocabDBItem) : bool :=
  match item with
  | None => true
  | Some it =>
      negb (is_string (english it)) || missing (english it) || missing (type it)
      || missing (japanese it) || missing (example_en it)
      || missing (example_jp it) || missing (level it) || missing (category it)
      || (strict_eq (type it) (JStr "word")
          && (missing (pos it) || negb (includes PARTS_OF_SPEECH (pos it))))
  end.

(** A record with everything present whose type is neither ['word'] nor
    ['idiom']. *)
Definition unknown_type (it : VocabDBItem) : bool :=
  is_string (english it) && truthy (english it) && truthy (type it)
  && truthy (japanese it) && truthy (example_en it) && truthy (example_jp it)
  && truthy (level it) && truthy (category it)
  && negb (strict_eq (type it) (JStr "word"))
  && negb (strict_eq (type it) (JStr "idiom")).

Definition is_store_add (ev : Event) : bool :=
  match ev with StoreAdd _ _ => true | _ => false end.


(** A sequence of calls of [addVocabularyItems], each with its fault plan. *)
Definition add_calls (db : DB) (calls : list (FaultPlan * list (option VocabDBItem))) : DB :=
  fold_left (fun d c => res_db (addVocabularyItems (fst c) d (snd c))) calls db.

(** *** Vocabulary for [updateFrequencyLevels] *)

Definition StoreName_eqb (a b : StoreName) : bool :=
  match a, b with
  | WORDS_STORE_NAME, WORDS_STORE_NAME => true
  | IDIOMS_STORE_NAME, IDIOMS_STORE_NAME => true
  | _, _ => false
  end.

(** The record of store [sn] an update is aimed at. *)
Definition targets (update : Update.t) (sn : StoreName) (r : VocabDBItem) : bool :=
  StoreName_eqb (update_store update) sn && (primary_key r =? Update.id update)%Z.

(** The frequency level of a record once a list of updates is applied in
    order: the last update aimed at the record decides. *)
Definition frequency_after (updates : list Update.t) (sn : StoreName)
           (r : VocabDBItem) : jsval :=
  fold_left (fun acc update =>
               if targets update sn r then JNum (Update.frequencyLevel update) else acc)
            updates (frequencyLevel r).

(** A store, and a database, with the frequency levels replaced. *)
Definition refreq (g : VocabDBItem -> jsval) (st : ObjectStore) : ObjectStore :=
  mkStore (map (fun r => with_frequencyLevel (g r) r) (records st)) (keyGen st).

Definition refreq_db (g : StoreName -> VocabDBItem -> jsval) (db : DB) : DB :=
  mkDB (refreq (g WORDS_STORE_NAME) (words db))
       (refreq (g IDIOMS_STORE_NAME) (idioms db)).

(** [store.get(id)] outside a transaction *)
Definition find_by_id (sn : StoreName) (k : Z) (db : DB) : option VocabDBItem :=
  find (fun r => (primary_key r =? k)%Z) (records (objectStore sn db)).

(** Two updates aimed at the same record. *)
Definition same_target (u1 u2 : Update.t) : Prop :=
  update_store u1 = update_store u2 /\ Update.id u1 = Update.id u2.

(** Two records that differ at most in their frequency level. *)
Definition same_but_frequency (r r' : VocabDBItem) : Prop :=
  id r' = id r /\ english r' = english r /\ japanese r' = japanese r
  /\ pos r' = pos r /\ example_en r' = example_en r
  /\ example_jp r' = example_jp r /\ level r' = level r
  /\ category r' = category r /\ type r' = type r.

(** *** Vocabulary for the queries *)

(** The sort of [array_sort] for a comparator that neither draws nor
    throws. *)
Fixpoint insert_pure {A} (c : A -> A -> Z) (x : A) (arr : list A) : list A :=
  match arr with
  | [] => [x]
  | y :: t => if (c x y <=? 0)%Z then x :: y :: t else y :: insert_pure c x t
  end.

Fixpoint sort_pure {A} (c : A -> A -> Z) (arr : list A) : list A :=
  match arr with
  | [] => []
  | x :: t => insert_pure c x (sort_pure c t)
  end.

(** A comparator is consistent when "not after" is total and transitive. *)
Definition consistent {A} (c : A -> A -> Z) : Prop :=
  (forall a b, (c a b <= 0)%Z \/ (c b a <= 0)%Z)
  /\ (forall a b d, (c a b <= 0)%Z -> (c b d <= 0)%Z -> (c a d <= 0)%Z).

(** Does the query call a string method on a field?  With a search text
    it lower-cases english, and japanese where english does not match;
    in the alphabetical order it calls [localeCompare] on english. *)
Definition searches (filters : Filters.t) : bool :=
  match Filters.search filters with
  | Some _ => true
  | None => false
  end.

Definition by_name (filters : Filters.t) : bool :=
  match Filters.sortOrder filters with
  | Some Filters.alphabetical => true
  | _ => false
  end.

(** The text the query reads is there: the fields it calls string methods
    on are strings, as [interface VocabDBItem] declares them. *)
Definition text_ok (filters : Filters.t) (r : VocabDBItem) : Prop :=
  (searches filters || by_name filters = true -> is_string (english r) = true)
  /\ (searches filters = true -> is_string (japanese r) = true).

Definition queryable (db : DB) (filters : Filters.t) : Prop :=
  Forall (text_ok filters) (records (words db))
  /\ Forall (text_ok filters) (records (idioms db)).

(** What both writers of the stores see to, [addVocabularyItems] and the
    migration of [upgrade]: the records of the words store have the type
    ['word'] and those of the idioms store the type ['idiom']; and the
    records of a store come in the order of their keys. *)
Definition kept_by_type (db : DB) : Prop :=
  Forall (fun r => type r = JStr "word") (records (words db))
  /\ Forall (fun r => type r = JStr "idiom") (records (idioms db))
  /\ StronglySorted key_lt (records (words db))
  /\ StronglySorted key_lt (records (idioms db)).

(** The test of [matches] on a record whose text is there. *)
Definition passes (toLowerCase : string -> string) (filters : Filters.t)
           (item : VocabDBItem) : bool :=
  let f_level := js_opt js_level (Filters.level filters) in
  let f_category := js_opt js_category (Filters.category filters) in
  let f_type := js_opt js_type (Filters.type filters) in
  let f_frequencyLevel := js_opt JNum (Filters.frequencyLevel filters) in
  let f_search := js_opt JStr (option_map toLowerCase (Filters.search filters)) in
  negb (truthy f_level && negb (strict_eq (level item) f_level))
  && negb (truthy f_category && negb (strict_eq (category item) f_category))
  && negb (truthy f_type && negb (strict_eq (type item) f_type))
  && negb (truthy f_frequencyLevel
           && negb (strict_eq (frequencyLevel item) f_frequencyLevel))
  && negb (truthy f_search
           && negb (str_includes (toLowerCase (to_string (english item)))
                                 (to_string f_search))
           && negb (str_includes (toLowerCase (to_string (japanese item)))
                                 (to_string f_search))).

(** The filtered set: what [getPaginatedVocabulary] collects before it
    sorts. *)
Definition matching (toLowerCase : string -> string) (db : DB)
           (filters : Filters.t) : list VocabDBItem :=
  let f_type := js_opt js_type (Filters.type filters) in
  (if negb (strict_eq f_type (JStr "idiom"))
   then filter (passes toLowerCase filters) (records (words db)) else [])
  ++ (if negb (strict_eq f_type (JStr "word"))
      then filter (passes toLowerCase filters) (records (idioms db)) else []).

(** The order [getPaginatedVocabulary] sorts by. *)
Definition page_order (localeCompare : string -> string -> Z)
           (filters : Filters.t) (a b : VocabDBItem) : Z :=
  match Filters.sortOrder filters with
  | Some Filters.alphabetical =>
      localeCompare (to_string (english a)) (to_string (english b))
  | _ => (primary_key a - primary_key b)%Z
  end.

Definition sorted_matching (localeCompare : string -> string -> Z)
           (toLowerCase : string -> string) (db : DB)
           (filters : Filters.t) : list VocabDBItem :=
  sort_pure (page_order localeCompare filters) (matching toLowerCase db filters).

(** The items of a page, none when the query throws. *)
Definition page_items (o : option (Page * nat)) : list VocabDBItem :=
  match o with
  | Some (pg, _) => items pg
  | None => []
  end.

(** [Math.ceil(total / itemsPerPage)] *)
Definition pages_needed (total : nat) (itemsPerPage : Z) : nat :=
  (total + Z.to_nat itemsPerPage - 1) / Z.to_nat itemsPerPage.

(** The search as the code makes it: the lower-cased text is a substring
    of the lower-cased field. *)
Definition found_in (toLowerCase : string -> string) (needle hay : string) : Prop :=
  exists pre post,
    toLowerCase hay = (pre ++ toLowerCase needle ++ post)%string.

(** What that is on text in ASCII, said without any case mapping: two
    characters are the same letter when they are equal or are the capital
    and the small form of one of the 26 letters; [needle] occurs in [hay]
    up to the case of the letters when a substring of [hay] has the
    length of [needle] and the same letter at every position. *)
Definition capital_letters : string := "ABCDEFGHIJKLMNOPQRSTUVWXYZ".
Definition small_letters : string := "abcdefghijklmnopqrstuvwxyz".

Definition letter_pairs : list (ascii * ascii) :=
  combine (list_ascii_of_string capital_letters) (list_ascii_of_string small_letters).

Definition same_letter (a b : ascii) : Prop :=
  a = b \/ In (a, b) letter_pairs \/ In (b, a) letter_pairs.

Fixpoint same_text (s t : string) : Prop :=
  match s, t with
  | EmptyString, EmptyString => True
  | String a s', String b t' => same_letter a b /\ same_text s' t'
  | _, _ => False
  end.

Definition occurs_ci (needle hay : string) : Prop :=
  exists pre mid post,
    hay = (pre ++ mid ++ post)%string /\ same_text mid needle.

(** [same_letter] as a test. *)
Definition same_letterb (a b : ascii) : bool :=
  Ascii.eqb a b
  || existsb (fun p => Ascii.eqb (fst p) a && Ascii.eqb (snd p) b) letter_pairs
  || existsb (fun p => Ascii.eqb (fst p) b && Ascii.eqb (snd p) a) letter_pairs.

(** Text in ASCII, and a host whose [toLowerCase] does on such text what
    the language prescribes. *)
Fixpoint is_ascii (s : string) : bool :=
  match s with
  | EmptyString => true
  | String c t => (nat_of_ascii c <? 128) && is_ascii t
  end.

Definition ascii_host (toLowerCase : string -> string) : Prop :=
  forall s, is_ascii s = true -> toLowerCase s = ascii_toLowerCase s.

(** A record satisfies every filter that is given; [found needle hay]
    says what it is for the search text to occur in a field. *)
Definition satisfies (found : string -> string -> Prop) (filters : Filters.t)
           (r : VocabDBItem) : Prop :=
  (forall l, Filters.level filters = Some l -> level r = js_level l)
  /\ (forall c, Filters.category filters = Some c -> category r = js_category c)
  /\ (forall t, Filters.type filters = Some t -> type r = js_type t)
  /\ (forall n, Filters.frequencyLevel filters = Some n -> frequencyLevel r = JNum n)
  /\ (forall s, Filters.search filters = Some s ->
        (exists e, english r = JStr e /\ found s e)
        \/ (exists j, japanese r = JStr j /\ found s j)).

(** The search text and the text of the record are in ASCII. *)
Definition ascii_text (filters : Filters.t) (r : VocabDBItem) : Prop :=
  (forall s, Filters.search filters = Some s -> is_ascii s = true)
  /\ (forall e, english r = JStr e -> is_ascii e = true)
  /\ (forall j, japanese r = JStr j -> is_ascii j = true).

(** A frequency filter, when given, is one of the tiers 1, 2, 3. *)
Definition tier_filter (filters : Filters.t) : Prop :=
  forall n, Filters.frequencyLevel filters = Some n -> (1 <= n <= 3)%Z.

(** *** Vocabulary for the shuffle *)

(** The loop of [shuffle_from] with the drawn indices given: [js] lists the
    index drawn at [i], [i - 1], ..., 1. *)
Fixpoint shuffle_by {A} (i : nat) (js : list nat) (arr : list A) : list A :=
  match i, js with
  | S i', j :: js' => shuffle_by i' js' (swap_at i j arr)
  | _, _ => arr
  end.

(** The indices the loop draws from call [k] of [Math.random()] on. *)
Fixpoint drawn_indices (random : nat -> nat * nat) (i k : nat) : list nat :=
  match i with
  | 0 => []
  | S i' => floor_scaled (random k) (i + 1) :: drawn_indices random i' (S k)
  end.

(** One index for each of [i], [i - 1], ..., 1, each within [0, i]. *)
Fixpoint indices_ok (i : nat) (js : list nat) : Prop :=
  match i, js with
  | 0, [] => True
  | S i', j :: js' => j <= i /\ indices_ok i' js'
  | _, _ => False
  end.

(** Where the element at position [k] of a list with [i] and [j] swapped
    comes from. *)
Definition transpose (i j k : nat) : nat :=
  if k =? i then j else if k =? j then i else k.

(** ** Sample records *)

Definition sample_item (e : string) (p : jsval) (t : string) : VocabDBItem :=
  mkItem None (JStr e) (JStr "hashiru") p (JStr "I run every day.")
         (JStr "mainichi hashirimasu") (js_level Beginner) (js_category DailyLife)
         (JStr t) JUndefined.

Definition run_verb : VocabDBItem := sample_item "run" (js_pos Verb) "word".
Definition run_noun : VocabDBItem := sample_item "run" (js_pos Noun) "word".
Definition run_out : VocabDBItem := sample_item "run out of" JUndefined "idiom".

(** a word without a part of speech *)
Definition run_bare : VocabDBItem := sample_item "run" JUndefined "word".

(** a record whose type is neither ['word'] nor ['idiom'] *)
Definition run_phrase : VocabDBItem := sample_item "run" (js_pos Verb) "phrase".

Definition sample_batch : list VocabDBItem := [run_verb; run_noun; run_out].

Definition sample_db : DB :=
  res_db (addVocabularyItems no_faults empty_db (map Some sample_batch)).

(** The second request of the transaction, the first [add], is rejected. *)
Definition fail_second : FaultPlan :=
  fun k => if k =? 1 then Some (StorageFault 1) else None.


(** The seventh request is rejected: for [sample_batch] that is the
    commit, [await tx.done], after the three records have been added. *)
Definition fail_commit : FaultPlan :=
  fun k => if k =? 6 then Some (StorageFault 6) else None.

(** Two updates for the word with id 1: first tier 1, then tier 3. *)
Definition first_update : Update.t := Update.mk 1 word 1.
Definition conflicting_updates : list Update.t := [first_update; Update.mk 1 word 3].

(** Updates for the word 1, for an idiom that does not exist, and for the
    word 2. *)
Definition mixed_updates : list Update.t :=
  [Update.mk 1 word 3; Update.mk 9 idiom 2; Update.mk 2 word 1].

(** Comparison by code units, the [localeCompare] of a locale without
    tailoring, and a typical filter set. *)
Definition code_unit_compare (a b : string) : Z :=
  match String.compare a b with
  | Lt => (-1)%Z
  | Eq => 0%Z
  | Gt => 1%Z
  end.

Definition no_filters : Filters.t := Filters.mk None None None None None None.

Definition run_words : Filters.t :=
  Filters.mk (Some Beginner) None (Some word) (Some "RUN"%string)
             (Some Filters.alphabetical) None.

(** A record [addVocabularyItems] takes although its japanese is a number:
    the validation asks of that field that it is truthy, not that it is a
    string.  The store with it and [run_verb], and a search for the
    japanese of [run_verb]. *)
Definition walk_numbered : VocabDBItem :=
  mkItem None (JStr "walk") (JNum 5%Z) (js_pos Verb) (JStr "I walk to work.")
         (JStr "aruite ikimasu") (js_level Beginner) (js_category DailyLife)
         (JStr "word") JUndefined.

Definition numbered_db : DB :=
  res_db (addVocabularyItems no_faults empty_db [Some walk_numbered; Some run_verb]).

Definition search_hashiru : Filters.t :=
  Filters.mk None None None (Some "Hashiru"%string) None None.

(** Draws of [Math.random()] below and above one half, 1/4 and 3/4, and the
    streams that start with a given sequence of them: every comparison of
    [by_chance] is then a coin flip, [true] for "above". *)
Definition low_draw : nat * nat := (1, 2).
Definition high_draw : nat * nat := (3, 0).

Definition coin_stream (flips : list bool) : nat -> nat * nat :=
  fun k => if nth k flips false then high_draw else low_draw.

(** The eight equally likely outcomes of three flips. *)
Definition three_flips : list (list bool) :=
  [[false; false; false]; [false; false; true]; [false; true; false];
   [false; true; true]; [true; false; false]; [true; false; true];
   [true; true; false]; [true; true; true]].

(** The values of [Math.random()] that make the two draws of the shuffle
    of three items come out as every pair of indices: 0, 1/3, 2/3 for the
    first and 0, 1/2 for the second. *)
Definition three_item_draws : list (list (nat * nat)) :=
  [[(0, 0); (0, 0)]; [(0, 0); (1, 0)]; [(1, 1); (0, 0)];
   [(1, 1); (1, 0)]; [(2, 0); (0, 0)]; [(2, 0); (1, 0)]].

Definition draw_stream (draws : list (nat * nat)) : nat -> nat * nat :=
  fun k => nth k draws (0, 0).

(** ** The other readers of db.ts

    [db.count] and [db.getAll] are taken to be served. *)

(** [getVocabCount]: [db.count] of both stores *)
Definition getVocabCount (db : DB) : nat :=
  let wordCount := List.length (records (words db)) in
  let idiomCount := List.length (records (idioms db)) in
  wordCount + idiomCount.

(** [getAllVocabulary]: [[...words, ...idioms]] *)
Definition getAllVocabulary (db : DB) : list VocabDBItem :=
  records (words db) ++ records (idioms db).

(** [getItemsWithoutFrequency] *)
Definition getItemsWithoutFrequency (db : DB) : list VocabDBItem :=
  filter (fun item => strict_eq (frequencyLevel item) JUndefined)
         (records (words db) ++ records (idioms db)).

(** An update that carries the id and the type of a record, as
    [handleStartAnalysis] sends them to the analysis service. *)
Definition aimed_at (update : Update.t) (r : VocabDBItem) : Prop :=
  Update.id update = primary_key r /\ js_type (Update.type update) = type r.

(** The last event of a call. *)
Definition last_event (evs : list Event) : option Event := last (map Some evs) None.

(** The records of a list added one after the other, each under the next
    key of its store. *)
Definition append_all (l : list VocabDBItem) (db : DB) : DB :=
  fold_left (fun d it => append_record (target_store it) (stored_form it) d) l db.

(** The request a fault plan rejects first among the two of [db.clear]. *)
Definition clear_rejected (fault : FaultPlan) : option DBError :=
  match fault 0 with
  | Some e => Some e
  | None => fault 1
  end.

Definition is_console_warn (ev : Event) : bool :=
  match ev with ConsoleWarn _ _ => true | _ => false end.

Definition is_index_get (ev : Event) : bool :=
  match ev with IndexGet _ _ => true | _ => false end.

(** The classes of a candidate of [addVocabularyItems]. *)
Definition item_invalid (item : option VocabDBItem) : bool := invalid_record item.

Definition item_valid (item : option VocabDBItem) : bool :=
  match item with Some it => valid_record it | None => false end.

Definition item_unknown (item : option VocabDBItem) : bool :=
  match item with Some it => unknown_type it | None => false end.

(** An update for each record of [sample_db]: the words 1 and 2 and the
    idiom 1. *)
Definition annotate_all : list Update.t :=
  [Update.mk 1 word 2; Update.mk 2 word 1; Update.mk 1 idiom 3].

(** A candidate that comes with an id of its own. *)
Definition jog_verb : VocabDBItem :=
  mkItem (Some 40%Z) (JStr "jog") (JStr "jogingu suru") (js_pos Verb)
         (JStr "I jog at dawn.") (JStr "yoake ni jogingu shimasu")
         (js_level Beginner) (js_category Health) (JStr "word") JUndefined.

(** *** Vocabulary for the study queries *)

(** A record the filters of [getVocabulary] let through: it is in a
    collection the type selection names, has the level and the category
    asked for, the part of speech when one is asked for, and the frequency
    level when one other than 0 is asked for. *)
Definition selected (db : DB) (lvl : Level) (cat : VocabCategory)
           (vocabType : OrAll VocabType) (posFilter : OrAll PartOfSpeech)
           (freq : option Z) (r : VocabDBItem) : Prop :=
  ((selects word vocabType = true /\ In r (records (words db)))
   \/ (selects idiom vocabType = true /\ In r (records (idioms db))))
  /\ level r = js_level lvl
  /\ category r = js_category cat
  /\ (forall p, posFilter = Only p -> pos r = js_pos p)
  /\ (forall n, freq = Some n -> n <> 0%Z -> frequencyLevel r = JNum n).

(** The order of [Alphabetical]. *)
Definition english_order (localeCompare : string -> string -> Z)
           (a b : VocabDBItem) : Z :=
  localeCompare (to_string (english a)) (to_string (english b)).

(** The number of values of [Math.random()] a shuffle of [n] items draws. *)
Definition shuffle_draws (n : nat) : nat := n - 1.

(** The records [getExistingWords] takes the names of. *)
Definition named (db : DB) (lvl : OrAll Level) (cat : OrAll VocabCategory)
           (type_ : OrAll VocabType) (r : VocabDBItem) : Prop :=
  ((selects word type_ = true /\ In r (records (words db)))
   \/ (selects idiom type_ = true /\ In r (records (idioms db))))
  /\ (forall l, lvl = Only l -> level r = js_level l)
  /\ (forall c, cat = Only c -> category r = js_category c).

(** ** The callers of the store

    The screens that feed [addVocabularyItems] and [updateFrequencyLevels]
    and read the queries.  What the generation service answers, and
    whether the reads [handleAiCollection] awaits are served, are
    arguments of the model; a JSON file is the list of objects it
    holds. *)

(** [a || b] *)
Definition js_or (a b : jsval) : jsval := if truthy a then a else b.

(** [a ?? b] *)
Definition js_nullish (a b : jsval) : jsval :=
  match a with
  | JUndefined | JNull => b
  | _ => a
  end.

(** [{...item, type}] *)
Definition with_type (t : jsval) (item : VocabDBItem) : VocabDBItem :=
  mkItem (id item) (english item) (japanese item) (pos item) (example_en item)
         (example_jp item) (level item) (category item) t (frequencyLevel item).

(** An object without any of the fields. *)
Definition blank_item : VocabDBItem :=
  mkItem None JUndefined JUndefined JUndefined JUndefined JUndefined JUndefined
         JUndefined JUndefined JUndefined.

(** *** handleAiCollection (App.tsx) *)

Definition warn_missing_core : string := "Skipping item with missing core data:".
Definition warn_invalid_pos : string := "Skipping word with invalid or missing POS:".

(** The callback of [newItems.map]: the level and the category asked for
    fill in for missing ones, the type asked for replaces the item's, and
    an item that is not a word gets [pos: null]. *)
Definition completeItem (lvl : OrAll Level) (cat : OrAll VocabCategory)
           (type_ : OrAll VocabType) (item : VocabDBItem) : VocabDBItem :=
  let itemType := match type_ with
                  | All => type item
                  | Only t => js_type t
                  end in
  mkItem (id item) (english item) (japanese item)
         (if strict_eq itemType (JStr "word") then pos item else JNull)
         (example_en item) (example_jp item)
         (js_or (level item)
                (match lvl with Only l => js_level l | All => JUndefined end))
         (js_or (category item)
                (match cat with Only c => js_category c | All => JUndefined end))
         itemType (frequencyLevel item).

(** The callback of [.filter]: the warning an item is dropped with, if it
    is dropped. *)
Definition dropped (item : VocabDBItem) : option string :=
  if negb (truthy (english item)) || negb (truthy (japanese item))
     || negb (truthy (example_en item)) || negb (truthy (example_jp item))
     || negb (truthy (level item)) || negb (truthy (category item))
     || negb (truthy (type item))
  then Some warn_missing_core
  else if strict_eq (type item) (JStr "word")
          && (negb (truthy (pos item)) || negb (includes PARTS_OF_SPEECH (pos item)))
  then Some warn_invalid_pos
  else None.

Definition kept (item : VocabDBItem) : bool :=
  match dropped item with
  | None => true
  | Some _ => false
  end.

Definition validatedItems (lvl : OrAll Level) (cat : OrAll VocabCategory)
           (type_ : OrAll VocabType) (newItems : list VocabDBItem) : list VocabDBItem :=
  filter kept (map (completeItem lvl cat type_) newItems).

Definition drop_warnings (items : list VocabDBItem) : list Event :=
  flat_map (fun item => match dropped item with
                        | Some w => [ConsoleWarn w (Some item)]
                        | None => []
                        end) items.

(** What a call of [handleAiCollection] meets outside of its code: whether
    the reads of [getExistingWords] and of [updateWordCount] are served
    or rejected, what [generateVocabulary] answers to the list of existing
    words (an error, [null] or a list of items), and the fault plan of the
    transaction of [addVocabularyItems]. *)
Record Service : Type := mkService {
  existing_read : option DBError;
  generateVocabulary : list jsval -> DBError + option (list VocabDBItem);
  add_faults : FaultPlan;
  count_read : option DBError
}.

(** [updateWordCount]: the count of [getVocabCount], which it also puts
    into the state of the screen, or the error of the rejected read. *)
Definition updateWordCount (count_read : option DBError) (db : DB) : DBError + nat :=
  match count_read with
  | Some e => inl e
  | None => inr (getVocabCount db)
  end.

(** [handleAiCollection]; [k] counts the calls of [Math.random], which
    the shuffle of [getExistingWords] makes.  [unlockAudio] is left
    out. *)
Definition handleAiCollection (random : nat -> nat * nat) (sv : Service) (db : DB)
           (lvl : OrAll Level) (cat : OrAll VocabCategory) (type_ : OrAll VocabType)
           (k : nat) : Result nat * nat :=
  match existing_read sv with
  | Some e => (mkResult db [] (inl e), k)
  | None =>
      match getExistingWords random db lvl cat type_ 1500 k with
      | None => (mkResult db [] (inl TypeError), k)
      | Some (existingWords, k') =>
          match generateVocabulary sv existingWords with
          | inl e => (mkResult db [] (inl e), k')
          | inr None => (mkResult db [] (inr 0), k')
          | inr (Some newItems) =>
              if List.length newItems =? 0 then (mkResult db [] (inr 0), k')
              else
                let completed := map (completeItem lvl cat type_) newItems in
                let validated := filter kept completed in
                if 0 <? List.length validated then
                  let r := addVocabularyItems (add_faults sv) db (map Some validated) in
                  let log := drop_warnings completed ++ res_events r in
                  match res_value r with
                  | inl e => (mkResult (res_db r) log (inl e), k')
                  | inr addedCount =>
                      match updateWordCount (count_read sv) (res_db r) with
                      | inl e => (mkResult (res_db r) log (inl e), k')
                      | inr _ => (mkResult (res_db r) log (inr addedCount), k')
                      end
                  end
                else (mkResult db (drop_warnings completed) (inr 0), k')
          end
      end
  end.

(** *** handleAiCollectClick (HomeScreen.tsx) *)

Inductive CollectStatus : Type :=
| Finished (totalAdded : nat)
| FailedOnBatch (i : nat) (totalAdded : nat).

(** The loop [for (let i = 1; i <= batchCount; i++)] from batch [i] on,
    with [todo] batches to go; [services i] is what batch [i] meets. *)
Fixpoint collect_from (random : nat -> nat * nat) (services : nat -> Service)
         (genLevel : OrAll Level) (genCategory : OrAll VocabCategory)
         (genType : OrAll VocabType) (todo i : nat) (db : DB) (k : nat)
         (totalAdded : nat) : DB * CollectStatus :=
  match todo with
  | 0 => (db, Finished totalAdded)
  | S todo' =>
      let call := handleAiCollection random (services i) db genLevel genCategory
                                     genType k in
      match res_value (fst call) with
      | inr addedCount =>
          collect_from random services genLevel genCategory genType todo' (S i)
                       (res_db (fst call)) (snd call) (totalAdded + addedCount)
      | inl _ => (res_db (fst call), FailedOnBatch i totalAdded)
      end
  end.

Definition handleAiCollectClick (random : nat -> nat * nat) (services : nat -> Service)
           (genLevel : OrAll Level) (genCategory : OrAll VocabCategory)
           (genType : OrAll VocabType) (batchCount : nat) (db : DB) (k : nat)
  : DB * CollectStatus :=
  collect_from random services genLevel genCategory genType batchCount 1 db k 0.

(** The total a run reports, finished or not. *)
Definition reported_total (status : CollectStatus) : nat :=
  match status with
  | Finished totalAdded => totalAdded
  | FailedOnBatch _ totalAdded => totalAdded
  end.

(** *** handleFileChange (HomeScreen.tsx) *)

(** [data.vocabulary.map((item: any) => ({...item, type}))]; the spread of
    [null] is the empty object. *)
Definition vocabItems (type_ : VocabType) (vocabulary : list (option VocabDBItem))
  : list VocabDBItem :=
  map (fun item => with_type (js_type type_)
                     (match item with Some it => it | None => blank_item end))
      vocabulary.

Definition show_nat (n : nat) : string := NilZero.string_of_uint (Nat.to_uint n).

Definition error_importing (type_ : VocabType) : string :=
  ("Error importing " ++ VocabType_value type_ ++ " JSON:")%string.

(** The import of a parsed file whose [vocabulary] is an array: the call of
    [addVocabularyItems] and the text of the alert. *)
Definition handleFileChange (fault : FaultPlan) (db : DB) (type_ : VocabType)
           (vocabulary : list (option VocabDBItem)) : Result nat * string :=
  let items := vocabItems type_ vocabulary in
  let r := addVocabularyItems fault db (map Some items) in
  match res_value r with
  | inr addedCount =>
      (r, ("Imported " ++ show_nat addedCount ++ " new " ++ VocabType_value type_
           ++ "s. " ++ show_nat (List.length items - addedCount)
           ++ " duplicates were skipped.")%string)
  | inl error =>
      (mkResult (res_db r) (res_events r ++ [ConsoleError (error_importing type_) error])
                (inl error),
       ("Failed to import " ++ VocabType_value type_
        ++ " JSON. Please check the file format and console for errors.")%string)
  end.

(** *** handleExport (WordListScreen.tsx) *)

Definition warn_malformed : string :=
  "Skipping potentially malformed item during JSON export:".

Definition isValid (item : VocabDBItem) : bool :=
  is_string (english item) && truthy (english item)
  && is_string (japanese item)
  && is_string (example_en item)
  && is_string (example_jp item)
  && is_string (level item)
  && is_string (category item)
  && is_string (type item)
  && (strict_eq (type item) (JStr "word") || strict_eq (type item) (JStr "idiom")).

(** The object written for a record: the eight fields, neither [id] nor
    [frequencyLevel]. *)
Definition export_item (item : VocabDBItem) : VocabDBItem :=
  mkItem None (english item) (japanese item) (js_nullish (pos item) JNull)
         (example_en item) (example_jp item) (level item) (category item)
         (type item) JUndefined.

(** The [vocabulary] array of the file, [None] when there is nothing to
    export, and the warnings. *)
Definition handleExport (typeToExport : VocabType) (db : DB)
  : option (list VocabDBItem) * list Event :=
  let allItems := getAllVocabulary db in
  let itemsForType :=
    filter (fun item => strict_eq (type item) (js_type typeToExport)) allItems in
  let validItemsForExport := map export_item (filter isValid itemsForType) in
  let warnings :=
    flat_map (fun item => if isValid item then []
                          else [ConsoleWarn warn_malformed (Some item)])
             itemsForType in
  (if List.length validItemsForExport =? 0 then None else Some validItemsForExport,
   warnings).

(** *** handleStartAnalysis (WordListScreen.tsx) *)

Definition BATCH_SIZE : nat := 100.

(** What the analysis service is sent for a record. *)
Record Simplified : Type := mkSimplified {
  s_id : option Z;
  s_type : jsval;
  s_english : jsval
}.

Definition simplify (item : VocabDBItem) : Simplified :=
  mkSimplified (id item) (type item) (english item).

(** [itemsToAnalyze.slice(i * BATCH_SIZE, (i + 1) * BATCH_SIZE)] for [i]
    from 0 below [Math.ceil(itemsToAnalyze.length / BATCH_SIZE)] *)
Definition analysis_batches (itemsToAnalyze : list VocabDBItem)
  : list (list VocabDBItem) :=
  let totalBatches := (List.length itemsToAnalyze + BATCH_SIZE - 1) / BATCH_SIZE in
  map (fun i => js_slice itemsToAnalyze
                         (Z.of_nat i * Z.of_nat BATCH_SIZE)
                         ((Z.of_nat i + 1) * Z.of_nat BATCH_SIZE))
      (seq 0 totalBatches).

Inductive AnalysisStatus : Type :=
| NothingToDo
| AnalysisComplete (itemsProcessed : nat)
| ProcessStopped.

(** The loop over the batches: [assignFrequencyLevels] is the argument
    [assign], which answers batch [i] with a list of updates or [null]; each
    call of [updateFrequencyLevels] has its own transaction and fault
    plan. *)
Fixpoint analyse (assign : nat -> list Simplified -> option (list Update.t))
         (faults : nat -> FaultPlan) (batches : list (list VocabDBItem)) (i : nat)
         (db : DB) (itemsProcessed : nat) : DB * AnalysisStatus :=
  match batches with
  | [] => (db, AnalysisComplete itemsProcessed)
  | batch :: rest =>
      match assign i (map simplify batch) with
      | Some results =>
          let r := updateFrequencyLevels (faults i) db results in
          match res_value r with
          | inr _ =>
              analyse assign faults rest (S i) (res_db r)
                      (itemsProcessed + List.length batch)
          | inl _ => (res_db r, ProcessStopped)
          end
      | None => (db, ProcessStopped)
      end
  end.

Definition handleStartAnalysis (assign : nat -> list Simplified -> option (list Update.t))
           (faults : nat -> FaultPlan) (db : DB) : DB * AnalysisStatus :=
  let itemsToAnalyze := getItemsWithoutFrequency db in
  if List.length itemsToAnalyze =? 0 then (db, NothingToDo)
  else analyse assign faults (analysis_batches itemsToAnalyze) 0 db 0.

(** *** loadPlaylist (DriveMode.tsx) *)

Definition VOCAB_CATEGORIES : list VocabCategory :=
  [Business; Travel; DailyLife; Finance; Health].

(** [Promise.all(arr.map(f))] for queries that are served in the order
    they were started. *)
Fixpoint promise_all {A B} (f : A -> Q B) (arr : list A) : Q (list B) :=
  match arr with
  | [] => qret []
  | x :: t => y <~ f x ;; ys <~ promise_all f t ;; qret (y :: ys)
  end.

(** The playlist [loadPlaylist] sets; it stays empty when nothing is
    found. *)
Definition loadPlaylist (random : nat -> nat * nat)
           (localeCompare : string -> string -> Z) (db : DB) (currentLevel : Level)
           (category_ : OrAll VocabCategory) (vocabSelection : OrAll VocabType)
           (posFilter : OrAll PartOfSpeech) (sortOrder : SortOrder)
           (frequencyLevel_ : option Z) : Q (list VocabDBItem) :=
  items <~
    match category_ with
    | All =>
        results <~
          promise_all
            (fun cat => getAllVocabularyForLevelAndCategory random localeCompare db
                          currentLevel cat vocabSelection posFilter Random
                          frequencyLevel_)
            VOCAB_CATEGORIES ;;
        qret (List.concat results)
    | Only c =>
        getAllVocabularyForLevelAndCategory random localeCompare db currentLevel c
          vocabSelection posFilter sortOrder frequencyLevel_
    end ;;
  if List.length items =? 0 then qret []
  else
    match sortOrder with
    | Random => shuffle random items
    | Alphabetical => qret items
    end.

(** *** Vocabulary of the statements about the callers *)

(** Every stored record is one [addVocabularyItems] accepts. *)
Definition all_valid (db : DB) : Prop :=
  Forall (fun r => valid_record r = true) (records (words db))
  /\ Forall (fun r => valid_record r = true) (records (idioms db)).

(** A record up to its key and its frequency level. *)
Definition content (r : VocabDBItem) : VocabDBItem :=
  with_frequencyLevel JUndefined (without_id r).

Definition store_of (t : VocabType) : StoreName :=
  match t with
  | word => WORDS_STORE_NAME
  | idiom => IDIOMS_STORE_NAME
  end.

(** The file [handleExport] writes, empty when it writes none. *)
Definition exported (t : VocabType) (db : DB) : list VocabDBItem :=
  match fst (handleExport t db) with
  | Some vocabulary => vocabulary
  | None => []
  end.

(** The analysis service answers every batch, with an update for each of
    its items that has the id and the type of the item. *)
Definition answers_all (assign : nat -> list Simplified -> option (list Update.t))
           (batches : list (list VocabDBItem)) : Prop :=
  forall i batch,
    nth_error batches i = Some batch ->
    exists results,
      assign i (map simplify batch) = Some results
      /\ forall item, In item batch -> exists u, In u results /\ aimed_at u item.

(** A service that classifies everything as "Medium". *)
Definition all_medium (i : nat) (batch : list Simplified) : option (list Update.t) :=
  Some (map (fun s => Update.mk (match s_id s with Some k => k | None => 0%Z end)
                                (if strict_eq (s_type s) (JStr "word") then word
                                 else idiom)
                                2)
            batch).

(** Three generated items answered to a request for idioms of a level and
    a category: one complete, one without a translation, one that repeats
    the first. *)
Definition generated_sample : list VocabDBItem :=
  [mkItem None (JStr "call it a day") (JStr "kiriageru") (js_pos Verb)
          (JStr "Let us call it a day.") (JStr "kyou wa koko made ni shiyou")
          JUndefined JUndefined (JStr "word") JUndefined;
   mkItem None (JStr "cut corners") JUndefined JUndefined
          (JStr "They cut corners.") (JStr "tenuki wo shita")
          JUndefined JUndefined JUndefined JUndefined;
   mkItem None (JStr "call it a day") (JStr "owari ni suru") JUndefined
          (JStr "We called it a day.") (JStr "owari ni shita")
          JUndefined JUndefined JUndefined JUndefined].

(** A service that serves the reads and answers [newItems] whatever the
    existing words are, on a storage without faults; and the same with
    the read of [updateWordCount] rejected. *)
Definition answering (newItems : list VocabDBItem) : Service :=
  mkService None (fun _ => inr (Some newItems)) no_faults None.

Definition count_rejected (newItems : list VocabDBItem) : Service :=
  mkService None (fun _ => inr (Some newItems)) no_faults (Some (StorageFault 0)).

(** *** The quiz options (VocabularyMode.tsx) *)

(** [a.id === b.id] *)
Definition same_id (a b : VocabDBItem) : bool :=
  match id a, id b with
  | Some x, Some y => (x =? y)%Z
  | None, None => true
  | _, _ => false
  end.

(** [shuffleArray]: the loop of [shuffle] on a copy of the array *)
Definition shuffleArray {A} (random : nat -> nat * nat) (array : list A) : Q (list A) :=
  let newArray := array in
  shuffle random newArray.

(** The effect that sets up the options of a quiz question, in one of the
    two quiz modes: nothing is set ([None]) when there is no current item
    or the list has fewer than four items. *)
Definition quizOptions (random : nat -> nat * nat) (vocabList : list VocabDBItem)
           (currentIndex : nat) : Q (option (list VocabDBItem)) :=
  match nth_error vocabList currentIndex with
  | Some currentItem =>
      if 4 <=? List.length vocabList then
        let distractors := filter (fun item => negb (same_id item currentItem)) vocabList in
        shuffled <~ shuffleArray random distractors ;;
        let shuffledDistractors := js_slice shuffled 0 3 in
        options <~ shuffleArray random (currentItem :: shuffledDistractors) ;;
        qret (Some options)
      else qret None
  | None => qret None
  end.

(** Two updates of a list are never aimed at the same record. *)
Definition distinct_targets (updates : list Update.t) : Prop :=
  NoDup (map (fun u => (update_store u, Update.id u)) updates).

(** ** Opening the database: [getDb] and [upgrade] *)

Definition DB_VERSION : nat := 5.

(** What a browser holds for the application: the version of the
    database, the legacy ['vocabulary'] store of the versions before 4
    (its records in key order) when it exists, and the two stores when
    they exist. *)
Record Install : Type := mkInstall {
  version : nat;
  vocabulary : option (list VocabDBItem);
  words_store : option ObjectStore;
  idioms_store : option ObjectStore
}.

(** A browser that never ran the application. *)
Definition new_install : Install := mkInstall 0 None None None.

(** [item.type === 'word' && item.pos && PARTS_OF_SPEECH.includes(item.pos)] *)
Definition legacy_word (item : VocabDBItem) : bool :=
  strict_eq (type item) (JStr "word") && truthy (pos item)
  && includes PARTS_OF_SPEECH (pos item).

(** the [else if] of the loop: [item.type === 'idiom'] *)
Definition legacy_idiom (item : VocabDBItem) : bool :=
  negb (legacy_word item) && strict_eq (type item) (JStr "idiom").

(** One turn of the cursor loop.  The requests of the version change
    transaction are taken to be served; an [add] can still be rejected by
    a unique index.  The code catches that rejection and logs it; the
    error event of the request is not cancelled, though, and what the
    transaction does then is not part of this model: a run with a
    rejected [add] has no result here. *)
Definition migrate_item (item : VocabDBItem) : Tx unit :=
  let data := without_id item in
  if legacy_word item then store_add no_faults WORDS_STORE_NAME data
  else if strict_eq (type item) (JStr "idiom")
  then store_add no_faults IDIOMS_STORE_NAME data
  else ret tt.

(** [while (cursor) { ...; cursor = await cursor.continue() }] *)
Fixpoint migrate (legacy : list VocabDBItem) : Tx unit :=
  match legacy with
  | [] => ret tt
  | item :: rest => migrate_item item ;; migrate rest
  end.

Definition log_upgrading (oldVersion newVersion : nat) : string :=
  ("Upgrading database from version " ++ show_nat oldVersion ++ " to "
   ++ show_nat newVersion ++ "...")%string.

(** [if (oldVersion < 4) { ... }]: the stores are created when they are
    missing, the legacy store is copied over and deleted. *)
Definition upgrade_4 (inst : Install) : option (Install * list Event) :=
  let wordsStore := match words_store inst with
                    | Some st => st
                    | None => empty_store
                    end in
  let idiomsStore := match idioms_store inst with
                     | Some st => st
                     | None => empty_store
                     end in
  let log := [ConsoleLog "Applying version 4 upgrade: Separating words and idioms."] in
  match vocabulary inst with
  | Some legacy =>
      let r := migrate legacy (mkTx (mkDB wordsStore idiomsStore) 0) in
      match outcome r with
      | inr _ =>
          Some (mkInstall (version inst) None
                          (Some (words (working (post r))))
                          (Some (idioms (working (post r)))),
                log ++ [ConsoleLog "Migrating data from old 'vocabulary' store..."]
                    ++ emitted r
                    ++ [ConsoleLog "Migration complete. Old 'vocabulary' store deleted."])
      | inl _ => None
      end
  | None =>
      Some (mkInstall (version inst) None (Some wordsStore) (Some idiomsStore), log)
  end.

(** [if (oldVersion < 5) { ... }]: the index on [frequencyLevel] is added
    to both stores; [tx.objectStore] throws when the store is missing.  An
    index that is not unique does not show in the records. *)
Definition upgrade_5 (inst : Install) : option (Install * list Event) :=
  match words_store inst, idioms_store inst with
  | Some _, Some _ =>
      Some (inst, [ConsoleLog "Applying version 5 upgrade: Adding frequencyLevel index."])
  | _, _ => None
  end.

(** The [upgrade] callback; [None] when it throws. *)
Definition upgrade (oldVersion newVersion : nat) (inst : Install)
  : option (Install * list Event) :=
  let log := [ConsoleLog (log_upgrading oldVersion newVersion)] in
  match (if oldVersion <? 4 then upgrade_4 inst else Some (inst, [])) with
  | None => None
  | Some (inst4, log4) =>
      match (if oldVersion <? 5 then upgrade_5 inst4 else Some (inst4, [])) with
      | None => None
      | Some (inst5, log5) => Some (inst5, log ++ log4 ++ log5)
      end
  end.

(** [openDB(DB_NAME, DB_VERSION, { upgrade })]: the callback runs when the
    stored version is below [DB_VERSION], and the new version is recorded
    when it returns; a stored version above [DB_VERSION] is an error. *)
Definition openDB (inst : Install) : option (Install * list Event) :=
  if version inst <? DB_VERSION then
    match upgrade (version inst) DB_VERSION inst with
    | Some (inst', log) =>
        Some (mkInstall DB_VERSION (vocabulary inst') (words_store inst')
                        (idioms_store inst'), log)
    | None => None
    end
  else if DB_VERSION <? version inst then None
  else Some (inst, []).

(** The database the exported functions work on once [getDb] resolved. *)
Definition opened (inst : Install) : option DB :=
  match openDB inst with
  | Some (inst', _) =>
      match words_store inst', idioms_store inst' with
      | Some w, Some i => Some (mkDB w i)
      | _, _ => None
      end
  | None => None
  end.

(** *** Vocabulary of the statements about the migration *)

(** The records of a list under the keys [k], [k + 1], ... *)
Fixpoint number_from (k : Z) (l : list VocabDBItem) : list VocabDBItem :=
  match l with
  | [] => []
  | x :: t => with_id k x :: number_from (k + 1) t
  end.

(** No two legacy records that go to the same store have the same key in
    its unique index. *)
Definition conflict_free (legacy : list VocabDBItem) : Prop :=
  NoDup (map (unique_key WORDS_STORE_NAME) (filter legacy_word legacy))
  /\ NoDup (map (unique_key IDIOMS_STORE_NAME) (filter legacy_idiom legacy)).

(** An install of a version before 4: the legacy store and nothing
    else. *)
Definition legacy_install (v : nat) (legacy : list VocabDBItem) : Install :=
  mkInstall v (Some legacy) None None.

(** Legacy records: a word, an idiom that carries a part of speech, a
    record of another type, and a word whose part of speech is not of the
    enumeration. *)
Definition legacy_sample : list VocabDBItem :=
  [mkItem (Some 7%Z) (JStr "run") (JStr "hashiru") (js_pos Verb) JUndefined JUndefined
          (js_level Beginner) (js_category DailyLife) (JStr "word") JUndefined;
   mkItem (Some 8%Z) (JStr "run out of") (JStr "tsukiru") (js_pos Verb) JUndefined
          JUndefined (js_level Beginner) (js_category DailyLife) (JStr "idiom")
          JUndefined;
   mkItem (Some 9%Z) (JStr "run") (JStr "hashiru") (js_pos Verb) JUndefined JUndefined
          (js_level Beginner) (js_category DailyLife) (JStr "phrase") JUndefined;
   mkItem (Some 10%Z) (JStr "run") (JStr "hashiru") (JStr "verb") JUndefined JUndefined
          (js_level Beginner) (js_category DailyLife) (JStr "word") JUndefined].

(** The records of the legacy store, none when there is no such store. *)
Definition legacy_of (voc : option (list VocabDBItem)) : list VocabDBItem :=
  match voc with
  | Some legacy => legacy
  | None => []
  end.

(** What the migration makes of the legacy records that go to a store. *)
Definition migrated (keep : VocabDBItem -> bool) (legacy : list VocabDBItem)
  : ObjectStore :=
  mkStore (number_from 1 (map without_id (filter keep legacy)))
          (1 + Z.of_nat (List.length (filter keep legacy))).

(** The database [getDb] resolves to on a version 3 install that holds
    [legacy_sample], and its idiom. *)
Definition migrated_sample : DB :=
  mkDB (migrated legacy_word legacy_sample) (migrated legacy_idiom legacy_sample).

Definition migrated_idiom : VocabDBItem :=
  mkItem (Some 1%Z) (JStr "run out of") (JStr "tsukiru") (js_pos Verb) JUndefined
         JUndefined (js_level Beginner) (js_category DailyLife) (JStr "idiom")
         JUndefined.

(** * Proofs *)

Unset Implicit Arguments.

(** ** JavaScript values *)

Lemma strict_eq_iff (a b : jsval) : strict_eq a b = true <-> a = b.
Proof.
  destruct a, b; simpl; split; intros H; try discriminate; try reflexivity.
  - apply Bool.eqb_prop in H. congruence.
  - injection H as ->. apply Bool.eqb_reflx.
  - apply Z.eqb_eq in H. congruence.
  - injection H as ->. apply Z.eqb_refl.
  - apply String.eqb_eq in H. congruence.
  - injection H as ->. apply String.eqb_refl.
Qed.

Lemma strict_eq_refl (a : jsval) : strict_eq a a = true.
Proof. now apply strict_eq_iff. Qed.

Lemma strict_eq_false_iff (a b : jsval) : strict_eq a b = false <-> a <> b.
Proof.
  split.
  - intros H E. apply strict_eq_iff in E. congruence.
  - intros H. destruct (strict_eq a b) eqn:E; [|reflexivity].
    apply strict_eq_iff in E. contradiction.
Qed.

Lemma key_eq_iff (a b : list jsval) : key_eq a b = true <-> a = b.
Proof.
  unfold key_eq. revert b. induction a as [|x a IH]; intros [|y b]; simpl;
    split; intros H; try discriminate; try reflexivity.
  - apply andb_true_iff in H as [Hl H]. apply andb_true_iff in H as [Hxy H].
    apply strict_eq_iff in Hxy. subst y. f_equal. apply IH.
    now rewrite Hl, H.
  - injection H as -> ->. rewrite strict_eq_refl. simpl.
    assert (E : b = b) by reflexivity. apply IH in E. exact E.
Qed.

Lemma includes_iff (arr : list jsval) (v : jsval) :
  includes arr v = true <-> In v arr.
Proof.
  unfold includes. rewrite existsb_exists. split.
  - intros [x [Hin Heq]]. apply strict_eq_iff in Heq. now subst.
  - intros Hin. exists v. split; [assumption | apply strict_eq_refl].
Qed.

Lemma includes_parts (v : jsval) :
  includes PARTS_OF_SPEECH v = true -> exists p, v = js_pos p.
Proof.
  intros H. apply includes_iff in H. simpl in H.
  destruct H as [H|[H|[H|[H|[]]]]]; subst v;
    [exists Noun | exists Verb | exists Adjective | exists Adverb]; reflexivity.
Qed.

Lemma js_pos_included (p : PartOfSpeech) : includes PARTS_OF_SPEECH (js_pos p) = true.
Proof. destruct p; reflexivity. Qed.

Lemma includes_parts_valid (v : jsval) :
  includes PARTS_OF_SPEECH v = true -> valid_key v = true /\ truthy v = true.
Proof. intros H. apply includes_parts in H as [p ->]. destruct p; split; reflexivity. Qed.

Lemma is_string_valid (v : jsval) : is_string v = true -> valid_key v = true.
Proof. destruct v; simpl; congruence. Qed.

(** ** The transaction monad *)

Lemma bind_inr {A B} {m : Tx A} (f : A -> Tx B) {s ev a s'} :
  m s = mkStep ev (inr a) s' ->
  bind m f s = mkStep (ev ++ emitted (f a s')) (outcome (f a s')) (post (f a s')).
Proof. intros H. unfold bind. rewrite H. reflexivity. Qed.

Lemma bind_inl {A B} {m : Tx A} (f : A -> Tx B) {s ev e s'} :
  m s = mkStep ev (inl e) s' -> bind m f s = mkStep ev (inl e) s'.
Proof. intros H. unfold bind. rewrite H. reflexivity. Qed.

Lemma step_eta {A} (r : Step A) : mkStep (emitted r) (outcome r) (post r) = r.
Proof. destruct r. reflexivity. Qed.

Lemma request_ok fault ev s :
  fault (requests s) = None -> request fault ev s = mkStep [ev] (inr tt) (bump s).
Proof. intros H. unfold request. rewrite H. reflexivity. Qed.

Lemma request_rejected fault ev s e :
  fault (requests s) = Some e -> request fault ev s = mkStep [ev] (inl e) (bump s).
Proof. intros H. unfold request. rewrite H. reflexivity. Qed.

Lemma index_get_ok fault sn key s :
  fault (requests s) = None -> forallb valid_key key = true ->
  index_get fault sn key s
  = mkStep [IndexGet sn key]
           (inr (find (has_index_key sn key) (records (objectStore sn (working s)))))
           (bump s).
Proof.
  intros Hf Hk. unfold index_get.
  rewrite (bind_inr _ (request_ok _ _ _ Hf)). rewrite Hk. reflexivity.
Qed.

Lemma index_get_rejected fault sn key s e :
  fault (requests s) = Some e ->
  index_get fault sn key s = mkStep [IndexGet sn key] (inl e) (bump s).
Proof.
  intros Hf. unfold index_get. now rewrite (bind_inl _ (request_rejected _ _ _ _ Hf)).
Qed.

Lemma store_get_ok fault sn k s :
  fault (requests s) = None ->
  store_get fault sn k s
  = mkStep [StoreGet sn k]
           (inr (find (fun r => (primary_key r =? k)%Z)
                      (records (objectStore sn (working s)))))
           (bump s).
Proof.
  intros Hf. unfold store_get.
  rewrite (bind_inr _ (request_ok _ _ _ Hf)). reflexivity.
Qed.

Lemma store_get_rejected fault sn k s e :
  fault (requests s) = Some e ->
  store_get fault sn k s = mkStep [StoreGet sn k] (inl e) (bump s).
Proof.
  intros Hf. unfold store_get. now rewrite (bind_inl _ (request_rejected _ _ _ _ Hf)).
Qed.

Lemma store_add_ok fault sn v s :
  fault (requests s) = None -> id v = None ->
  violates_unique sn (keyGen (objectStore sn (working s))) v
                  (records (objectStore sn (working s))) = false ->
  store_add fault sn v s
  = mkStep [StoreAdd sn v] (inr tt)
           (mkTx (append_record sn v (working s)) (S (requests s))).
Proof.
  intros Hf Hid Hu. unfold store_add.
  rewrite (bind_inr _ (request_ok _ _ _ Hf)). simpl.
  rewrite Hid, Hu. reflexivity.
Qed.

Lemma store_add_rejected fault sn v s e :
  fault (requests s) = Some e ->
  store_add fault sn v s = mkStep [StoreAdd sn v] (inl e) (bump s).
Proof.
  intros Hf. unfold store_add. now rewrite (bind_inl _ (request_rejected _ _ _ _ Hf)).
Qed.

Lemma store_put_ok fault sn v k s :
  fault (requests s) = None -> id v = Some k ->
  violates_unique sn k v (records (objectStore sn (working s))) = false ->
  store_put fault sn v s
  = mkStep [StorePut sn v] (inr tt)
           (mkTx (upsert_record sn k v (working s)) (S (requests s))).
Proof.
  intros Hf Hid Hu. unfold store_put.
  rewrite (bind_inr _ (request_ok _ _ _ Hf)). simpl.
  rewrite Hid, Hu. reflexivity.
Qed.

Lemma store_put_rejected fault sn v s e :
  fault (requests s) = Some e ->
  store_put fault sn v s = mkStep [StorePut sn v] (inl e) (bump s).
Proof.
  intros Hf. unfold store_put. now rewrite (bind_inl _ (request_rejected _ _ _ _ Hf)).
Qed.

Lemma tx_done_ok fault s :
  fault (requests s) = None -> tx_done fault s = mkStep [TxDone] (inr tt) (bump s).
Proof. apply request_ok. Qed.

Lemma tx_done_rejected fault s e :
  fault (requests s) = Some e -> tx_done fault s = mkStep [TxDone] (inl e) (bump s).
Proof. apply request_rejected. Qed.

(** ** The checks of [add_item] *)

Lemma add_item_plan fault item n :
  add_item fault item n = run_plan fault (plan item) item n.
Proof.
  unfold add_item, plan. destruct item as [it|]; [|reflexivity].
  destruct (negb (is_string (english it)) || negb (truthy (english it))
            || negb (truthy (type it))); [reflexivity|].
  destruct (negb (truthy (japanese it)) || negb (truthy (example_en it))
            || negb (truthy (example_jp it)) || negb (truthy (level it))
            || negb (truthy (category it))); [reflexivity|].
  destruct (strict_eq (type it) (JStr "word")).
  - destruct (truthy (pos it) && includes PARTS_OF_SPEECH (pos it)); reflexivity.
  - destruct (strict_eq (type it) (JStr "idiom")); reflexivity.
Qed.

Lemma plan_probe item sn key data :
  plan item = Probe sn key data ->
  exists it,
    item = Some it
    /\ is_string (english it) = true /\ truthy (english it) = true
    /\ key = unique_key sn data
    /\ index_key sn data = Some key
    /\ id data = None
    /\ record_ok sn data
    /\ data = match sn with
              | WORDS_STORE_NAME => without_id it
              | IDIOMS_STORE_NAME => with_pos JNull (without_id it)
              end
    /\ type it = match sn with
                 | WORDS_STORE_NAME => JStr "word"
                 | IDIOMS_STORE_NAME => JStr "idiom"
                 end.
Proof.
  unfold plan. destruct item as [it|]; [|discriminate].
  destruct (negb (is_string (english it)) || negb (truthy (english it))
            || negb (truthy (type it))) eqn:Hbase; [discriminate|].
  apply orb_false_iff in Hbase as [Hbase _].
  apply orb_false_iff in Hbase as [Hstr Htr].
  apply negb_false_iff in Hstr, Htr.
  destruct (negb (truthy (japanese it)) || negb (truthy (example_en it))
            || negb (truthy (example_jp it)) || negb (truthy (level it))
            || negb (truthy (category it))); [discriminate|].
  destruct (strict_eq (type it) (JStr "word")) eqn:Hw.
  - destruct (truthy (pos it) && includes PARTS_OF_SPEECH (pos it)) eqn:Hp;
      [|discriminate].
    apply andb_true_iff in Hp as [_ Hp]. apply strict_eq_iff in Hw.
    intros H. injection H as <- <- <-. exists it.
    pose proof (includes_parts_valid _ Hp) as [Hv _].
    pose proof (is_string_valid _ Hstr) as Hv'.
    unfold index_key, unique_key, record_ok. simpl. rewrite Hv, Hv'. simpl.
    repeat split; assumption.
  - destruct (strict_eq (type it) (JStr "idiom")) eqn:Hi; [|discriminate].
    apply strict_eq_iff in Hi.
    intros H. injection H as <- <- <-. exists it.
    pose proof (is_string_valid _ Hstr) as Hv'.
    unfold index_key, unique_key, record_ok. simpl. rewrite Hv'. simpl.
    repeat split; assumption.
Qed.

Lemma index_key_valid sn r key :
  index_key sn r = Some key -> forallb valid_key key = true /\ key = unique_key sn r.
Proof.
  unfold index_key, unique_key. intros H.
  destruct (forallb valid_key (map (fun f => f r) (unique_keyPath sn))) eqn:E;
    [|discriminate].
  injection H as <-. split; [assumption | reflexivity].
Qed.

Lemma has_index_key_iff sn key r :
  has_index_key sn key r = true <-> index_key sn r = Some key.
Proof.
  unfold has_index_key. destruct (index_key sn r) as [k'|].
  - rewrite key_eq_iff. split; congruence.
  - split; discriminate.
Qed.

Lemma find_none_not_unique sn key v k l :
  index_key sn v = Some key ->
  find (has_index_key sn key) l = None ->
  violates_unique sn k v l = false.
Proof.
  intros Hik Hf. unfold violates_unique. rewrite Hik.
  apply not_true_is_false. intros H. apply existsb_exists in H as [r [Hin Hr]].
  apply andb_true_iff in Hr as [Hr _].
  pose proof (find_none _ _ Hf _ Hin) as Hn. simpl in Hn. congruence.
Qed.

(** The four ways a probe can go. *)
Section Probe.

Variable fault : FaultPlan.
Variables (sn : StoreName) (key : list jsval) (data : VocabDBItem).
Variables (item : option VocabDBItem) (n : nat) (s : TxState).
Hypothesis Hik : index_key sn data = Some key.
Hypothesis Hid : id data = None.

Let found := find (has_index_key sn key) (records (objectStore sn (working s))).

Lemma probe_rejected e :
  fault (requests s) = Some e ->
  run_plan fault (Probe sn key data) item n s
  = mkStep [IndexGet sn key] (inl e) (bump s).
Proof.
  intros Hf. simpl. now rewrite (bind_inl _ (index_get_rejected _ _ _ _ _ Hf)).
Qed.

Lemma probe_found x :
  fault (requests s) = None -> found = Some x ->
  run_plan fault (Probe sn key data) item n s
  = mkStep [IndexGet sn key] (inr n) (bump s).
Proof.
  intros Hf Hx. simpl. destruct (index_key_valid _ _ _ Hik) as [Hv _].
  rewrite (bind_inr _ (index_get_ok _ _ _ _ Hf Hv)). fold found. rewrite Hx.
  reflexivity.
Qed.

Lemma probe_add_rejected e :
  fault (requests s) = None -> found = None ->
  fault (S (requests s)) = Some e ->
  run_plan fault (Probe sn key data) item n s
  = mkStep [IndexGet sn key; StoreAdd sn data] (inl e) (bump (bump s)).
Proof.
  intros Hf Hx Hf'. simpl. destruct (index_key_valid _ _ _ Hik) as [Hv _].
  rewrite (bind_inr _ (index_get_ok _ _ _ _ Hf Hv)). fold found. rewrite Hx.
  rewrite (bind_inl _ (store_add_rejected fault sn data (bump s) e Hf')).
  reflexivity.
Qed.

Lemma probe_added :
  fault (requests s) = None -> found = None ->
  fault (S (requests s)) = None ->
  run_plan fault (Probe sn key data) item n s
  = mkStep [IndexGet sn key; StoreAdd sn data] (inr (S n))
           (mkTx (append_record sn data (working s)) (S (S (requests s)))).
Proof.
  intros Hf Hx Hf'. simpl. destruct (index_key_valid _ _ _ Hik) as [Hv _].
  rewrite (bind_inr _ (index_get_ok _ _ _ _ Hf Hv)). fold found. rewrite Hx.
  assert (Hu : violates_unique sn (keyGen (objectStore sn (working (bump s)))) data
                 (records (objectStore sn (working (bump s)))) = false).
  { apply find_none_not_unique with (key := key); assumption. }
  rewrite (bind_inr _ (store_add_ok fault sn data (bump s) Hf' Hid Hu)).
  reflexivity.
Qed.

End Probe.

Lemma add_item_step fault item n s : item_step fault n s (add_item fault item n s).
Proof.
  rewrite add_item_plan. destruct (plan item) as [w|sn key data] eqn:Hp.
  - destruct w as [w|]; simpl.
    + apply (step_skip fault n s (Some w) item).
    + apply (step_skip fault n s None item).
  - apply plan_probe in Hp as (it & _ & _ & _ & _ & Hik & Hid & Hok & _).
    destruct (fault (requests s)) as [e|] eqn:Hf.
    + rewrite (probe_rejected fault sn key data item n s e Hf). now constructor.
    + destruct (find (has_index_key sn key) (records (objectStore sn (working s))))
        as [x|] eqn:Hx.
      * rewrite (probe_found fault sn key data item n s Hik x Hf Hx).
        econstructor; eassumption.
      * destruct (fault (S (requests s))) as [e|] eqn:Hf'.
        -- rewrite (probe_add_rejected fault sn key data item n s Hik e Hf Hx Hf').
           now constructor.
        -- rewrite (probe_added fault sn key data item n s Hik Hid Hf Hx Hf').
           now constructor.
Qed.

(** ** The store invariant *)

Lemma unique_key_with_id sn k v : unique_key sn (with_id k v) = unique_key sn v.
Proof. destruct sn; reflexivity. Qed.

Lemma record_ok_with_id sn k v : record_ok sn v -> record_ok sn (with_id k v).
Proof. destruct sn; simpl; auto. Qed.

Lemma StronglySorted_app_one {A} (R : A -> A -> Prop) l a :
  StronglySorted R l -> Forall (fun x => R x a) l -> StronglySorted R (l ++ [a]).
Proof.
  induction 1 as [|x l Hs IH Hx]; intros Ha; simpl.
  - repeat constructor.
  - inversion Ha; subst. constructor.
    + now apply IH.
    + apply Forall_app. split; [assumption | now constructor].
Qed.

Lemma has_key_below_mono b b' r : (b <= b')%Z -> has_key_below b r -> has_key_below b' r.
Proof. intros Hb [k [Hk Hr]]. exists k. split; [assumption | lia]. Qed.

Lemma has_key_below_primary b r : has_key_below b r -> (0 < primary_key r < b)%Z.
Proof. intros [k [Hk Hr]]. unfold primary_key. now rewrite Hk. Qed.

Lemma empty_store_ok sn : store_ok sn empty_store.
Proof. constructor; simpl; try constructor; lia. Qed.

Lemma cleared_store_ok sn st : store_ok sn st -> store_ok sn (mkStore [] (keyGen st)).
Proof. intros H. constructor; simpl; try constructor. apply (ok_gen H). Qed.

Lemma key_not_stored sn key l :
  forallb valid_key key = true ->
  find (has_index_key sn key) l = None ->
  ~ In key (map (unique_key sn) l).
Proof.
  intros Hv Hf Hin. apply in_map_iff in Hin as [r [Hr Hin]].
  pose proof (find_none _ _ Hf _ Hin) as Hn. simpl in Hn.
  assert (has_index_key sn key r = true); [|congruence].
  apply has_index_key_iff. unfold index_key. fold (unique_key sn r).
  now rewrite Hr, Hv.
Qed.

Lemma append_store_ok sn st data key :
  store_ok sn st -> record_ok sn data -> index_key sn data = Some key ->
  find (has_index_key sn key) (records st) = None ->
  store_ok sn (mkStore (records st ++ [with_id (keyGen st) data]) (keyGen st + 1)).
Proof.
  intros [Hrec Huniq Hsort Hkeys Hgen] Hok Hik Hfind.
  destruct (index_key_valid _ _ _ Hik) as [Hv Hkey].
  constructor; simpl.
  - apply Forall_app. split; [assumption|]. constructor; [|constructor].
    now apply record_ok_with_id.
  - rewrite map_app. simpl. rewrite unique_key_with_id, <- Hkey.
    apply NoDup_app; [assumption | repeat constructor; simpl; tauto |].
    intros a Hin [<-|[]]. revert Hin. now apply key_not_stored.
  - apply StronglySorted_app_one; [assumption|].
    eapply Forall_impl; [|exact Hkeys]. intros r Hr.
    apply has_key_below_primary in Hr. unfold key_lt.
    change (primary_key (with_id (keyGen st) data)) with (keyGen st). lia.
  - apply Forall_app. split.
    + eapply Forall_impl; [|exact Hkeys]. intros r. apply has_key_below_mono. lia.
    + constructor; [|constructor]. exists (keyGen st). simpl. split; [reflexivity|lia].
  - lia.
Qed.

Lemma append_record_inv sn db data key :
  store_inv db -> record_ok sn data -> index_key sn data = Some key ->
  find (has_index_key sn key) (records (objectStore sn db)) = None ->
  store_inv (append_record sn data db).
Proof.
  intros [Hw Hi] Hok Hik Hfind. unfold append_record.
  destruct sn; simpl in *; split; simpl; try assumption;
    eapply append_store_ok; eassumption.
Qed.

Lemma item_step_inv fault n s r :
  item_step fault n s r -> store_inv (working s) -> store_inv (working (post r)).
Proof.
  intros H Hinv. destruct H; simpl; try assumption.
  eapply append_record_inv; eassumption.
Qed.

Lemma bind_post_inv {A B} (P : DB -> Prop) (m : Tx A) (f : A -> Tx B) s :
  P (working (post (m s))) ->
  (forall a, outcome (m s) = inr a -> P (working (post (f a (post (m s)))))) ->
  P (working (post (bind m f s))).
Proof.
  intros Hm Hf. unfold bind. destruct (outcome (m s)) as [e|a] eqn:E; simpl.
  - assumption.
  - now apply Hf.
Qed.

Lemma add_items_inv fault items : forall n s,
  store_inv (working s) -> store_inv (working (post (add_items fault items n s))).
Proof.
  induction items as [|item items IH]; intros n s Hinv; simpl.
  - assumption.
  - apply bind_post_inv.
    + eapply item_step_inv; [apply add_item_step | assumption].
    + intros a _. apply IH. eapply item_step_inv; [apply add_item_step | assumption].
Qed.

Lemma addVocabularyItems_inv fault db items :
  store_inv db -> store_inv (res_db (addVocabularyItems fault db items)).
Proof.
  intros Hinv. unfold addVocabularyItems. cbv zeta.
  pose proof (add_items_inv fault items 0 (mkTx db 0) Hinv) as H.
  destruct (outcome (add_items fault items 0 (mkTx db 0))) as [e|m]; simpl;
    [assumption|].
  unfold tx_done, request.
  destruct (fault (requests (post (add_items fault items 0 (mkTx db 0))))); simpl;
    assumption.
Qed.

(** ** Validation *)

Lemma valid_record_plan it :
  valid_record it = true ->
  plan (Some it) = Probe (target_store it) (snd (uniqueness_key it)) (stored_form it).
Proof.
  unfold valid_record, plan, uniqueness_key, stored_form, target_store. intros H.
  apply andb_true_iff in H as [H Hty]. apply andb_true_iff in H as [H Hcat].
  apply andb_true_iff in H as [H Hlv]. apply andb_true_iff in H as [H Hxj].
  apply andb_true_iff in H as [H Hxe]. apply andb_true_iff in H as [H Hja].
  apply andb_true_iff in H as [Hs He].
  assert (Ht : truthy (type it) = true).
  { apply orb_true_iff in Hty as [Hty|Hty].
    - apply andb_true_iff in Hty as [Hw _]. apply strict_eq_iff in Hw. now rewrite Hw.
    - apply strict_eq_iff in Hty. now rewrite Hty. }
  rewrite Hs, He, Ht, Hja, Hxe, Hxj, Hlv, Hcat. cbn [negb orb andb].
  apply orb_true_iff in Hty as [Hty|Hty].
  - apply andb_true_iff in Hty as [Hw Hp]. rewrite Hw, Hp.
    destruct (includes_parts_valid _ Hp) as [_ ->]. reflexivity.
  - assert (Hi : type it = JStr "idiom") by now apply strict_eq_iff.
    rewrite Hi. reflexivity.
Qed.

Lemma invalid_record_plan item :
  invalid_record item = true -> exists w, plan item = Skip (Some w).
Proof.
  unfold invalid_record, plan, missing. destruct item as [it|]; [|now eexists].
  intros H.
  destruct (negb (is_string (english it)) || negb (truthy (english it))
            || negb (truthy (type it))) eqn:Hbase; [now eexists|].
  destruct (negb (truthy (japanese it)) || negb (truthy (example_en it))
            || negb (truthy (example_jp it)) || negb (truthy (level it))
            || negb (truthy (category it))) eqn:Hcore; [now eexists|].
  apply orb_false_iff in Hbase as [Hbase Ht].
  apply orb_false_iff in Hbase as [Hs He].
  apply orb_false_iff in Hcore as [Hcore Hcat].
  apply orb_false_iff in Hcore as [Hcore Hlv].
  apply orb_false_iff in Hcore as [Hcore Hxj].
  apply orb_false_iff in Hcore as [Hja Hxe].
  rewrite ?Hs, ?He, ?Ht, ?Hja, ?Hxe, ?Hxj, ?Hlv, ?Hcat in H. cbn [negb orb andb] in H.
  apply andb_true_iff in H as [Hw Hp]. rewrite Hw.
  destruct (truthy (pos it)); cbn [negb orb andb] in *.
  - rewrite negb_true_iff in Hp. rewrite Hp. now eexists.
  - now eexists.
Qed.

Lemma unknown_type_plan it : unknown_type it = true -> plan (Some it) = Skip None.
Proof.
  unfold unknown_type, plan. intros H.
  apply andb_true_iff in H as [H Hi]. apply andb_true_iff in H as [H Hw].
  apply andb_true_iff in H as [H Hcat]. apply andb_true_iff in H as [H Hlv].
  apply andb_true_iff in H as [H Hxj]. apply andb_true_iff in H as [H Hxe].
  apply andb_true_iff in H as [H Hja]. apply andb_true_iff in H as [H Ht].
  apply andb_true_iff in H as [Hs He].
  rewrite Hs, He, Ht, Hja, Hxe, Hxj, Hlv, Hcat. cbn [negb orb andb].
  apply negb_true_iff in Hw, Hi. now rewrite Hw, Hi.
Qed.

Lemma stored_find sn key l :
  forallb valid_key key = true ->
  In key (map (unique_key sn) l) ->
  exists x, find (has_index_key sn key) l = Some x.
Proof.
  intros Hv Hin. destruct (find (has_index_key sn key) l) as [x|] eqn:E.
  - now exists x.
  - exfalso. revert Hin. now apply key_not_stored.
Qed.

(** ** Requests and faults *)

Lemma accounted_ret fault {A} (a : A) s : accounted fault s (ret a s).
Proof. constructor; simpl; intros; try lia; discriminate. Qed.

Lemma accounted_request fault ev s : accounted fault s (request fault ev s).
Proof.
  unfold request. destruct (fault (requests s)) as [e|] eqn:Hf;
    constructor; simpl; intros; try lia; try discriminate.
  - split; [lia|]. congruence.
  - assert (j = requests s) by lia. now subst.
Qed.

Lemma accounted_bind fault {A B} (m : Tx A) (k : A -> Tx B) s :
  accounted fault s (m s) ->
  (forall a, outcome (m s) = inr a -> accounted fault (post (m s)) (k a (post (m s)))) ->
  accounted fault s (bind m k s).
Proof.
  intros Hm Hk. unfold bind. destruct (outcome (m s)) as [e|a] eqn:E.
  - destruct Hm as [H1 H2 H3 H4]. constructor; simpl; auto.
    + intros a Ha. discriminate.
    + intros e' He'. injection He' as <-. now apply H4.
  - specialize (Hk a eq_refl). destruct Hm as [H1 H2 H3 H4].
    destruct Hk as [K1 K2 K3 K4]. constructor; simpl.
    + lia.
    + intros j Hj Hj'. destruct (Nat.lt_ge_cases j (requests (post (m s)))).
      * now apply (H3 a E).
      * now apply K2.
    + intros b Hb j Hj Hj'. destruct (Nat.lt_ge_cases j (requests (post (m s)))).
      * now apply (H3 a E).
      * now apply (K3 b Hb).
    + intros e He. destruct (K4 e He). split; [lia | assumption].
Qed.

Lemma item_step_accounted fault n s r : item_step fault n s r -> accounted fault s r.
Proof.
  intros H. destruct H; constructor; simpl; intros; try lia; try discriminate;
    try (split; [lia | congruence]);
    match goal with
    | |- fault ?j = None =>
        assert (j = requests s \/ j = S (requests s)) as [-> | ->] by lia; (assumption || lia)
    end.
Qed.

Lemma add_items_accounted fault items : forall n s,
  accounted fault s (add_items fault items n s).
Proof.
  induction items as [|item items IH]; intros n s; simpl.
  - apply accounted_ret.
  - apply accounted_bind.
    + apply (item_step_accounted fault n), add_item_step.
    + intros a _. apply IH.
Qed.

Lemma add_body_accounted fault items s : accounted fault s (add_body fault items s).
Proof.
  unfold add_body. apply accounted_bind; [apply add_items_accounted|].
  intros n _. apply accounted_bind; [apply accounted_request|].
  intros [] _. apply accounted_ret.
Qed.


Lemma bind_agree {A B} (m1 m2 : Tx A) (k1 k2 : A -> Tx B) s :
  m1 s = m2 s ->
  (forall a, outcome (m1 s) = inr a -> k1 a (post (m1 s)) = k2 a (post (m1 s))) ->
  bind m1 k1 s = bind m2 k2 s.
Proof.
  intros Hm Hk. unfold bind. rewrite <- Hm.
  destruct (outcome (m1 s)) as [e|a] eqn:E; [reflexivity|].
  now rewrite (Hk a eq_refl).
Qed.






(** ** What a run adds *)

Lemma item_step_grows fault n s r :
  item_step fault n s r ->
  exists new_w new_i,
    records (words (working (post r))) = records (words (working s)) ++ new_w
    /\ records (idioms (working (post r))) = records (idioms (working s)) ++ new_i
    /\ (forall m, outcome r = inr m -> m = n + List.length new_w + List.length new_i).
Proof.
  intros H. destruct H; simpl;
    try (exists [], []; rewrite !app_nil_r; repeat split; intros m Hm;
         try discriminate; injection Hm as <-; simpl; lia).
  destruct sn; simpl.
  - exists [with_id (keyGen (words (working s))) data], [].
    rewrite app_nil_r. repeat split. intros m Hm. injection Hm as <-. simpl. lia.
  - exists [], [with_id (keyGen (idioms (working s))) data].
    rewrite app_nil_r. repeat split. intros m Hm. injection Hm as <-. simpl. lia.
Qed.

Lemma add_items_grows fault items : forall n s,
  exists new_w new_i,
    records (words (working (post (add_items fault items n s))))
    = records (words (working s)) ++ new_w
    /\ records (idioms (working (post (add_items fault items n s))))
       = records (idioms (working s)) ++ new_i
    /\ (forall m, outcome (add_items fault items n s) = inr m ->
        m = n + List.length new_w + List.length new_i).
Proof.
  induction items as [|item items IH]; intros n s; cbn [add_items].
  - exists [], []. rewrite !app_nil_r. repeat split. simpl. intros m Hm.
    injection Hm as <-. simpl. lia.
  - destruct (item_step_grows _ _ _ _ (add_item_step fault item n s))
      as (w1 & i1 & Hw1 & Hi1 & Hc1).
    unfold bind. destruct (outcome (add_item fault item n s)) as [e|a] eqn:E; simpl.
    + exists w1, i1. repeat split; try assumption; try discriminate.
    + destruct (IH a (post (add_item fault item n s))) as (w2 & i2 & Hw2 & Hi2 & Hc2).
      exists (w1 ++ w2), (i1 ++ i2). rewrite Hw2, Hi2, Hw1, Hi1, !app_assoc.
      repeat split. intros m Hm. specialize (Hc1 a eq_refl). specialize (Hc2 m Hm).
      rewrite !length_app. lia.
Qed.

Lemma no_faults_succeed {A} (s : TxState) (r : Step A) :
  accounted no_faults s r -> exists a, outcome r = inr a.
Proof.
  intros H. destruct (outcome r) as [e|a] eqn:E; [|now exists a].
  destruct (acc_fail H E) as [_ Hf]. discriminate.
Qed.

(** The wrapper around the body: commit on success; on failure the
    database is as before and the caller gets the rethrown error. *)
Lemma addVocabularyItems_body fault db items :
  addVocabularyItems fault db items
  = let r := add_body fault items (mkTx db 0) in
    match outcome r with
    | inr n => mkResult (working (post r))
                        (TxBegin vocab_scope readwrite :: emitted r) (inr n)
    | inl e => mkResult db
                        (TxBegin vocab_scope readwrite :: emitted r
                           ++ [ConsoleError error_aborted e; TxAbort])
                        (inl (rethrown fault db items e))
    end.
Proof.
  unfold addVocabularyItems, add_body, rethrown, bind, tx_done, request. cbv zeta.
  destruct (outcome (add_items fault items 0 (mkTx db 0))) as [e|m]; simpl;
    [reflexivity|].
  destruct (fault (requests (post (add_items fault items 0 (mkTx db 0))))); simpl;
    rewrite ?app_nil_r, <- ?app_assoc; reflexivity.
Qed.

Lemma add_body_committed fault items s n :
  outcome (add_body fault items s) = inr n ->
  outcome (add_items fault items 0 s) = inr n
  /\ working (post (add_body fault items s))
     = working (post (add_items fault items 0 s))
  /\ emitted (add_body fault items s) = emitted (add_items fault items 0 s) ++ [TxDone].
Proof.
  unfold add_body, bind, tx_done, request.
  destruct (outcome (add_items fault items 0 s)) as [e|m]; simpl; [discriminate|].
  destruct (fault (requests (post (add_items fault items 0 s)))); simpl;
    [discriminate|].
  intros H. injection H as <-. repeat split.
Qed.

Lemma add_body_post_inv fault items s :
  store_inv (working s) -> store_inv (working (post (add_body fault items s))).
Proof.
  intros Hinv. pose proof (add_items_inv fault items 0 s Hinv) as H.
  unfold add_body, bind, tx_done, request.
  destruct (outcome (add_items fault items 0 s)) as [e|m]; simpl; [assumption|].
  destruct (fault (requests (post (add_items fault items 0 s)))); simpl; assumption.
Qed.

(** ** Two passes over a batch of fresh records *)

Lemma find_stored sn key l x :
  find (has_index_key sn key) l = Some x -> In key (map (unique_key sn) l).
Proof.
  intros H. apply find_some in H as [Hin Hx].
  apply has_index_key_iff in Hx. apply index_key_valid in Hx as [_ ->].
  now apply in_map.
Qed.

Lemma stored_append sn data db k :
  stored (append_record sn data db) k
  <-> stored db k \/ k = (sn, unique_key sn data).
Proof.
  destruct k as [sn' key]. unfold stored, append_record. simpl.
  destruct sn, sn'; simpl; rewrite ?map_app, ?in_app_iff; simpl;
    split; intros H;
    repeat match goal with
           | H : _ \/ _ |- _ => destruct H
           | H : False |- _ => destruct H
           | H : (_, _) = (_, _) |- _ => injection H as ?; subst
           end; subst; auto; try discriminate.
Qed.

Lemma valid_record_probe it :
  valid_record it = true ->
  let sn := target_store it in
  let key := unique_key sn it in
  plan (Some it) = Probe sn key (stored_form it)
  /\ index_key sn (stored_form it) = Some key
  /\ id (stored_form it) = None
  /\ forallb valid_key key = true
  /\ unique_key sn (stored_form it) = key.
Proof.
  intros Hv sn key. pose proof (valid_record_plan it Hv) as Hp.
  unfold uniqueness_key in Hp. cbn [snd] in Hp.
  fold sn key in Hp. split; [assumption|].
  apply plan_probe in Hp as (it' & _ & _ & _ & Hkey & Hik & Hid & _).
  destruct (index_key_valid _ _ _ Hik) as [Hval _].
  repeat split; auto.
Qed.

Lemma first_pass l : forall n s,
  Forall (fun it => valid_record it = true) l ->
  NoDup (map uniqueness_key l) ->
  (forall it, In it l -> ~ stored (working s) (uniqueness_key it)) ->
  let r := add_items no_faults (map Some l) n s in
  outcome r = inr (n + List.length l)
  /\ (forall it, In it l -> stored (working (post r)) (uniqueness_key it))
  /\ (forall k, stored (working s) k -> stored (working (post r)) k).
Proof.
  induction l as [|it l IH]; intros n s Hvalid Hnd Hfresh; simpl.
  - split; [f_equal; lia|]. split; [intros it' []|auto].
  - inversion Hvalid as [|? ? Hv Hvalid']; subst.
    inversion Hnd as [|? ? Hnotin Hnd']; subst.
    destruct (valid_record_probe it Hv) as (Hp & Hik & Hid & Hval & Hkey).
    set (sn := target_store it) in *. set (key := unique_key sn it) in *.
    assert (Hfind : find (has_index_key sn key)
                      (records (objectStore sn (working s))) = None).
    { destruct (find _ _) as [x|] eqn:E; [|reflexivity].
      exfalso. apply (Hfresh it (or_introl eq_refl)). apply find_stored in E. exact E. }
    assert (Hstep : add_item no_faults (Some it) n s
                    = mkStep [IndexGet sn key; StoreAdd sn (stored_form it)]
                        (inr (S n))
                        (mkTx (append_record sn (stored_form it) (working s))
                              (S (S (requests s))))).
    { rewrite add_item_plan, Hp. now apply probe_added. }
    rewrite (bind_inr _ Hstep). simpl.
    set (s' := mkTx (append_record sn (stored_form it) (working s)) _).
    assert (Hfresh' : forall it', In it' l -> ~ stored (working s') (uniqueness_key it')).
    { intros it' Hin Hst. apply stored_append in Hst as [Hst | Hst].
      - apply (Hfresh it' (or_intror Hin) Hst).
      - apply Hnotin. rewrite Hkey in Hst. fold (uniqueness_key it) in Hst.
        change (sn, key) with (uniqueness_key it) in Hst. rewrite <- Hst.
        now apply in_map. }
    destruct (IH (S n) s' Hvalid' Hnd' Hfresh') as (Hout & Hall & Hmono).
    repeat split.
    + rewrite Hout. f_equal. lia.
    + intros it' [<- | Hin].
      * apply Hmono. apply stored_append. right. now rewrite Hkey.
      * now apply Hall.
    + intros k Hk. apply Hmono. apply stored_append. now left.
Qed.

Lemma second_pass l : forall n s,
  Forall (fun it => valid_record it = true) l ->
  (forall it, In it l -> stored (working s) (uniqueness_key it)) ->
  let r := add_items no_faults (map Some l) n s in
  outcome r = inr n /\ working (post r) = working s.
Proof.
  induction l as [|it l IH]; intros n s Hvalid Hst; simpl.
  - split; reflexivity.
  - inversion Hvalid as [|? ? Hv Hvalid']; subst.
    destruct (valid_record_probe it Hv) as (Hp & Hik & Hid & Hval & Hkey).
    set (sn := target_store it) in *. set (key := unique_key sn it) in *.
    destruct (stored_find sn key (records (objectStore sn (working s))) Hval
                (Hst it (or_introl eq_refl))) as [x Hx].
    assert (Hstep : add_item no_faults (Some it) n s
                    = mkStep [IndexGet sn key] (inr n) (bump s)).
    { rewrite add_item_plan, Hp. now apply probe_found with (x := x). }
    rewrite (bind_inr _ Hstep). simpl.
    destruct (IH n (bump s) Hvalid') as (Hout & Hw).
    { intros it' Hin. apply Hst. now right. }
    split; assumption.
Qed.

(** ** [updateFrequencyLevels] *)

Lemma with_frequencyLevel_same r : with_frequencyLevel (frequencyLevel r) r = r.
Proof. destruct r. reflexivity. Qed.

Lemma with_frequencyLevel_twice f g r :
  with_frequencyLevel f (with_frequencyLevel g r) = with_frequencyLevel f r.
Proof. reflexivity. Qed.

Lemma refreq_db_id db : refreq_db (fun _ r => frequencyLevel r) db = db.
Proof.
  destruct db as [[w kw] [i ki]]. unfold refreq_db, refreq. simpl.
  f_equal; f_equal; rewrite <- (map_id w) at 2 || rewrite <- (map_id i) at 2;
    apply map_ext; intros r; apply with_frequencyLevel_same.
Qed.

Lemma StronglySorted_map_key (h : VocabDBItem -> VocabDBItem) l :
  (forall r, primary_key (h r) = primary_key r) ->
  StronglySorted key_lt l -> StronglySorted key_lt (map h l).
Proof.
  intros Hh. induction 1 as [|x l Hs IH Hx]; simpl; constructor; [assumption|].
  apply Forall_map. eapply Forall_impl; [|exact Hx].
  intros r Hr. unfold key_lt in *. now rewrite !Hh.
Qed.

Lemma refreq_store_ok sn g st : store_ok sn st -> store_ok sn (refreq g st).
Proof.
  intros [Hrec Huniq Hsort Hkeys Hgen]. constructor; simpl.
  - apply Forall_map. eapply Forall_impl; [|exact Hrec].
    intros r Hr. destruct sn; exact Hr.
  - rewrite map_map. erewrite map_ext; [exact Huniq|].
    intros r. destruct sn; reflexivity.
  - apply StronglySorted_map_key; [reflexivity | assumption].
  - apply Forall_map. eapply Forall_impl; [|exact Hkeys]. intros r Hr. exact Hr.
  - assumption.
Qed.

Lemma refreq_db_inv g db : store_inv db -> store_inv (refreq_db g db).
Proof. intros [Hw Hi]. split; simpl; now apply refreq_store_ok. Qed.

Lemma sorted_key_inj l x y :
  StronglySorted key_lt l -> In x l -> In y l -> primary_key x = primary_key y -> x = y.
Proof.
  induction 1 as [|a l Hs IH Ha]; intros Hx Hy Hk; [destruct Hx|].
  rewrite Forall_forall in Ha. unfold key_lt in Ha.
  destruct Hx as [<-|Hx], Hy as [<-|Hy].
  - reflexivity.
  - specialize (Ha _ Hy). lia.
  - specialize (Ha _ Hx). lia.
  - now apply IH.
Qed.

Lemma NoDup_map_inj_in {A B} (f : A -> B) l x y :
  NoDup (map f l) -> In x l -> In y l -> f x = f y -> x = y.
Proof.
  induction l as [|a l IH]; simpl; intros Hnd Hx Hy Hf; [destruct Hx|].
  inversion Hnd as [|? ? Hnotin Hnd']; subst.
  destruct Hx as [<-|Hx], Hy as [<-|Hy].
  - reflexivity.
  - exfalso. apply Hnotin. rewrite Hf. now apply in_map.
  - exfalso. apply Hnotin. rewrite <- Hf. now apply in_map.
  - now apply IH.
Qed.

(** Writing a record back under its own key replaces it in place. *)
Lemma upsert_sorted k v l :
  StronglySorted key_lt l ->
  (exists r, In r l /\ primary_key r = k) ->
  upsert k v l = map (fun r => if (primary_key r =? k)%Z then v else r) l.
Proof.
  induction 1 as [|a l Hs IH Ha]; intros [r [Hin Hr]]; [destruct Hin|].
  rewrite Forall_forall in Ha. unfold key_lt in Ha. simpl.
  destruct (Z.compare_spec (primary_key a) k) as [Heq|Hlt|Hgt].
  - rewrite (proj2 (Z.eqb_eq _ _) Heq). f_equal.
    rewrite <- (map_id l) at 1. apply map_ext_in. intros x Hx.
    specialize (Ha _ Hx). destruct (Z.eqb_spec (primary_key x) k); [lia|reflexivity].
  - destruct (Z.eqb_spec (primary_key a) k); [lia|]. f_equal.
    apply IH. destruct Hin as [<-|Hin]; [lia|]. now exists r.
  - exfalso. destruct Hin as [<-|Hin]; [lia|]. specialize (Ha _ Hin). lia.
Qed.

Lemma find_by_key_in k l x :
  find (fun r => (primary_key r =? k)%Z) l = Some x -> In x l /\ primary_key x = k.
Proof. intros H. apply find_some in H as [Hin Hk]. now apply Z.eqb_eq in Hk. Qed.

Lemma find_by_key_none k l :
  find (fun r => (primary_key r =? k)%Z) l = None ->
  forall r, In r l -> primary_key r <> k.
Proof.
  intros H r Hin Hk. pose proof (find_none _ _ H _ Hin) as Hn. simpl in Hn.
  apply Z.eqb_neq in Hn. contradiction.
Qed.

Lemma StoreName_eqb_iff a b : StoreName_eqb a b = true <-> a = b.
Proof. destruct a, b; simpl; split; congruence. Qed.

Lemma frequency_after_snoc done u sn r :
  frequency_after (done ++ [u]) sn r
  = if targets u sn r then JNum (Update.frequencyLevel u)
    else frequency_after done sn r.
Proof. unfold frequency_after. now rewrite fold_left_app. Qed.

Lemma objectStore_refreq_db sn g db :
  objectStore sn (refreq_db g db) = refreq (g sn) (objectStore sn db).
Proof. destruct sn; reflexivity. Qed.

(** One [put] of a record read at the start of the transaction, into a
    database that differs from the initial one in frequency levels only. *)
Lemma put_refreq fault db0 done u item s :
  store_inv db0 ->
  working s = refreq_db (frequency_after done) db0 ->
  find_by_id (update_store u) (Update.id u) db0 = Some item ->
  fault (requests s) = None ->
  store_put fault (update_store u)
            (with_frequencyLevel (JNum (Update.frequencyLevel u)) item) s
  = mkStep [StorePut (update_store u)
                     (with_frequencyLevel (JNum (Update.frequencyLevel u)) item)]
           (inr tt)
           (mkTx (refreq_db (frequency_after (done ++ [u])) db0) (S (requests s))).
Proof.
  intros Hinv Hw Hfind Hf.
  set (sn := update_store u) in *. set (k := Update.id u) in *.
  set (v := with_frequencyLevel (JNum (Update.frequencyLevel u)) item).
  apply find_by_key_in in Hfind as [Hin Hk].
  assert (Hok : store_ok sn (objectStore sn db0)).
  { destruct Hinv as [H1 H2]. destruct sn; assumption. }
  destruct Hok as [Hrec Huniq Hsort Hkeys Hgen].
  assert (Hid : id v = Some k).
  { rewrite Forall_forall in Hkeys. destruct (Hkeys _ Hin) as [k' [Hk' _]].
    unfold primary_key in Hk. rewrite Hk' in Hk. subst k'. exact Hk'. }
  assert (Hbelow : (k < keyGen (objectStore sn db0))%Z).
  { rewrite Forall_forall in Hkeys. specialize (Hkeys _ Hin).
    apply has_key_below_primary in Hkeys. lia. }
  assert (Hu : violates_unique sn k v (records (objectStore sn (working s))) = false).
  { unfold violates_unique. destruct (index_key sn v) as [ik|] eqn:Hik; [|reflexivity].
    apply not_true_is_false. intros H. apply existsb_exists in H as [r' [Hr' Hc]].
    apply andb_true_iff in Hc as [Hc Hne].
    rewrite Hw, objectStore_refreq_db in Hr'. simpl in Hr'.
    apply in_map_iff in Hr' as [r [<- Hr]].
    apply has_index_key_iff in Hc. apply index_key_valid in Hc as [_ Hc].
    apply index_key_valid in Hik as [_ Hik].
    assert (r = item).
    { apply (NoDup_map_inj_in (unique_key sn) _ _ _ Huniq Hr Hin).
      transitivity ik; [|symmetry];
        [rewrite Hc | rewrite Hik]; destruct sn; reflexivity. }
    subst r. apply negb_true_iff, Z.eqb_neq in Hne. apply Hne. exact Hk. }
  rewrite (store_put_ok fault sn v k s Hf Hid Hu). f_equal. f_equal.
  unfold upsert_record. rewrite Hw, objectStore_refreq_db. simpl.
  rewrite Z.max_l by lia.
  rewrite upsert_sorted.
  2:{ apply StronglySorted_map_key; [reflexivity | assumption]. }
  2:{ exists (with_frequencyLevel (frequency_after done sn item) item).
      split; [|exact Hk]. apply in_map_iff. exists item. now split. }
  rewrite map_map.
  assert (Hmap : map (fun x => if (primary_key (with_frequencyLevel
                                      (frequency_after done sn x) x) =? k)%Z
                               then v
                               else with_frequencyLevel (frequency_after done sn x) x)
                     (records (objectStore sn db0))
                 = map (fun r => with_frequencyLevel
                                   (frequency_after (done ++ [u]) sn r) r)
                       (records (objectStore sn db0))).
  { apply map_ext_in. intros r Hr. rewrite frequency_after_snoc.
    unfold targets. fold sn k.
    assert (Hsn : StoreName_eqb sn sn = true) by now apply StoreName_eqb_iff.
    rewrite Hsn. simpl.
    change (primary_key (with_frequencyLevel (frequency_after done sn r) r))
      with (primary_key r).
    destruct (Z.eqb_spec (primary_key r) k) as [Hrk|Hrk]; [|reflexivity].
    assert (r = item) by (apply (sorted_key_inj _ _ _ Hsort Hr Hin); congruence).
    subst r. reflexivity. }
  rewrite Hmap.
  assert (Hother : forall sn', sn' <> sn ->
            refreq (frequency_after (done ++ [u]) sn') (objectStore sn' db0)
            = refreq (frequency_after done sn') (objectStore sn' db0)).
  { intros sn' Hne. unfold refreq. f_equal. apply map_ext. intros r.
    rewrite frequency_after_snoc. unfold targets. fold sn.
    destruct (StoreName_eqb sn sn') eqn:E; [|reflexivity].
    apply StoreName_eqb_iff in E. congruence. }
  unfold refreq_db. destruct sn eqn:Esn; simpl; f_equal.
  - symmetry. apply (Hother IDIOMS_STORE_NAME). discriminate.
  - symmetry. apply (Hother WORDS_STORE_NAME). discriminate.
Qed.

Lemma fetch_all_spec fault updates : forall s,
  let r := fetch_all fault updates s in
  working (post r) = working s
  /\ (forall items, outcome r = inr items ->
        items = map (fun u => find_by_id (update_store u) (Update.id u) (working s))
                    updates)
  /\ (forall e, outcome r = inl e -> exists j, fault j = Some e).
Proof.
  induction updates as [|u updates IH]; intros s; cbn [fetch_all].
  - simpl. repeat split.
    + intros items H. now injection H as <-.
    + discriminate.
  - destruct (fault (requests s)) as [e|] eqn:Hf.
    + rewrite (bind_inl _ (store_get_rejected fault _ _ s e Hf)). simpl.
      repeat split; [discriminate|].
      intros e' H. injection H as <-. now exists (requests s).
    + rewrite (bind_inr _ (store_get_ok fault _ _ s Hf)). simpl.
      destruct (IH (bump s)) as (Hw & Hok & Hfail). simpl in Hw, Hok.
      unfold bind.
      destruct (outcome (fetch_all fault updates (bump s))) as [e|items] eqn:E; simpl.
      * repeat split; [assumption | discriminate | exact Hfail].
      * repeat split; [assumption | | discriminate].
        intros items' H. injection H as <-. unfold find_by_id at 1.
        f_equal. now apply Hok.
Qed.

Lemma refreq_db_ext g g' db :
  (forall sn r, In r (records (objectStore sn db)) -> g sn r = g' sn r) ->
  refreq_db g db = refreq_db g' db.
Proof.
  intros H. unfold refreq_db, refreq. f_equal; f_equal; apply map_ext_in; intros r Hr.
  - now rewrite (H WORDS_STORE_NAME r Hr).
  - now rewrite (H IDIOMS_STORE_NAME r Hr).
Qed.

Lemma write_back_spec fault db0 updates :
  store_inv db0 ->
  forall done s,
    working s = refreq_db (frequency_after done) db0 ->
    let work := combine updates
                  (map (fun u => find_by_id (update_store u) (Update.id u) db0)
                       updates) in
    let r := write_back fault work s in
    exists done',
      working (post r) = refreq_db (frequency_after done') db0
      /\ (outcome r = inr tt -> done' = done ++ updates)
      /\ (forall e, outcome r = inl e -> exists j, fault j = Some e).
Proof.
  intros Hinv. induction updates as [|u updates IH]; intros done s Hw; simpl.
  - exists done. rewrite app_nil_r. repeat split; [assumption | discriminate].
  - destruct (find_by_id (update_store u) (Update.id u) db0) as [item|] eqn:Hfind.
    + destruct (fault (requests s)) as [e|] eqn:Hf.
      * rewrite (bind_inl _ (store_put_rejected fault _ _ s e Hf)). simpl.
        exists done. repeat split; [assumption | discriminate |].
        intros e' H. injection H as <-. now exists (requests s).
      * rewrite (bind_inr _ (put_refreq fault db0 done u item s Hinv Hw Hfind Hf)).
        simpl.
        destruct (IH (done ++ [u])
                     (mkTx (refreq_db (frequency_after (done ++ [u])) db0)
                           (S (requests s))) eq_refl)
          as (done' & Hw' & Hok & Hfail).
        exists done'. repeat split; [assumption | | assumption].
        intros H. rewrite (Hok H), <- app_assoc. reflexivity.
    + assert (Hw' : working s = refreq_db (frequency_after (done ++ [u])) db0).
      { rewrite Hw. apply refreq_db_ext. intros sn r Hr.
        rewrite frequency_after_snoc. unfold targets.
        destruct (StoreName_eqb (update_store u) sn) eqn:E; [|reflexivity].
        apply StoreName_eqb_iff in E. subst sn.
        pose proof (find_by_key_none _ _ Hfind r Hr) as Hne.
        apply Z.eqb_neq in Hne. now rewrite Hne. }
      destruct (IH (done ++ [u]) s Hw') as (done' & Hw'' & Hok & Hfail).
      exists done'. repeat split; [assumption | | assumption].
      intros H. rewrite (Hok H), <- app_assoc. reflexivity.
Qed.

Lemma update_body_spec fault db updates :
  store_inv db ->
  let r := update_body fault updates (mkTx db 0) in
  (outcome r = inr tt -> working (post r) = refreq_db (frequency_after updates) db)
  /\ (forall e, outcome r = inl e -> exists j, fault j = Some e).
Proof.
  intros Hinv. unfold update_body.
  destruct (fetch_all_spec fault updates (mkTx db 0)) as (Hw & Hitems & Hfail).
  simpl in Hw, Hitems, Hfail. unfold bind.
  destruct (outcome (fetch_all fault updates (mkTx db 0))) as [e|items] eqn:E;
    cbn [outcome post emitted].
  - split; [discriminate|]. intros e' H. injection H as <-. now apply Hfail.
  - rewrite (Hitems items eq_refl).
    set (s1 := post (fetch_all fault updates (mkTx db 0))) in *.
    assert (Hw1 : working s1 = refreq_db (frequency_after []) db).
    { rewrite Hw. symmetry. apply refreq_db_id. }
    destruct (write_back_spec fault db updates Hinv [] s1 Hw1)
      as (done' & Hw' & Hok & Hfail').
    cbv zeta in Hw', Hok, Hfail'.
    set (r2 := write_back fault
                 (combine updates
                    (map (fun u => find_by_id (update_store u) (Update.id u) db)
                         updates)) s1) in *.
    destruct (outcome r2) as [e|[]] eqn:E2; cbn [outcome post emitted].
    + split; [discriminate|]. intros e' H. injection H as <-. now apply Hfail'.
    + unfold tx_done, request.
      destruct (fault (requests (post r2))) as [e|] eqn:Hf; cbn [outcome post working].
      * split; [discriminate|]. intros e' H. injection H as <-.
        now exists (requests (post r2)).
      * split; [|discriminate]. intros _. rewrite Hw', (Hok eq_refl). reflexivity.
Qed.

Lemma updateFrequencyLevels_spec fault db updates :
  store_inv db ->
  let r := updateFrequencyLevels fault db updates in
  store_inv (res_db r)
  /\ (forall e, res_value r = inl e -> res_db r = db /\ exists j, fault j = Some e)
  /\ (res_value r = inr tt -> res_db r = refreq_db (frequency_after updates) db).
Proof.
  intros Hinv. destruct (update_body_spec fault db updates Hinv) as (Hok & Hfail).
  unfold updateFrequencyLevels. cbv zeta in *.
  destruct (outcome (update_body fault updates (mkTx db 0))) as [e|[]] eqn:E;
    cbn [res_db res_value].
  - split; [assumption|]. split; [|discriminate].
    intros e' H. injection H as <-. split; [reflexivity | now apply Hfail].
  - rewrite (Hok eq_refl). split; [now apply refreq_db_inv|].
    split; [discriminate | reflexivity].
Qed.

Lemma updateFrequencyLevels_no_faults db updates :
  store_inv db ->
  res_value (updateFrequencyLevels no_faults db updates) = inr tt
  /\ res_db (updateFrequencyLevels no_faults db updates)
     = refreq_db (frequency_after updates) db.
Proof.
  intros Hinv.
  destruct (updateFrequencyLevels_spec no_faults db updates Hinv) as (_ & Hfail & Hok).
  destruct (res_value (updateFrequencyLevels no_faults db updates)) as [e|[]] eqn:E.
  - destruct (Hfail e eq_refl) as [_ [j Hj]]. discriminate.
  - split; [reflexivity | now apply Hok].
Qed.

(** ** Reachable states *)

Lemma db_clear_inv fault sn db : store_inv db -> store_inv (res_db (db_clear fault sn db)).
Proof.
  intros Hinv. unfold db_clear, store_clear, tx_done, bind, request, get_working,
    set_working. simpl.
  destruct (fault 0); simpl; [assumption|].
  destruct (fault 1); simpl; [assumption|].
  destruct Hinv as [Hw Hi]. destruct sn; split; simpl; try assumption;
    now apply cleared_store_ok.
Qed.

Lemma clearDatabase_inv fault1 fault2 db :
  store_inv db -> store_inv (res_db (clearDatabase fault1 fault2 db)).
Proof.
  intros Hinv. unfold clearDatabase.
  pose proof (db_clear_inv fault1 WORDS_STORE_NAME db Hinv) as H1.
  destruct (res_value (db_clear fault1 WORDS_STORE_NAME db)); [assumption|].
  pose proof (db_clear_inv fault2 IDIOMS_STORE_NAME _ H1) as H2.
  destruct (res_value (db_clear fault2 IDIOMS_STORE_NAME _)); assumption.
Qed.

Lemma empty_db_inv : store_inv empty_db.
Proof. split; apply empty_store_ok. Qed.

Lemma reachable_inv db : reachable db -> store_inv db.
Proof.
  induction 1.
  - apply empty_db_inv.
  - now apply addVocabularyItems_inv.
  - now apply updateFrequencyLevels_spec.
  - now apply clearDatabase_inv.
Qed.

(** ** The query monad *)

Lemma qbind_some {A B} (m : Q A) (f : A -> Q B) k a k' :
  m k = Some (a, k') -> qbind m f k = f a k'.
Proof. intros H. unfold qbind. now rewrite H. Qed.

Lemma array_filter_pure {A} (p : A -> Q bool) (b : A -> bool) l :
  (forall x k, In x l -> p x k = Some (b x, k)) ->
  forall k, array_filter p l k = Some (filter b l, k).
Proof.
  induction l as [|x l IH]; intros H k; simpl; [reflexivity|].
  rewrite (qbind_some _ _ _ _ _ (H x k (or_introl eq_refl))).
  rewrite (qbind_some _ _ _ _ _ (IH (fun y k' Hy => H y k' (or_intror Hy)) k)).
  unfold qret. now destruct (b x).
Qed.

Lemma insert_sorted_pure {A} (cmp : A -> A -> Q Z) (c : A -> A -> Z) x :
  (forall y k, cmp x y k = Some (c x y, k)) ->
  forall l k, insert_sorted cmp x l k = Some (insert_pure c x l, k).
Proof.
  intros H. induction l as [|y l IH]; intros k; simpl; [reflexivity|].
  rewrite (qbind_some _ _ _ _ _ (H y k)).
  destruct (c x y <=? 0)%Z; [reflexivity|].
  now rewrite (qbind_some _ _ _ _ _ (IH k)).
Qed.

Lemma array_sort_pure {A} (cmp : A -> A -> Q Z) (c : A -> A -> Z) l :
  (forall x y k, In x l -> cmp x y k = Some (c x y, k)) ->
  forall k, array_sort cmp l k = Some (sort_pure c l, k).
Proof.
  induction l as [|x l IH]; intros H k; simpl; [reflexivity|].
  rewrite (qbind_some _ _ _ _ _ (IH (fun a b k' Ha => H a b k' (or_intror Ha)) k)).
  apply insert_sorted_pure. intros y k'. apply H. now left.
Qed.

(** ** Sorting *)

Lemma insert_pure_perm {A} (c : A -> A -> Z) x l : Permutation (insert_pure c x l) (x :: l).
Proof.
  induction l as [|y l IH]; simpl; [reflexivity|].
  destruct (c x y <=? 0)%Z; [reflexivity|].
  rewrite IH. apply perm_swap.
Qed.

Lemma sort_pure_perm {A} (c : A -> A -> Z) l : Permutation (sort_pure c l) l.
Proof.
  induction l as [|x l IH]; simpl; [reflexivity|].
  rewrite insert_pure_perm. now constructor.
Qed.

Lemma insert_pure_sorted {A} (c : A -> A -> Z) x l :
  consistent c ->
  StronglySorted (fun a b => (c a b <= 0)%Z) l ->
  StronglySorted (fun a b => (c a b <= 0)%Z) (insert_pure c x l).
Proof.
  intros [Htot Htrans]. induction 1 as [|y l Hs IH Hy]; simpl.
  - repeat constructor.
  - destruct (Z.leb_spec (c x y) 0) as [Hle|Hgt].
    + constructor; [now constructor|]. constructor; [assumption|].
      eapply Forall_impl; [|exact Hy]. intros z Hz. now apply (Htrans x y z).
    + constructor; [assumption|].
      apply (Permutation_Forall (x := x :: l)).
      * symmetry. apply insert_pure_perm.
      * constructor; [|assumption]. destruct (Htot x y); [lia | assumption].
Qed.

Lemma sort_pure_sorted {A} (c : A -> A -> Z) l :
  consistent c -> StronglySorted (fun a b => (c a b <= 0)%Z) (sort_pure c l).
Proof.
  intros Hc. induction l as [|x l IH]; simpl; [constructor|].
  now apply insert_pure_sorted.
Qed.

(** ** Slices and pages *)

Lemma firstn_min_length {A} n (l : list A) :
  firstn (Nat.min n (List.length l)) l = firstn n l.
Proof.
  destruct (Nat.le_ge_cases n (List.length l)) as [H|H].
  - now rewrite Nat.min_l.
  - rewrite Nat.min_r by assumption. now rewrite firstn_all, firstn_all2.
Qed.

Lemma js_slice_page {A} (l : list A) (page itemsPerPage : Z) :
  (1 <= page)%Z -> (0 < itemsPerPage)%Z ->
  let start := ((page - 1) * itemsPerPage)%Z in
  js_slice l start (start + itemsPerPage)
  = firstn (Z.to_nat itemsPerPage) (skipn (Z.to_nat start) l).
Proof.
  intros Hp Hs start. unfold js_slice.
  assert (Hstart : (0 <= start)%Z) by (unfold start; nia).
  destruct (Z.ltb_spec start 0); [lia|].
  destruct (Z.ltb_spec (start + itemsPerPage) 0); [lia|].
  set (len := List.length l).
  destruct (Z.le_gt_cases (Z.of_nat len) start) as [Hge|Hlt].
  - rewrite (Z.min_r start) by lia. rewrite (Z.min_r (start + itemsPerPage)) by lia.
    rewrite Nat2Z.id. rewrite (skipn_all2 (n := len)) by (unfold len; lia).
    rewrite (skipn_all2 (n := Z.to_nat start)) by (fold len; lia).
    now rewrite !firstn_nil.
  - rewrite (Z.min_l start) by lia.
    rewrite <- (firstn_min_length (Z.to_nat itemsPerPage)).
    rewrite length_skipn. fold len. f_equal. lia.
Qed.

Lemma firstn_add {A} a b (l : list A) :
  firstn (a + b) l = firstn a l ++ firstn b (skipn a l).
Proof.
  revert l. induction a as [|a IH]; intros l; simpl; [reflexivity|].
  destruct l as [|x l]; simpl; [now rewrite firstn_nil | now rewrite IH].
Qed.

Lemma pages_concat {A} (l : list A) (size : nat) : forall n,
  List.concat (map (fun p => firstn size (skipn ((p - 1) * size) l)) (seq 1 n))
  = firstn (n * size) l.
Proof.
  induction n as [|n IH]; [reflexivity|].
  rewrite seq_S, map_app, concat_app, IH. cbn [map List.concat].
  rewrite app_nil_r. replace (1 + n - 1) with n by lia.
  rewrite <- firstn_add. f_equal. lia.
Qed.

Lemma pages_needed_cover total itemsPerPage :
  (0 < itemsPerPage)%Z ->
  total <= pages_needed total itemsPerPage * Z.to_nat itemsPerPage.
Proof.
  intros H. unfold pages_needed. set (s := Z.to_nat itemsPerPage).
  assert (Hs : 0 < s) by (unfold s; lia).
  pose proof (Nat.div_mod (total + s - 1) s ltac:(lia)) as Hd.
  pose proof (Nat.mod_upper_bound (total + s - 1) s ltac:(lia)) as Hm.
  nia.
Qed.

(** ** [getPaginatedVocabulary] *)

Lemma matches_pure toLowerCase filters item k :
  text_ok filters item ->
  matches toLowerCase filters item k = Some (passes toLowerCase filters item, k).
Proof.
  intros [He Hj]. unfold matches, passes.
  destruct (truthy (js_opt js_level (Filters.level filters))
            && negb (strict_eq (level item) (js_opt js_level (Filters.level filters))));
    [reflexivity|].
  destruct (truthy (js_opt js_category (Filters.category filters))
            && negb (strict_eq (category item)
                               (js_opt js_category (Filters.category filters))));
    [reflexivity|].
  destruct (truthy (js_opt js_type (Filters.type filters))
            && negb (strict_eq (type item) (js_opt js_type (Filters.type filters))));
    [reflexivity|].
  destruct (truthy (js_opt JNum (Filters.frequencyLevel filters))
            && negb (strict_eq (frequencyLevel item)
                               (js_opt JNum (Filters.frequencyLevel filters))));
    [reflexivity|].
  cbn [negb andb].
  unfold searches in He, Hj.
  destruct (Filters.search filters) as [s|]; [|reflexivity].
  specialize (He eq_refl). specialize (Hj eq_refl).
  destruct (english item) as [| | | |e]; try discriminate.
  destruct (japanese item) as [| | | |j]; try discriminate.
  destruct (truthy (js_opt JStr (option_map toLowerCase (Some s)))); [|reflexivity].
  unfold js_toLowerCase, qbind, qret. cbn [to_string andb].
  destruct (str_includes (toLowerCase e) _); cbn [negb andb]; [reflexivity|].
  destruct (str_includes (toLowerCase j) _); reflexivity.
Qed.

Lemma matching_text toLowerCase db filters :
  queryable db filters -> Forall (text_ok filters) (matching toLowerCase db filters).
Proof.
  intros [Hw Hi]. unfold matching. apply Forall_app. split.
  - destruct (negb _); [|constructor]. apply Forall_forall. intros r Hr.
    apply filter_In in Hr as [Hr _]. rewrite Forall_forall in Hw. now apply Hw.
  - destruct (negb _); [|constructor]. apply Forall_forall. intros r Hr.
    apply filter_In in Hr as [Hr _]. rewrite Forall_forall in Hi. now apply Hi.
Qed.

Lemma by_english_pure localeCompare a b k :
  is_string (english a) = true ->
  by_english localeCompare a b k
  = Some (localeCompare (to_string (english a)) (to_string (english b)), k).
Proof.
  intros He. unfold by_english.
  destruct (english a); try discriminate. reflexivity.
Qed.

Lemma getPaginatedVocabulary_eval localeCompare toLowerCase db page itemsPerPage filters k :
  queryable db filters ->
  let sorted := sorted_matching localeCompare toLowerCase db filters in
  let start := ((page - 1) * itemsPerPage)%Z in
  getPaginatedVocabulary localeCompare toLowerCase db page itemsPerPage filters k
  = Some (mkPage (js_slice sorted start (start + itemsPerPage))
                 (List.length sorted), k).
Proof.
  intros Ht sorted start. pose proof Ht as [Hw Hi].
  pose proof (matching_text toLowerCase db filters Ht) as Hm.
  rewrite Forall_forall in Hw, Hi, Hm.
  unfold getPaginatedVocabulary.
  assert (Hws : (if negb (strict_eq (js_opt js_type (Filters.type filters)) (JStr "idiom"))
                 then array_filter (matches toLowerCase filters) (records (words db))
                 else qret []) k
                = Some ((if negb (strict_eq (js_opt js_type (Filters.type filters))
                                            (JStr "idiom"))
                         then filter (passes toLowerCase filters) (records (words db))
                         else []), k)).
  { destruct (negb (strict_eq (js_opt js_type (Filters.type filters)) (JStr "idiom")));
      [|reflexivity].
    apply array_filter_pure. intros x k' Hx. apply matches_pure. now apply Hw. }
  rewrite (qbind_some _ _ _ _ _ Hws).
  assert (His : (if negb (strict_eq (js_opt js_type (Filters.type filters)) (JStr "word"))
                 then array_filter (matches toLowerCase filters) (records (idioms db))
                 else qret []) k
                = Some ((if negb (strict_eq (js_opt js_type (Filters.type filters))
                                            (JStr "word"))
                         then filter (passes toLowerCase filters) (records (idioms db))
                         else []), k)).
  { destruct (negb (strict_eq (js_opt js_type (Filters.type filters)) (JStr "word")));
      [|reflexivity].
    apply array_filter_pure. intros x k' Hx. apply matches_pure. now apply Hi. }
  rewrite (qbind_some _ _ _ _ _ His).
  fold (matching toLowerCase db filters).
  assert (Hsort : match Filters.sortOrder filters with
                  | Some Filters.alphabetical =>
                      array_sort (by_english localeCompare) (matching toLowerCase db filters)
                  | _ => array_sort by_id (matching toLowerCase db filters)
                  end k = Some (sorted, k)).
  { unfold sorted, sorted_matching, page_order.
    destruct (Filters.sortOrder filters) as [[|]|] eqn:Eo.
    - now apply array_sort_pure.
    - apply array_sort_pure. intros x y k' Hx. apply by_english_pure.
      apply (proj1 (Hm x Hx)). unfold by_name. rewrite Eo. apply orb_true_r.
    - now apply array_sort_pure. }
  rewrite (qbind_some _ _ _ _ _ Hsort). reflexivity.
Qed.

Lemma page_items_eval localeCompare toLowerCase db (p : nat) itemsPerPage filters k :
  queryable db filters -> 1 <= p -> (0 < itemsPerPage)%Z ->
  page_items (getPaginatedVocabulary localeCompare toLowerCase db (Z.of_nat p)
                itemsPerPage filters k)
  = firstn (Z.to_nat itemsPerPage)
           (skipn ((p - 1) * Z.to_nat itemsPerPage)
                  (sorted_matching localeCompare toLowerCase db filters)).
Proof.
  intros Ht Hp Hs. rewrite getPaginatedVocabulary_eval by assumption. simpl.
  rewrite js_slice_page by lia. f_equal. f_equal.
  rewrite Z2Nat.inj_mul by lia. f_equal. lia.
Qed.

Lemma sorted_matching_perm localeCompare toLowerCase db filters :
  Permutation (sorted_matching localeCompare toLowerCase db filters)
              (matching toLowerCase db filters).
Proof. apply sort_pure_perm. Qed.

Lemma pages_cover localeCompare toLowerCase db itemsPerPage filters :
  queryable db filters -> (0 < itemsPerPage)%Z ->
  List.concat
    (map (fun p => page_items (getPaginatedVocabulary localeCompare toLowerCase db
                                 (Z.of_nat p) itemsPerPage filters 0))
         (seq 1 (pages_needed (List.length (matching toLowerCase db filters))
                              itemsPerPage)))
  = sorted_matching localeCompare toLowerCase db filters.
Proof.
  intros Ht Hs.
  set (sorted := sorted_matching localeCompare toLowerCase db filters).
  set (n := pages_needed _ _).
  rewrite (map_ext_in _ (fun p => firstn (Z.to_nat itemsPerPage)
                                    (skipn ((p - 1) * Z.to_nat itemsPerPage) sorted))).
  - rewrite pages_concat. apply firstn_all2.
    unfold sorted. rewrite (Permutation_length (sorted_matching_perm _ _ _ _)).
    now apply pages_needed_cover.
  - intros p Hp. apply in_seq in Hp. apply page_items_eval; [assumption | lia | assumption].
Qed.

Lemma sorted_NoDup l : StronglySorted key_lt l -> NoDup l.
Proof.
  induction 1 as [|a l Hs IH Ha]; constructor; [|assumption].
  intros Hin. rewrite Forall_forall in Ha. specialize (Ha a Hin).
  unfold key_lt in Ha. lia.
Qed.

Lemma NoDup_filter {A} (p : A -> bool) l : NoDup l -> NoDup (filter p l).
Proof.
  induction 1 as [|a l Hn Hnd IH]; simpl; [constructor|].
  destruct (p a); [|assumption]. constructor; [|assumption].
  intros Hin. apply filter_In in Hin as [Hin _]. contradiction.
Qed.

Lemma stores_disjoint db r :
  store_inv db -> In r (records (words db)) -> In r (records (idioms db)) -> False.
Proof.
  intros [Hw Hi] H1 H2.
  pose proof (ok_records Hw) as Rw. pose proof (ok_records Hi) as Ri.
  rewrite Forall_forall in Rw, Ri.
  destruct (Rw r H1) as (_ & _ & Tw). destruct (Ri r H2) as (_ & _ & Ti).
  rewrite Tw in Ti. discriminate.
Qed.

Lemma reachable_kept_by_type db : reachable db -> kept_by_type db.
Proof.
  intros Hreach. destruct (reachable_inv db Hreach) as [Hw Hi].
  repeat split; try apply (ok_sorted Hw); try apply (ok_sorted Hi).
  - eapply Forall_impl; [|apply (ok_records Hw)]. now intros r (_ & _ & H).
  - eapply Forall_impl; [|apply (ok_records Hi)]. now intros r (_ & _ & H).
Qed.

Lemma number_from_sorted l : forall k,
  StronglySorted key_lt (number_from k l)
  /\ Forall (fun r => (k <= primary_key r)%Z) (number_from k l).
Proof.
  induction l as [|x l IH]; intros k; cbn [number_from]; [split; constructor|].
  destruct (IH (k + 1)%Z) as [Hs Hk]. split.
  - constructor; [exact Hs|]. eapply Forall_impl; [|exact Hk].
    intros r Hr. cbn beta in Hr. unfold key_lt.
    change (primary_key (with_id k x)) with k. lia.
  - constructor; [change (primary_key (with_id k x)) with k; lia|].
    eapply Forall_impl; [|exact Hk].
    intros r Hr. cbn beta in Hr. lia.
Qed.

Lemma number_from_type (t : jsval) l :
  Forall (fun r => type r = t) l ->
  forall k, Forall (fun r => type r = t) (number_from k (map without_id l)).
Proof.
  induction 1 as [|x l Hx Hl IH]; intros k; cbn [map number_from]; constructor.
  - exact Hx.
  - apply IH.
Qed.

(** The stores the migration makes keep the records apart by type as
    well. *)
Lemma migrated_kept_by_type legacy :
  kept_by_type (mkDB (migrated legacy_word legacy) (migrated legacy_idiom legacy)).
Proof.
  repeat split; cbn [words idioms migrated records].
  - apply number_from_type. apply Forall_forall. intros r Hr.
    apply filter_In in Hr as [_ Hr]. unfold legacy_word in Hr.
    apply andb_true_iff in Hr as [Hr _]. apply andb_true_iff in Hr as [Hr _].
    now apply strict_eq_iff in Hr.
  - apply number_from_type. apply Forall_forall. intros r Hr.
    apply filter_In in Hr as [_ Hr]. unfold legacy_idiom in Hr.
    apply andb_true_iff in Hr as [_ Hr]. now apply strict_eq_iff in Hr.
  - apply number_from_sorted.
  - apply number_from_sorted.
Qed.

Lemma matching_NoDup toLowerCase db filters :
  kept_by_type db -> NoDup (matching toLowerCase db filters).
Proof.
  intros (Tw & Ti & Sw & Si). unfold matching.
  apply NoDup_app.
  - destruct (negb _); [|constructor]. now apply NoDup_filter, sorted_NoDup.
  - destruct (negb (strict_eq _ (JStr "word"))); [|constructor].
    now apply NoDup_filter, sorted_NoDup.
  - intros r H1 H2.
    destruct (negb (strict_eq _ (JStr "idiom"))); [|destruct H1].
    destruct (negb (strict_eq _ (JStr "word"))); [|destruct H2].
    apply filter_In in H1 as [H1 _]. apply filter_In in H2 as [H2 _].
    rewrite Forall_forall in Tw, Ti.
    pose proof (Tw r H1) as E1. rewrite (Ti r H2) in E1. discriminate.
Qed.

Lemma page_order_consistent localeCompare filters :
  (Filters.sortOrder filters = Some Filters.alphabetical -> consistent localeCompare) ->
  consistent (page_order localeCompare filters).
Proof.
  intros H. unfold page_order.
  destruct (Filters.sortOrder filters) as [[|]|].
  - split; intros; lia.
  - destruct (H eq_refl) as [Htot Htrans]. split.
    + intros a b. apply Htot.
    + intros a b d. apply Htrans.
  - split; intros; lia.
Qed.

(** ** Substrings up to case *)

Lemma prefix_iff sub : forall s,
  String.prefix sub s = true <-> exists post, s = (sub ++ post)%string.
Proof.
  induction sub as [|a sub IH]; intros s.
  - split; [intros _; now exists s|]. intros _. now destruct s.
  - destruct s as [|b s]; simpl.
    + split; [discriminate | intros [post H]; discriminate].
    + destruct (ascii_dec a b) as [->|Hne].
      * rewrite IH. split; intros [post H]; exists post; [now rewrite H | now injection H].
      * split; [discriminate|]. intros [post H]. injection H as H _. congruence.
Qed.

Lemma str_includes_iff sub : forall s,
  str_includes s sub = true <-> exists pre post, s = (pre ++ sub ++ post)%string.
Proof.
  intros s. split.
  - induction s as [|c s IH]; cbn [str_includes]; intros H.
    + rewrite orb_false_r in H. apply prefix_iff in H as [post H].
      now exists EmptyString, post.
    + apply orb_true_iff in H as [H|H].
      * apply prefix_iff in H as [post H]. now exists EmptyString, post.
      * destruct (IH H) as (pre & post & ->). now exists (String c pre), post.
  - intros (pre & post & ->). induction pre as [|c pre IH].
    + assert (H : String.prefix sub (sub ++ post) = true)
        by (apply prefix_iff; now exists post).
      cbn [append]. destruct (sub ++ post)%string; cbn [str_includes]; now rewrite H.
    + cbn [append str_includes]. rewrite IH. apply orb_true_r.
Qed.

Lemma ascii_toLowerCase_app a b :
  ascii_toLowerCase (a ++ b) = (ascii_toLowerCase a ++ ascii_toLowerCase b)%string.
Proof. induction a as [|c a IH]; simpl; [reflexivity | now rewrite IH]. Qed.

Lemma ascii_toLowerCase_split a : forall s b,
  ascii_toLowerCase s = (a ++ b)%string ->
  exists s1 s2, s = (s1 ++ s2)%string
                /\ ascii_toLowerCase s1 = a /\ ascii_toLowerCase s2 = b.
Proof.
  induction a as [|c a IH]; intros s b H.
  - exists EmptyString, s. repeat split. exact H.
  - destruct s as [|c0 s]; [discriminate|]. simpl in H. injection H as Hc H.
    destruct (IH s b H) as (s1 & s2 & -> & H1 & H2).
    exists (String c0 s1), s2. simpl. now rewrite Hc, H1, H2.
Qed.

Lemma same_letterb_iff a b : same_letterb a b = true <-> same_letter a b.
Proof.
  unfold same_letterb, same_letter. rewrite !orb_true_iff, Ascii.eqb_eq.
  assert (H : forall x y,
             existsb (fun p => Ascii.eqb (fst p) x && Ascii.eqb (snd p) y) letter_pairs
             = true <-> In (x, y) letter_pairs).
  { intros x y. rewrite existsb_exists. split.
    - intros ([u v] & Hin & Huv). apply andb_true_iff in Huv as [Hu Hv].
      apply Ascii.eqb_eq in Hu, Hv. simpl in Hu, Hv. now subst.
    - intros Hin. exists (x, y). split; [assumption|]. simpl.
      now rewrite !Ascii.eqb_refl. }
  rewrite !H. tauto.
Qed.

(** The mapping of [lower_char] identifies exactly the two forms of a
    letter: checked on all pairs of characters. *)
Lemma lower_char_table :
  forallb (fun n =>
             forallb (fun m =>
                        Bool.eqb (Ascii.eqb (lower_char (ascii_of_nat n))
                                            (lower_char (ascii_of_nat m)))
                                 (same_letterb (ascii_of_nat n) (ascii_of_nat m)))
                     (seq 0 256))
          (seq 0 256) = true.
Proof. vm_compute. reflexivity. Qed.

Lemma lower_char_same_letter a b : lower_char a = lower_char b <-> same_letter a b.
Proof.
  rewrite <- same_letterb_iff, <- Ascii.eqb_eq.
  pose proof lower_char_table as H. rewrite forallb_forall in H.
  specialize (H (nat_of_ascii a)). rewrite forallb_forall in H.
  assert (Ha : In (nat_of_ascii a) (seq 0 256))
    by (apply in_seq; pose proof (nat_ascii_bounded a); lia).
  assert (Hb : In (nat_of_ascii b) (seq 0 256))
    by (apply in_seq; pose proof (nat_ascii_bounded b); lia).
  specialize (H Ha (nat_of_ascii b) Hb).
  rewrite !ascii_nat_embedding in H. apply Bool.eqb_prop in H. now rewrite H.
Qed.

Lemma same_text_iff s : forall t,
  same_text s t <-> ascii_toLowerCase s = ascii_toLowerCase t.
Proof.
  induction s as [|a s IH]; intros [|b t]; simpl.
  - tauto.
  - split; [tauto | discriminate].
  - split; [tauto | discriminate].
  - rewrite IH, <- lower_char_same_letter. split.
    + now intros [-> ->].
    + intros H. injection H as H1 H2. now split.
Qed.

Lemma occurs_iff needle hay :
  (exists pre post,
      ascii_toLowerCase hay = (pre ++ ascii_toLowerCase needle ++ post)%string)
  <-> occurs_ci needle hay.
Proof.
  unfold occurs_ci. split.
  - intros (pre' & post' & H).
    apply ascii_toLowerCase_split in H as (pre & rest & -> & Hpre & Hrest).
    apply ascii_toLowerCase_split in Hrest as (mid & post & -> & Hmid & Hpost).
    exists pre, mid, post. split; [reflexivity|]. now apply same_text_iff.
  - intros (pre & mid & post & -> & Hmid). apply same_text_iff in Hmid.
    exists (ascii_toLowerCase pre), (ascii_toLowerCase post).
    now rewrite !ascii_toLowerCase_app, Hmid.
Qed.

Lemma found_in_ascii toLowerCase needle hay :
  ascii_host toLowerCase -> is_ascii needle = true -> is_ascii hay = true ->
  found_in toLowerCase needle hay <-> occurs_ci needle hay.
Proof.
  intros Hhost Hn Hh. unfold found_in. rewrite (Hhost _ Hn), (Hhost _ Hh).
  apply occurs_iff.
Qed.

Lemma satisfies_ascii toLowerCase filters r :
  ascii_host toLowerCase -> ascii_text filters r ->
  satisfies (found_in toLowerCase) filters r <-> satisfies occurs_ci filters r.
Proof.
  intros Hhost (As & Ae & Aj). unfold satisfies.
  split; intros (H1 & H2 & H3 & H4 & H5); repeat split; try assumption;
    intros s Hs; destruct (H5 s Hs) as [(e & He & H)|(j & Hj & H)];
    [left; exists e | right; exists j | left; exists e | right; exists j];
    (split; [assumption|]);
    first [ apply (found_in_ascii toLowerCase) | apply (found_in_ascii toLowerCase) in H ];
    eauto.
Qed.

(** ** Filters *)

Lemma filter_test_iff {A} (js : A -> jsval) (o : option A) (v : jsval) :
  (forall a, o = Some a -> truthy (js a) = true) ->
  negb (truthy (js_opt js o) && negb (strict_eq v (js_opt js o))) = true
  <-> (forall a, o = Some a -> v = js a).
Proof.
  intros Ht. destruct o as [a|]; simpl.
  - rewrite (Ht a eq_refl). simpl. rewrite negb_involutive, strict_eq_iff.
    split; [intros H b Hb; now injection Hb as <- | intros H; now apply H].
  - split; [intros _ a H; discriminate | reflexivity].
Qed.

Lemma search_test_iff toLowerCase (o : option string) (e j : string) :
  negb (truthy (js_opt JStr (option_map toLowerCase o))
        && negb (str_includes (toLowerCase e)
                              (to_string (js_opt JStr (option_map toLowerCase o))))
        && negb (str_includes (toLowerCase j)
                              (to_string (js_opt JStr (option_map toLowerCase o)))))
  = true
  <-> (forall s, o = Some s -> found_in toLowerCase s e \/ found_in toLowerCase s j).
Proof.
  destruct o as [s|]; simpl.
  - destruct (toLowerCase s =? "")%string eqn:E.
    + apply String.eqb_eq in E. simpl.
      split; [|reflexivity]. intros _ s' H. injection H as <-. left.
      exists EmptyString, (toLowerCase e). now rewrite E.
    + simpl. rewrite <- negb_orb, negb_involutive, orb_true_iff, !str_includes_iff.
      split; [intros H s' Hs'; now injection Hs' as <- | intros H; now apply H].
  - split; [intros _ s H; discriminate | reflexivity].
Qed.

Lemma passes_satisfies toLowerCase filters r :
  text_ok filters r -> tier_filter filters ->
  passes toLowerCase filters r = true <-> satisfies (found_in toLowerCase) filters r.
Proof.
  intros [He Hj] Htier. unfold passes, satisfies.
  rewrite !andb_true_iff.
  rewrite (filter_test_iff js_level) by (intros []; reflexivity).
  rewrite (filter_test_iff js_category) by (intros []; reflexivity).
  rewrite (filter_test_iff js_type) by (intros []; reflexivity).
  rewrite (filter_test_iff JNum).
  2:{ intros n Hn. specialize (Htier n Hn). simpl.
      destruct (Z.eqb_spec n 0); [lia | reflexivity]. }
  unfold searches in He, Hj.
  destruct (Filters.search filters) as [s|] eqn:Es.
  - specialize (He eq_refl). specialize (Hj eq_refl).
    destruct (english r) as [| | | |e] eqn:Ee; try discriminate.
    destruct (japanese r) as [| | | |j] eqn:Ej; try discriminate.
    cbn [to_string]. rewrite search_test_iff. split.
    + intros ((((H1 & H2) & H3) & H4) & H5). repeat split; try assumption.
      intros s' Hs'. injection Hs' as <-.
      destruct (H5 s eq_refl) as [H|H]; [left; now exists e | right; now exists j].
    + intros (H1 & H2 & H3 & H4 & H5). repeat split; try assumption.
      intros s' Hs'. injection Hs' as <-.
      destruct (H5 s eq_refl) as [(e' & He' & H)|(j' & Hj' & H)];
        [left | right]; congruence.
  - cbn [option_map js_opt truthy andb negb]. split.
    + intros ((((H1 & H2) & H3) & H4) & _). repeat split; try assumption.
      intros s Hs. discriminate.
    + intros (H1 & H2 & H3 & H4 & _). repeat split; assumption.
Qed.

Lemma In_firstn_skipn {A} (x : A) n m l : In x (firstn n (skipn m l)) -> In x l.
Proof.
  intros H. rewrite <- (firstn_skipn m l). apply in_or_app. right.
  rewrite <- (firstn_skipn n (skipn m l)). apply in_or_app. now left.
Qed.

Lemma In_js_slice {A} (x : A) l a b : In x (js_slice l a b) -> In x l.
Proof. unfold js_slice. apply In_firstn_skipn. Qed.

Lemma in_matching toLowerCase db filters r :
  kept_by_type db -> queryable db filters -> tier_filter filters ->
  In r (matching toLowerCase db filters)
  <-> (In r (records (words db)) \/ In r (records (idioms db)))
      /\ satisfies (found_in toLowerCase) filters r.
Proof.
  intros (Rw & Ri & _ & _) [Tw Ti] Htier.
  rewrite Forall_forall in Tw, Ti, Rw, Ri.
  unfold matching. rewrite in_app_iff. split.
  - intros [H|H].
    + destruct (negb (strict_eq _ (JStr "idiom"))); [|destruct H].
      apply filter_In in H as [Hin Hp]. split; [now left|].
      apply passes_satisfies; auto.
    + destruct (negb (strict_eq _ (JStr "word"))); [|destruct H].
      apply filter_In in H as [Hin Hp]. split; [now right|].
      apply passes_satisfies; auto.
  - intros [[Hin|Hin] Hs].
    + left. pose proof (Rw r Hin) as Ht.
      assert (Hsel : negb (strict_eq (js_opt js_type (Filters.type filters))
                                     (JStr "idiom")) = true).
      { destruct Hs as (_ & _ & Hty & _).
        destruct (Filters.type filters) as [[|]|]; try reflexivity.
        specialize (Hty idiom eq_refl). rewrite Ht in Hty. discriminate. }
      rewrite Hsel. apply filter_In. split; [assumption|].
      apply passes_satisfies; auto.
    + right. pose proof (Ri r Hin) as Ht.
      assert (Hsel : negb (strict_eq (js_opt js_type (Filters.type filters))
                                     (JStr "word")) = true).
      { destruct Hs as (_ & _ & Hty & _).
        destruct (Filters.type filters) as [[|]|]; try reflexivity.
        specialize (Hty word eq_refl). rewrite Ht in Hty. discriminate. }
      rewrite Hsel. apply filter_In. split; [assumption|].
      apply passes_satisfies; auto.
Qed.

(** ** [getVocabulary] and [getAllVocabularyForLevelAndCategory] *)

Lemma In_set_at {A} (x v : A) : forall i l, In x (set_at i v l) -> x = v \/ In x l.
Proof.
  intros i l. revert i. induction l as [|a l IH]; intros i H;
    [destruct i; destruct H|].
  destruct i as [|i]; simpl in H.
  - destruct H as [<-|H]; [now left | right; now right].
  - destruct H as [<-|H]; [right; now left|].
    destruct (IH i H) as [->|Hin]; [now left | right; now right].
Qed.

Lemma In_swap_at {A} (x : A) i j l : In x (swap_at i j l) -> In x l.
Proof.
  unfold swap_at. destruct (nth_error l i) as [a|] eqn:Ei; [|auto].
  destruct (nth_error l j) as [b|] eqn:Ej; [|auto].
  intros H. apply In_set_at in H as [->|H]; [now apply (nth_error_In _ _ Ei)|].
  apply In_set_at in H as [->|H]; [now apply (nth_error_In _ _ Ej) | assumption].
Qed.

Lemma shuffle_from_total {A} random : forall i (l : list A) k,
  exists l' k', shuffle_from random i l k = Some (l', k') /\ incl l' l.
Proof.
  induction i as [|i IH]; intros l k; simpl.
  - exists l, k. split; [reflexivity | apply incl_refl].
  - unfold qbind, math_random.
    destruct (IH (swap_at (S i) (floor_scaled (random k) (S i + 1)) l) (S k))
      as (l' & k' & Heq & Hincl).
    exists l', k'. split; [exact Heq|].
    intros x Hx. apply (In_swap_at x (S i) (floor_scaled (random k) (S i + 1))).
    now apply Hincl.
Qed.

Lemma order_items_total random localeCompare sortOrder l k :
  Forall (fun r => is_string (english r) = true) l ->
  exists l' k',
    order_items random localeCompare sortOrder l k = Some (l', k')
    /\ incl l' l
    /\ (l = [] -> l' = []).
Proof.
  intros Hs. destruct sortOrder; simpl.
  - destruct (shuffle_from_total random (List.length l - 1) l k)
      as (l' & k' & Heq & Hincl).
    exists l', k'. repeat split; try assumption.
    intros ->. destruct l' as [|x l']; [reflexivity|].
    destruct (Hincl x (or_introl eq_refl)).
  - exists (sort_pure (fun a b => localeCompare (to_string (english a))
                                                (to_string (english b))) l), k.
    repeat split.
    + apply array_sort_pure. intros x y k' Hx. apply by_english_pure.
      rewrite Forall_forall in Hs. now apply Hs.
    + intros x Hx. apply (Permutation_in _ (sort_pure_perm _ l) Hx).
    + intros ->. reflexivity.
Qed.

Lemma js_pos_not_null p : js_pos p <> JNull.
Proof. destruct p; discriminate. Qed.

Lemma select_items_pos db lvl cat vocabType p freq :
  store_inv db ->
  Forall (fun r => In r (records (words db)) /\ pos r = js_pos p)
         (select_items db lvl cat vocabType (Only p) freq)
  /\ (vocabType = Only idiom -> select_items db lvl cat vocabType (Only p) freq = []).
Proof.
  intros [Hw Hi]. pose proof (ok_records Hi) as Ri. rewrite Forall_forall in Ri.
  unfold select_items.
  set (ws := if selects word vocabType
             then [] ++ getAllFromIndex_level_category (words db) lvl cat else []).
  set (all := if selects idiom vocabType
              then ws ++ getAllFromIndex_level_category (idioms db) lvl cat else ws).
  assert (Hws : forall r, In r ws -> In r (records (words db))).
  { intros r. unfold ws. destruct (selects word vocabType); [|simpl; tauto].
    simpl. unfold getAllFromIndex_level_category. intros H.
    now apply filter_In in H as [H _]. }
  assert (Hall : forall r, In r all -> In r ws \/ In r (records (idioms db))).
  { intros r. unfold all. destruct (selects idiom vocabType); [|now left].
    rewrite in_app_iff. intros [H|H]; [now left | right].
    unfold getAllFromIndex_level_category in H. now apply filter_In in H as [H _]. }
  assert (Hpos : Forall (fun r => In r (records (words db)) /\ pos r = js_pos p)
                        (filter (fun item => strict_eq (pos item) (js_pos p)) all)).
  { apply Forall_forall. intros r Hr. apply filter_In in Hr as [Hr Hp].
    apply strict_eq_iff in Hp. split; [|assumption].
    destruct (Hall r Hr) as [H|H]; [now apply Hws|].
    destruct (Ri r H) as (_ & Hnull & _). rewrite Hnull in Hp.
    symmetry in Hp. now apply js_pos_not_null in Hp. }
  split.
  - destruct (truthy (js_opt JNum freq)); [|exact Hpos].
    apply Forall_forall. intros r Hr. apply filter_In in Hr as [Hr _].
    rewrite Forall_forall in Hpos. now apply Hpos.
  - intros ->.
    assert (Hnil : filter (fun item => strict_eq (pos item) (js_pos p)) all = []).
    { destruct (filter _ all) as [|r rest] eqn:E; [reflexivity|].
      inversion Hpos as [|? ? [Hin _] _]; subst.
      assert (Hr : In r all).
      { assert (H : In r (filter (fun item => strict_eq (pos item) (js_pos p)) all))
          by (rewrite E; now left).
        now apply filter_In in H as [H _]. }
      destruct (Hall r Hr) as [H|H]; [destruct H|].
      assert (H' : In r (filter (fun item => strict_eq (pos item) (js_pos p)) all))
        by (rewrite E; now left).
      apply filter_In in H' as [_ Hp]. apply strict_eq_iff in Hp.
      destruct (Ri r H) as (_ & Hnull & _). rewrite Hnull in Hp.
      symmetry in Hp. now apply js_pos_not_null in Hp. }
    rewrite Hnil. now destruct (truthy (js_opt JNum freq)).
Qed.

Lemma ordered_selection random localeCompare db lvl cat vocabType p sortOrder freq k :
  store_inv db ->
  exists l' k',
    order_items random localeCompare sortOrder
                (select_items db lvl cat vocabType (Only p) freq) k = Some (l', k')
    /\ Forall (fun r => In r (records (words db))
                        /\ ~ In r (records (idioms db))
                        /\ type r = JStr "word") l'
    /\ (vocabType = Only idiom -> l' = []).
Proof.
  intros Hinv. pose proof Hinv as [Hw Hi].
  pose proof (ok_records Hw) as Rw. rewrite Forall_forall in Rw.
  destruct (select_items_pos db lvl cat vocabType p freq Hinv) as [Hsel Hnil].
  rewrite Forall_forall in Hsel.
  destruct (order_items_total random localeCompare sortOrder
              (select_items db lvl cat vocabType (Only p) freq) k)
    as (l' & k' & Heq & Hincl & Hempty).
  { apply Forall_forall. intros r Hr. destruct (Hsel r Hr) as [Hin _].
    now destruct (Rw r Hin) as (Hs & _). }
  exists l', k'. split; [exact Heq|]. split.
  - apply Forall_forall. intros r Hr. destruct (Hsel r (Hincl r Hr)) as [Hin _].
    split; [assumption|]. split.
    + intros Hin'. exact (stores_disjoint db r Hinv Hin Hin').
    + now destruct (Rw r Hin) as (_ & _ & Ht).
  - intros Hv. apply Hempty. now apply Hnil.
Qed.

(** ** The shuffle of [getVocabulary] *)

Lemma floor_scaled_below u n : 0 < n -> floor_scaled u n < n.
Proof.
  intros Hn. unfold floor_scaled. apply Nat.Div0.div_lt_upper_bound. nia.
Qed.

Lemma drawn_indices_ok random : forall i k, indices_ok i (drawn_indices random i k).
Proof.
  induction i as [|i IH]; intros k; simpl; [exact I|]. split; [|apply IH].
  pose proof (floor_scaled_below (random k) (S (i + 1)) ltac:(lia)). lia.
Qed.

Lemma shuffle_from_by {A} random : forall i (l : list A) k,
  shuffle_from random i l k = Some (shuffle_by i (drawn_indices random i k) l, i + k).
Proof.
  induction i as [|i IH]; intros l k; simpl; [reflexivity|].
  unfold qbind, math_random. rewrite IH. do 2 f_equal. lia.
Qed.

Lemma length_set_at {A} (v : A) : forall i l, List.length (set_at i v l) = List.length l.
Proof.
  induction i as [|i IH]; intros [|a l]; simpl; try reflexivity. now rewrite IH.
Qed.

Lemma length_swap_at {A} i j (l : list A) : List.length (swap_at i j l) = List.length l.
Proof.
  unfold swap_at. destruct (nth_error l i); [|reflexivity].
  destruct (nth_error l j); [|reflexivity]. now rewrite !length_set_at.
Qed.

Lemma nth_error_set_at_eq {A} (v : A) : forall i l,
  i < List.length l -> nth_error (set_at i v l) i = Some v.
Proof.
  induction i as [|i IH]; intros [|a l] H; simpl in *; try lia; [reflexivity|].
  apply IH. lia.
Qed.

Lemma nth_error_set_at_ne {A} (v : A) : forall i l k,
  k <> i -> nth_error (set_at i v l) k = nth_error l k.
Proof.
  induction i as [|i IH]; intros [|a l] k H; simpl; try reflexivity.
  - destruct k; [lia | reflexivity].
  - destruct k; [reflexivity|]. simpl. apply IH. lia.
Qed.

Lemma nth_error_swap_at {A} i j (l : list A) k :
  i < List.length l -> j < List.length l ->
  nth_error (swap_at i j l) k = nth_error l (transpose i j k).
Proof.
  intros Hi Hj. unfold swap_at, transpose.
  destruct (nth_error l i) as [x|] eqn:Ei; [|apply nth_error_None in Ei; lia].
  destruct (nth_error l j) as [y|] eqn:Ej; [|apply nth_error_None in Ej; lia].
  destruct (Nat.eqb_spec k j) as [->|Hkj].
  - rewrite nth_error_set_at_eq by (rewrite length_set_at; lia).
    destruct (Nat.eqb_spec j i) as [->|_]; congruence.
  - rewrite nth_error_set_at_ne by assumption.
    destruct (Nat.eqb_spec k i) as [->|Hki].
    + now rewrite nth_error_set_at_eq.
    + now rewrite nth_error_set_at_ne.
Qed.

Lemma transpose_inj i j a b : transpose i j a = transpose i j b -> a = b.
Proof.
  unfold transpose.
  destruct (Nat.eqb_spec a i), (Nat.eqb_spec a j), (Nat.eqb_spec b i),
    (Nat.eqb_spec b j); lia.
Qed.

Lemma transpose_below i j k n : i < n -> j < n -> k < n -> transpose i j k < n.
Proof.
  unfold transpose. destruct (Nat.eqb_spec k i), (Nat.eqb_spec k j); lia.
Qed.

Lemma NoDup_swap_at {A} i j (l : list A) : NoDup l -> NoDup (swap_at i j l).
Proof.
  intros Hnd.
  destruct (Nat.lt_ge_cases i (List.length l)) as [Hi|Hi].
  2:{ unfold swap_at. apply nth_error_None in Hi. now rewrite Hi. }
  destruct (Nat.lt_ge_cases j (List.length l)) as [Hj|Hj].
  2:{ unfold swap_at. apply nth_error_None in Hj. rewrite Hj.
      now destruct (nth_error l i). }
  apply NoDup_nth_error. intros a b Ha Hab.
  rewrite length_swap_at in Ha. rewrite !nth_error_swap_at in Hab by assumption.
  apply (transpose_inj i j). rewrite NoDup_nth_error in Hnd.
  apply Hnd; [now apply transpose_below | exact Hab].
Qed.

Lemma swap_at_perm {A} i j (l : list A) : NoDup l -> Permutation (swap_at i j l) l.
Proof.
  intros Hnd. apply NoDup_Permutation_bis.
  - now apply NoDup_swap_at.
  - rewrite length_swap_at. apply Nat.le_refl.
  - intros x. apply In_swap_at.
Qed.

Lemma shuffle_by_keeps {A} : forall i js (l : list A) k,
  indices_ok i js -> i < List.length l -> i < k ->
  nth_error (shuffle_by i js l) k = nth_error l k.
Proof.
  induction i as [|i IH]; intros js l k Hok Hi Hk.
  - destruct js; reflexivity.
  - destruct js as [|j js]; [destruct Hok|]. destruct Hok as [Hj Hok]. cbn [shuffle_by].
    rewrite IH; [|assumption | rewrite length_swap_at; lia | lia].
    rewrite nth_error_swap_at by lia. unfold transpose.
    destruct (Nat.eqb_spec k (S i)); [lia|]. destruct (Nat.eqb_spec k j); [lia|].
    reflexivity.
Qed.

Lemma shuffle_by_last {A} i j js (l : list A) :
  j <= S i -> indices_ok i js -> S i < List.length l ->
  nth_error (shuffle_by (S i) (j :: js) l) (S i) = nth_error l j.
Proof.
  intros Hj Hok Hi. cbn [shuffle_by].
  rewrite shuffle_by_keeps; [|assumption | rewrite length_swap_at; lia | lia].
  rewrite nth_error_swap_at by lia. unfold transpose. now rewrite Nat.eqb_refl.
Qed.

(** Every run of the loop permutes the list, and two runs that draw
    different indices end in different orders: the n! equally likely index
    sequences give the n! orders, each once. *)
Lemma shuffle_by_perm {A} : forall i js (l : list A),
  NoDup l -> Permutation (shuffle_by i js l) l.
Proof.
  induction i as [|i IH]; intros js l Hnd; [destruct js; reflexivity|].
  destruct js as [|j js]; [reflexivity|]. simpl.
  rewrite IH by now apply NoDup_swap_at. now apply swap_at_perm.
Qed.

Lemma shuffle_by_injective {A} : forall i js1 js2 (l : list A),
  NoDup l -> i < List.length l ->
  indices_ok i js1 -> indices_ok i js2 ->
  shuffle_by i js1 l = shuffle_by i js2 l -> js1 = js2.
Proof.
  induction i as [|i IH]; intros js1 js2 l Hnd Hi H1 H2 Heq.
  - destruct js1, js2; simpl in *; try contradiction. reflexivity.
  - destruct js1 as [|j1 js1]; [destruct H1|]. destruct js2 as [|j2 js2]; [destruct H2|].
    destruct H1 as [Hj1 H1]. destruct H2 as [Hj2 H2].
    assert (Hj : j1 = j2).
    { pose proof (shuffle_by_last i j1 js1 l Hj1 H1 Hi) as E1.
      pose proof (shuffle_by_last i j2 js2 l Hj2 H2 Hi) as E2.
      rewrite Heq, E2 in E1. rewrite NoDup_nth_error in Hnd.
      symmetry. apply Hnd; [lia | exact E1]. }
    subst j2. f_equal. cbn [shuffle_by] in Heq.
    apply (IH js1 js2 (swap_at (S i) j1 l)); try assumption.
    + now apply NoDup_swap_at.
    + rewrite length_swap_at. lia.
Qed.

Lemma shuffle_uniform {A} random1 random2 (l : list A) k1 k2 :
  NoDup l ->
  let n := List.length l - 1 in
  (exists l1, shuffle random1 l k1 = Some (l1, n + k1) /\ Permutation l1 l)
  /\ (option_map fst (shuffle random1 l k1) = option_map fst (shuffle random2 l k2) ->
      drawn_indices random1 n k1 = drawn_indices random2 n k2).
Proof.
  intros Hnd n. unfold shuffle. fold n. rewrite !shuffle_from_by. split.
  - eexists. split; [reflexivity | now apply shuffle_by_perm].
  - simpl. intros H. injection H as H.
    destruct l as [|a l]; [reflexivity|].
    apply (shuffle_by_injective n _ _ (a :: l)); try assumption;
      try apply drawn_indices_ok.
    unfold n. simpl. lia.
Qed.

(** ** Claims about [addVocabularyItems] *)

Lemma addVocabularyItems_no_faults db items n :
  outcome (add_items no_faults items 0 (mkTx db 0)) = inr n ->
  res_db (addVocabularyItems no_faults db items)
  = working (post (add_items no_faults items 0 (mkTx db 0)))
  /\ res_value (addVocabularyItems no_faults db items) = inr n.
Proof.
  intros H. unfold addVocabularyItems. rewrite H. simpl. split; reflexivity.
Qed.

Lemma add_items_skip_silent fault item rest n s :
  add_item fault item n s = mkStep [] (inr n) s ->
  add_items fault (item :: rest) n s = add_items fault rest n s.
Proof.
  intros H. cbn [add_items]. rewrite (bind_inr _ H). simpl. apply step_eta.
Qed.

Lemma add_items_insert_silent fault it l2 :
  (forall n s, add_item fault (Some it) n s = mkStep [] (inr n) s) ->
  forall l1 n s,
    add_items fault (l1 ++ Some it :: l2) n s = add_items fault (l1 ++ l2) n s.
Proof.
  intros H. induction l1 as [|x l1 IH]; intros n s.
  - apply add_items_skip_silent, H.
  - simpl. apply bind_agree; [reflexivity|]. intros a _. apply IH.
Qed.

(** C10: a record with english, type and the core fields present whose type
    is neither ['word'] nor ['idiom'] goes through the loop without a
    request, without a warning and without a change of the count, and the
    whole call behaves as if the record were not in the list. *)
Theorem unknown_type_skipped_silently (fault : FaultPlan) (it : VocabDBItem) :
  unknown_type it = true ->
  (forall n s, add_item fault (Some it) n s = mkStep [] (inr n) s)
  /\ (forall db l1 l2,
        addVocabularyItems fault db (l1 ++ Some it :: l2)
        = addVocabularyItems fault db (l1 ++ l2)).
Proof.
  intros H.
  assert (Hitem : forall n s, add_item fault (Some it) n s = mkStep [] (inr n) s).
  { intros n s. rewrite add_item_plan, (unknown_type_plan it H). reflexivity. }
  split; [exact Hitem|].
  intros db l1 l2. unfold addVocabularyItems.
  now rewrite (add_items_insert_silent fault it l2 Hitem l1 0 (mkTx db 0)).
Qed.

Lemma unknown_type_skipped_silently_witness :
  unknown_type run_phrase = true
  /\ addVocabularyItems no_faults empty_db [Some run_verb; Some run_phrase; Some run_out]
     = addVocabularyItems no_faults empty_db [Some run_verb; Some run_out].
Proof.
  split; [reflexivity|].
  apply (proj2 (unknown_type_skipped_silently no_faults run_phrase eq_refl)
               empty_db [Some run_verb] [Some run_out]).
Defined.

(** C2: a list of valid records with pairwise distinct uniqueness keys, none
    of them stored, is added whole, and adding the same list again adds
    nothing and leaves the database as it is. *)
Theorem addVocabularyItems_twice (db : DB) (l : list VocabDBItem) :
  Forall (fun it => valid_record it = true) l ->
  NoDup (map uniqueness_key l) ->
  (forall it, In it l -> ~ stored db (uniqueness_key it)) ->
  let first := addVocabularyItems no_faults db (map Some l) in
  let second := addVocabularyItems no_faults (res_db first) (map Some l) in
  res_value first = inr (List.length l)
  /\ res_value second = inr 0
  /\ res_db second = res_db first.
Proof.
  intros Hvalid Hnd Hfresh first second.
  destruct (first_pass l 0 (mkTx db 0) Hvalid Hnd Hfresh) as (Hout & Hall & _).
  destruct (addVocabularyItems_no_faults db (map Some l) _ Hout) as (Hdb & Hval).
  fold first in Hdb, Hval.
  assert (Hst : forall it, In it l ->
                stored (working (mkTx (res_db first) 0)) (uniqueness_key it)).
  { intros it Hin. simpl. rewrite Hdb. now apply Hall. }
  destruct (second_pass l 0 (mkTx (res_db first) 0) Hvalid Hst) as (Hout2 & Hw2).
  destruct (addVocabularyItems_no_faults (res_db first) (map Some l) _ Hout2)
    as (Hdb2 & Hval2).
  fold second in Hdb2, Hval2.
  repeat split.
  - exact Hval.
  - exact Hval2.
  - rewrite Hdb2. exact Hw2.
Qed.

Lemma addVocabularyItems_twice_witness :
  res_value (addVocabularyItems no_faults empty_db (map Some sample_batch)) = inr 3
  /\ res_value (addVocabularyItems no_faults sample_db (map Some sample_batch)) = inr 0
  /\ res_db (addVocabularyItems no_faults sample_db (map Some sample_batch)) = sample_db.
Proof.
  apply (addVocabularyItems_twice empty_db sample_batch).
  - repeat constructor.
  - repeat constructor; simpl; intuition discriminate.
  - intros it _ H. unfold stored in H.
    destruct (fst (uniqueness_key it)); exact H.
Defined.

Lemma item_step_adds fault n s r :
  item_step fault n s r ->
  forall m, outcome r = inr m ->
  n + List.length (filter is_store_add (emitted r)) = m.
Proof.
  intros H m Hm. destruct H; simpl in *; try discriminate;
    injection Hm as <-; try destruct warning; simpl; lia.
Qed.

Lemma add_items_adds fault items : forall n s m,
  outcome (add_items fault items n s) = inr m ->
  n + List.length (filter is_store_add (emitted (add_items fault items n s))) = m.
Proof.
  induction items as [|item items IH]; intros n s m; cbn [add_items].
  - simpl. intros H. injection H as <-. lia.
  - pose proof (item_step_adds _ _ _ _ (add_item_step fault item n s)) as H1.
    unfold bind. destruct (outcome (add_item fault item n s)) as [e|a] eqn:E; simpl;
      [discriminate|].
    intros Hm. specialize (H1 a eq_refl). specialize (IH _ _ _ Hm).
    rewrite filter_app, length_app. lia.
Qed.

Lemma add_items_skip_warned fault item rest n s w :
  add_item fault item n s = mkStep [ConsoleWarn w item] (inr n) s ->
  emitted (add_items fault (item :: rest) n s)
  = ConsoleWarn w item :: emitted (add_items fault rest n s)
  /\ outcome (add_items fault (item :: rest) n s) = outcome (add_items fault rest n s)
  /\ post (add_items fault (item :: rest) n s) = post (add_items fault rest n s).
Proof.
  intros H. cbn [add_items]. rewrite (bind_inr _ H). simpl. repeat split.
Qed.

(** C7: the returned count is the number of records the call inserted: the
    stores grow at their ends by that many records, added by that many
    requests; a record that fails validation costs a warning and nothing
    else, a duplicate costs the probe of the index and nothing else, and in
    both cases the loop goes on with the rest of the list and the same
    count; with no storage fault the call always returns. *)
Theorem addVocabularyItems_count :
  (forall fault db items n,
      let r := addVocabularyItems fault db items in
      res_value r = inr n ->
      List.length (filter is_store_add (res_events r)) = n
      /\ exists new_w new_i,
          records (words (res_db r)) = records (words db) ++ new_w
          /\ records (idioms (res_db r)) = records (idioms db) ++ new_i
          /\ n = List.length new_w + List.length new_i)
  /\ (forall fault item rest n s,
         invalid_record item = true ->
         exists w,
           emitted (add_items fault (item :: rest) n s)
           = ConsoleWarn w item :: emitted (add_items fault rest n s)
           /\ outcome (add_items fault (item :: rest) n s)
              = outcome (add_items fault rest n s)
           /\ post (add_items fault (item :: rest) n s)
              = post (add_items fault rest n s))
  /\ (forall fault it rest n s,
         valid_record it = true ->
         stored (working s) (uniqueness_key it) ->
         fault (requests s) = None ->
         emitted (add_items fault (Some it :: rest) n s)
         = IndexGet (target_store it) (unique_key (target_store it) it)
             :: emitted (add_items fault rest n (bump s))
         /\ outcome (add_items fault (Some it :: rest) n s)
            = outcome (add_items fault rest n (bump s))
         /\ post (add_items fault (Some it :: rest) n s)
            = post (add_items fault rest n (bump s)))
  /\ (forall db items, exists n, res_value (addVocabularyItems no_faults db items) = inr n).
Proof.
  split; [|split; [|split]].
  - intros fault db items n r. unfold r. rewrite addVocabularyItems_body. cbv zeta.
    destruct (outcome (add_body fault items (mkTx db 0))) as [e|m] eqn:E; simpl;
      [discriminate|].
    intros H. injection H as ->.
    destruct (add_body_committed _ _ _ _ E) as (Hout & Hw & Hev). split.
    + rewrite Hev, filter_app, length_app. simpl.
      pose proof (add_items_adds _ _ _ _ _ Hout). lia.
    + destruct (add_items_grows fault items 0 (mkTx db 0)) as (nw & ni & H1 & H2 & H3).
      exists nw, ni. rewrite Hw. repeat split; try assumption.
      apply (H3 n Hout).
  - intros fault item rest n s H.
    destruct (invalid_record_plan item H) as [w Hp]. exists w.
    apply add_items_skip_warned. rewrite add_item_plan, Hp. reflexivity.
  - intros fault it rest n s Hv Hst Hf.
    destruct (valid_record_probe it Hv) as (Hp & Hik & Hid & Hval & Hkey).
    destruct (stored_find _ _ _ Hval Hst) as [x Hx].
    assert (Hstep : add_item fault (Some it) n s
                    = mkStep [IndexGet (target_store it)
                                       (unique_key (target_store it) it)]
                             (inr n) (bump s)).
    { rewrite add_item_plan, Hp. now apply probe_found with (x := x). }
    cbn [add_items]. rewrite (bind_inr _ Hstep). simpl. repeat split.
  - intros db items.
    destruct (no_faults_succeed _ _ (add_body_accounted no_faults items (mkTx db 0)))
      as [n Hn].
    exists n. rewrite addVocabularyItems_body. cbv zeta. now rewrite Hn.
Qed.

Lemma addVocabularyItems_count_witness :
  (let r := addVocabularyItems no_faults empty_db
              [Some run_verb; Some run_bare; None; Some run_verb; Some run_out] in
   List.length (filter is_store_add (res_events r)) = 2
   /\ exists new_w new_i,
       records (words (res_db r)) = records (words empty_db) ++ new_w
       /\ records (idioms (res_db r)) = records (idioms empty_db) ++ new_i
       /\ 2 = List.length new_w + List.length new_i)
  /\ (exists w,
         emitted (add_items no_faults [Some run_bare; Some run_out] 0 (mkTx empty_db 0))
         = ConsoleWarn w (Some run_bare)
             :: emitted (add_items no_faults [Some run_out] 0 (mkTx empty_db 0))
         /\ outcome (add_items no_faults [Some run_bare; Some run_out] 0 (mkTx empty_db 0))
            = outcome (add_items no_faults [Some run_out] 0 (mkTx empty_db 0))
         /\ post (add_items no_faults [Some run_bare; Some run_out] 0 (mkTx empty_db 0))
            = post (add_items no_faults [Some run_out] 0 (mkTx empty_db 0)))
  /\ outcome (add_items no_faults [Some run_verb] 0 (mkTx sample_db 0))
     = outcome (add_items no_faults [] 0 (bump (mkTx sample_db 0))).
Proof.
  destruct addVocabularyItems_count as (H1 & H2 & H3 & _).
  split; [|split].
  - apply (H1 no_faults empty_db
              [Some run_verb; Some run_bare; None; Some run_verb; Some run_out] 2).
    reflexivity.
  - apply (H2 no_faults (Some run_bare) [Some run_out] 0 (mkTx empty_db 0)).
    reflexivity.
  - apply (H3 no_faults run_verb [] 0 (mkTx sample_db 0)).
    + reflexivity.
    + left. reflexivity.
    + reflexivity.
Defined.

(** ** Faults *)











(** C4: a commit that is rejected.  The three records of the batch are
    added in the transaction, then [await tx.done] is rejected with a
    storage error.  The [catch] logs that error and calls [tx.abort()] on
    the transaction, which has finished: the call throws
    [InvalidStateError], and it is this error the caller gets, not the
    storage error.  The database is as before the call. *)
Theorem addVocabularyItems_commit_error_replaced :
  let r := addVocabularyItems fail_commit empty_db (map Some sample_batch) in
  fail_commit 6 = Some (StorageFault 6)
  /\ List.length (filter is_store_add (res_events r)) = 3
  /\ last (res_events r) TxDone = TxAbort
  /\ In (ConsoleError error_aborted (StorageFault 6)) (res_events r)
  /\ res_value r = inl InvalidStateError
  /\ res_value r <> inl (StorageFault 6)
  /\ res_db r = empty_db.
Proof.
  vm_compute. repeat split; try reflexivity.
  - do 12 (try (right; try (left; reflexivity))).
  - discriminate.
Qed.

(** ** Claims about the stores *)

Lemma add_calls_reachable calls : forall db, reachable db -> reachable (add_calls db calls).
Proof.
  induction calls as [|[fault items] calls IH]; intros db H; simpl; [assumption|].
  apply IH. now constructor.
Qed.

Lemma store_inv_unique db :
  store_inv db ->
  NoDup (map word_key (records (words db)))
  /\ NoDup (map idiom_key (records (idioms db))).
Proof.
  intros [Hw Hi]. split.
  - apply (NoDup_map_inv (fun k => [fst k; snd k])). rewrite map_map.
    exact (ok_unique Hw).
  - apply (NoDup_map_inv (fun k => [k])). rewrite map_map. exact (ok_unique Hi).
Qed.

(** C1: whatever calls of [addVocabularyItems] are made from a reachable
    state, the words collection never holds two records with the same
    (english, pos) and the idioms collection never holds two records with
    the same english; a candidate whose key is in the store places no [add]
    request, leaves the store as it is and is not counted. *)
Theorem uniqueness_preserved :
  (forall db calls,
      reachable db ->
      NoDup (map word_key (records (words (add_calls db calls))))
      /\ NoDup (map idiom_key (records (idioms (add_calls db calls)))))
  /\ (forall fault it n s,
         valid_record it = true ->
         stored (working s) (uniqueness_key it) ->
         let r := add_item fault (Some it) n s in
         filter is_store_add (emitted r) = []
         /\ working (post r) = working s
         /\ forall m, outcome r = inr m -> m = n).
Proof.
  split.
  - intros db calls H. apply store_inv_unique, reachable_inv.
    now apply add_calls_reachable.
  - intros fault it n s Hv Hst r. unfold r.
    destruct (valid_record_probe it Hv) as (Hp & Hik & Hid & Hval & Hkey).
    destruct (stored_find _ _ _ Hval Hst) as [x Hx].
    rewrite add_item_plan, Hp.
    destruct (fault (requests s)) as [e|] eqn:Hf.
    + rewrite (probe_rejected fault _ _ _ (Some it) n s e Hf). simpl.
      repeat split. discriminate.
    + rewrite (probe_found fault _ _ _ (Some it) n s Hik x Hf Hx). simpl.
      repeat split. intros m H. now injection H as <-.
Qed.

Lemma uniqueness_preserved_witness :
  (NoDup (map word_key (records (words
     (add_calls sample_db [(no_faults, map Some sample_batch);
                           (fail_second, [Some run_bare; Some run_phrase])]))))
   /\ NoDup (map idiom_key (records (idioms
     (add_calls sample_db [(no_faults, map Some sample_batch);
                           (fail_second, [Some run_bare; Some run_phrase])])))))
  /\ (let r := add_item no_faults (Some run_verb) 0 (mkTx sample_db 0) in
      filter is_store_add (emitted r) = []
      /\ working (post r) = working (mkTx sample_db 0)
      /\ forall m, outcome r = inr m -> m = 0).
Proof.
  destruct uniqueness_preserved as [H1 H2]. split.
  - apply H1. apply (@reach_add no_faults empty_db (map Some sample_batch) reach_fresh).
  - apply (H2 no_faults run_verb 0 (mkTx sample_db 0)).
    + reflexivity.
    + left. reflexivity.
Defined.

Lemma find_map_key (h : VocabDBItem -> VocabDBItem) k l :
  (forall r, primary_key (h r) = primary_key r) ->
  find (fun r => (primary_key r =? k)%Z) (map h l)
  = option_map h (find (fun r => (primary_key r =? k)%Z) l).
Proof.
  intros Hh. induction l as [|a l IH]; simpl; [reflexivity|].
  rewrite Hh. destruct (primary_key a =? k)%Z; [reflexivity | exact IH].
Qed.

Lemma find_by_id_refreq sn k g db :
  find_by_id sn k (refreq_db g db)
  = option_map (fun r => with_frequencyLevel (g sn r) r) (find_by_id sn k db).
Proof.
  unfold find_by_id. rewrite objectStore_refreq_db. simpl.
  now apply find_map_key.
Qed.

Lemma fold_untargeted sn r l : forall acc,
  (forall u, In u l -> targets u sn r = false) ->
  fold_left (fun acc u => if targets u sn r then JNum (Update.frequencyLevel u) else acc)
            l acc = acc.
Proof.
  induction l as [|u l IH]; intros acc H; simpl; [reflexivity|].
  rewrite (H u (or_introl eq_refl)). apply IH. intros u' Hu'. apply H. now right.
Qed.

Lemma frequency_after_app l1 l2 sn r :
  frequency_after (l1 ++ l2) sn r
  = fold_left (fun acc u => if targets u sn r then JNum (Update.frequencyLevel u) else acc)
              l2 (frequency_after l1 sn r).
Proof. unfold frequency_after. apply fold_left_app. Qed.

Lemma frequency_after_last l1 u l2 sn r :
  targets u sn r = true ->
  (forall u', In u' l2 -> targets u' sn r = false) ->
  frequency_after (l1 ++ u :: l2) sn r = JNum (Update.frequencyLevel u).
Proof.
  intros Hu Hl2. rewrite frequency_after_app. simpl. rewrite Hu.
  now apply fold_untargeted.
Qed.

Lemma frequency_after_drop l1 u l2 sn r :
  targets u sn r = false ->
  frequency_after (l1 ++ u :: l2) sn r = frequency_after (l1 ++ l2) sn r.
Proof.
  intros Hu. rewrite !frequency_after_app. simpl. now rewrite Hu.
Qed.

Lemma same_but_frequency_with f r : same_but_frequency r (with_frequencyLevel f r).
Proof. repeat split. Qed.

(** C8, as the code has it: with no storage fault the call returns; every
    record keeps all its fields but the frequency level, which becomes that
    of the last update aimed at the record; so an update that no later
    update of the list overrides leaves its record with the given level and
    the other fields as they were, an update whose id is not in its
    collection changes nothing, and a record no update is aimed at stays as
    it is. *)
Theorem updateFrequencyLevels_last_wins (db : DB) (updates : list Update.t) :
  reachable db ->
  let r := updateFrequencyLevels no_faults db updates in
  res_value r = inr tt
  /\ res_db r = refreq_db (frequency_after updates) db
  /\ (forall l1 u l2 rec,
         updates = l1 ++ u :: l2 ->
         find_by_id (update_store u) (Update.id u) db = Some rec ->
         (forall u', In u' l2 -> ~ same_target u' u) ->
         exists rec',
           find_by_id (update_store u) (Update.id u) (res_db r) = Some rec'
           /\ frequencyLevel rec' = JNum (Update.frequencyLevel u)
           /\ same_but_frequency rec rec')
  /\ (forall l1 u l2,
         updates = l1 ++ u :: l2 ->
         find_by_id (update_store u) (Update.id u) db = None ->
         res_db r = res_db (updateFrequencyLevels no_faults db (l1 ++ l2))
         /\ find_by_id (update_store u) (Update.id u) (res_db r) = None)
  /\ (forall sn rec,
         In rec (records (objectStore sn db)) ->
         (forall u, In u updates -> targets u sn rec = false) ->
         In rec (records (objectStore sn (res_db r)))).
Proof.
  intros Hreach r. pose proof (reachable_inv db Hreach) as Hinv.
  destruct (updateFrequencyLevels_no_faults db updates Hinv) as [Hval Hdb].
  fold r in Hval, Hdb. split; [exact Hval|]. split; [exact Hdb|].
  split; [|split].
  - intros l1 u l2 rec Hup Hfind Hlast.
    exists (with_frequencyLevel (frequency_after updates (update_store u) rec) rec).
    rewrite Hdb, find_by_id_refreq, Hfind. simpl. split; [reflexivity|].
    split; [|apply same_but_frequency_with].
    rewrite Hup. apply frequency_after_last.
    + apply find_by_key_in in Hfind as [_ Hk]. unfold targets.
      rewrite (proj2 (StoreName_eqb_iff _ _) eq_refl), Hk. simpl. apply Z.eqb_refl.
    + intros u' Hu'. apply not_true_is_false. intros Ht.
      apply (Hlast u' Hu'). unfold targets in Ht.
      apply andb_true_iff in Ht as [Hs Hk]. apply StoreName_eqb_iff in Hs.
      apply Z.eqb_eq in Hk. apply find_by_key_in in Hfind as [_ Hk'].
      split; [assumption | congruence].
  - intros l1 u l2 Hup Hfind.
    destruct (updateFrequencyLevels_no_faults db (l1 ++ l2) Hinv) as [_ Hdb'].
    split.
    + rewrite Hdb, Hdb', Hup. apply refreq_db_ext. intros sn rec Hrec.
      apply frequency_after_drop. unfold targets.
      destruct (StoreName_eqb (update_store u) sn) eqn:E; [|reflexivity].
      apply StoreName_eqb_iff in E. subst sn.
      pose proof (find_by_key_none _ _ Hfind rec Hrec) as Hne.
      apply Z.eqb_neq in Hne. now rewrite Hne.
    + rewrite Hdb, find_by_id_refreq, Hfind. reflexivity.
  - intros sn rec Hrec Hnone. rewrite Hdb, objectStore_refreq_db. simpl.
    apply in_map_iff. exists rec. split; [|assumption].
    unfold frequency_after. rewrite (fold_untargeted sn rec updates _ Hnone).
    apply with_frequencyLevel_same.
Qed.

Lemma updateFrequencyLevels_last_wins_witness :
  let r := updateFrequencyLevels no_faults sample_db mixed_updates in
  res_value r = inr tt
  /\ exists rec',
      find_by_id WORDS_STORE_NAME 1 (res_db r) = Some rec'
      /\ frequencyLevel rec' = JNum 3
      /\ same_but_frequency (with_id 1 run_verb) rec'.
Proof.
  assert (Hreach : reachable sample_db)
    by apply (@reach_add no_faults empty_db (map Some sample_batch) reach_fresh).
  destruct (updateFrequencyLevels_last_wins sample_db mixed_updates Hreach)
    as (Hval & _ & Hlast & _).
  split; [exact Hval|].
  apply (Hlast [] (Update.mk 1 word 3) [Update.mk 9 idiom 2; Update.mk 2 word 1]
               (with_id 1 run_verb)).
  - reflexivity.
  - reflexivity.
  - intros u' [<-|[<-|[]]] [Hs Hk]; discriminate.
Defined.

(** C8, as stated: the first of two updates for the same word is overridden
    by the second, so the record does not end with the level the first one
    gave. *)
Lemma updateFrequencyLevels_earlier_update_lost :
  reachable sample_db
  /\ In first_update conflicting_updates
  /\ find_by_id (update_store first_update) (Update.id first_update) sample_db
     = Some (with_id 1 run_verb)
  /\ find_by_id (update_store first_update) (Update.id first_update)
       (res_db (updateFrequencyLevels no_faults sample_db conflicting_updates))
     = Some (with_frequencyLevel (JNum 3) (with_id 1 run_verb))
  /\ with_frequencyLevel (JNum 3) (with_id 1 run_verb)
     <> with_frequencyLevel (JNum (Update.frequencyLevel first_update))
          (with_id 1 run_verb).
Proof.
  split; [apply (@reach_add no_faults empty_db (map Some sample_batch) reach_fresh)|].
  split; [left; reflexivity|].
  split; [reflexivity|]. split; [reflexivity|]. discriminate.
Qed.

(** ** Claims about the query engine *)

(** C5: when the fields the query calls string methods on are strings
    (english and japanese when a search text is given, english when the
    order is alphabetical), page [page] (from 1) of size [itemsPerPage]
    (above 0) is the slice [(page-1)*itemsPerPage, page*itemsPerPage) of
    the filtered set sorted in the requested order, and [total] is the
    size of the filtered set; the pages 1 to ceil(total/itemsPerPage), one
    after the other, are the sorted filtered set: each record of the
    filtered set once.  The filtered set holds the stored records that
    satisfy the filters. *)
Theorem getPaginatedVocabulary_pages
        (localeCompare : string -> string -> Z) (toLowerCase : string -> string)
        (db : DB) (filters : Filters.t) (page itemsPerPage : Z) :
  queryable db filters -> (1 <= page)%Z -> (0 < itemsPerPage)%Z ->
  let sorted := sorted_matching localeCompare toLowerCase db filters in
  let total := List.length (matching toLowerCase db filters) in
  (forall k,
      getPaginatedVocabulary localeCompare toLowerCase db page itemsPerPage filters k
      = Some (mkPage (firstn (Z.to_nat itemsPerPage)
                             (skipn (Z.to_nat ((page - 1) * itemsPerPage)) sorted))
                     total, k))
  /\ Permutation sorted (matching toLowerCase db filters)
  /\ ((Filters.sortOrder filters = Some Filters.alphabetical -> consistent localeCompare) ->
      StronglySorted (fun a b => (page_order localeCompare filters a b <= 0)%Z) sorted)
  /\ List.concat
       (map (fun p => page_items (getPaginatedVocabulary localeCompare toLowerCase db
                                    (Z.of_nat p) itemsPerPage filters 0))
            (seq 1 (pages_needed total itemsPerPage)))
     = sorted
  /\ (kept_by_type db ->
      NoDup sorted
      /\ (tier_filter filters ->
          forall r, In r sorted
                    <-> (In r (records (words db)) \/ In r (records (idioms db)))
                        /\ satisfies (found_in toLowerCase) filters r)).
Proof.
  intros Ht Hp Hs sorted total. split; [|split; [|split; [|split]]].
  - intros k. rewrite getPaginatedVocabulary_eval by assumption. cbv zeta.
    rewrite js_slice_page by assumption. unfold sorted, total.
    now rewrite (Permutation_length
                   (sorted_matching_perm localeCompare toLowerCase db filters)).
  - apply sorted_matching_perm.
  - intros Hc. apply sort_pure_sorted. now apply page_order_consistent.
  - now apply pages_cover.
  - intros Hkept. split.
    + apply (Permutation_NoDup (l := matching toLowerCase db filters)).
      * symmetry. apply sorted_matching_perm.
      * now apply matching_NoDup.
    + intros Htier r.
      rewrite <- (in_matching toLowerCase db filters r Hkept Ht Htier). split.
      * apply Permutation_in, sorted_matching_perm.
      * apply Permutation_in. symmetry. apply sorted_matching_perm.
Qed.

Lemma sample_db_queryable filters : queryable sample_db filters.
Proof. split; repeat constructor. Qed.

Lemma sample_db_reachable : reachable sample_db.
Proof. apply (@reach_add no_faults empty_db (map Some sample_batch) reach_fresh). Qed.

Lemma getPaginatedVocabulary_pages_witness :
  getPaginatedVocabulary code_unit_compare ascii_toLowerCase sample_db 2 2 no_filters 0
  = Some (mkPage [with_id 2 run_noun] 3, 0)
  /\ List.concat
       (map (fun p => page_items (getPaginatedVocabulary code_unit_compare
                                    ascii_toLowerCase sample_db
                                    (Z.of_nat p) 2 no_filters 0))
            (seq 1 2))
     = [with_id 1 run_verb; with_pos JNull (with_id 1 run_out); with_id 2 run_noun].
Proof.
  destruct (getPaginatedVocabulary_pages code_unit_compare ascii_toLowerCase sample_db
              no_filters 2 2 (sample_db_queryable no_filters))
    as (Hpage & _ & _ & Hcat & _); [lia | lia |].
  split; [exact (Hpage 0) | exact Hcat].
Defined.

Lemma numbered_db_reachable : reachable numbered_db.
Proof.
  apply (@reach_add no_faults empty_db [Some walk_numbered; Some run_verb] reach_fresh).
Qed.

(** Against C5 as it is stated, for every store state:
    [addVocabularyItems] takes [walk_numbered], whose japanese is the
    number 5, and on the store with it a query with a search text throws
    [TypeError] for every page: it returns no slice and no total. *)
Lemma getPaginatedVocabulary_number_throws :
  reachable numbered_db
  /\ records (words numbered_db) = [with_id 1 walk_numbered; with_id 2 run_verb]
  /\ japanese (with_id 1 walk_numbered) = JNum 5
  /\ (forall page itemsPerPage k,
         getPaginatedVocabulary code_unit_compare ascii_toLowerCase numbered_db
                                page itemsPerPage search_hashiru k = None).
Proof.
  split; [exact numbered_db_reachable|]. split; [reflexivity|]. split; [reflexivity|].
  intros page itemsPerPage k. reflexivity.
Qed.

(** C6: on a store that keeps words and idioms apart by their type and
    whose fields that the query calls string methods on are strings, and
    for a frequency filter that is a tier when given, a record is on some
    page of the paginated query exactly when it is stored and satisfies
    every given filter: level, category and type equal, frequency level
    equal to the tier, and the lower-cased search text a substring of its
    lower-cased english or japanese.  For text in ASCII, on a host whose
    [toLowerCase] maps such text as the language prescribes, that is: the
    search text occurs in english or japanese up to the case of the 26
    letters.  A record on any page is such a record, and such a record is
    on one of the pages numbered from 1. *)
Theorem getPaginatedVocabulary_filter
        (localeCompare : string -> string -> Z) (toLowerCase : string -> string)
        (db : DB) (filters : Filters.t) (itemsPerPage : Z) (r : VocabDBItem) :
  kept_by_type db -> queryable db filters -> tier_filter filters ->
  (0 < itemsPerPage)%Z ->
  let is_stored := In r (records (words db)) \/ In r (records (idioms db)) in
  let on_a_page :=
    exists page,
      In r (page_items (getPaginatedVocabulary localeCompare toLowerCase db page
                          itemsPerPage filters 0)) in
  (on_a_page <-> is_stored /\ satisfies (found_in toLowerCase) filters r)
  /\ (ascii_host toLowerCase -> ascii_text filters r ->
      (on_a_page <-> is_stored /\ satisfies occurs_ci filters r))
  /\ (is_stored /\ satisfies (found_in toLowerCase) filters r ->
      exists page,
        (1 <= page)%Z
        /\ In r (page_items (getPaginatedVocabulary localeCompare toLowerCase db page
                               itemsPerPage filters 0))).
Proof.
  intros Hkept Ht Htier Hs is_stored on_a_page. unfold is_stored, on_a_page.
  rewrite <- (in_matching toLowerCase db filters r Hkept Ht Htier).
  assert (Hback : In r (matching toLowerCase db filters) ->
                  exists page,
                    (1 <= page)%Z
                    /\ In r (page_items (getPaginatedVocabulary localeCompare toLowerCase
                                           db page itemsPerPage filters 0))).
  { intros Hin.
    apply (Permutation_in _ (Permutation_sym
             (sorted_matching_perm localeCompare toLowerCase db filters))) in Hin.
    rewrite <- (pages_cover localeCompare toLowerCase db itemsPerPage filters Ht Hs) in Hin.
    apply in_concat in Hin as (pg & Hpg & Hr).
    apply in_map_iff in Hpg as (p & <- & Hp). apply in_seq in Hp.
    exists (Z.of_nat p). split; [lia | exact Hr]. }
  assert (Hiff : (exists page,
                     In r (page_items (getPaginatedVocabulary localeCompare toLowerCase
                                         db page itemsPerPage filters 0)))
                 <-> In r (matching toLowerCase db filters)).
  { split.
    - intros (page & Hin).
      rewrite getPaginatedVocabulary_eval in Hin by assumption. simpl in Hin.
      apply In_js_slice in Hin.
      apply (Permutation_in _ (sorted_matching_perm localeCompare toLowerCase db filters)
               Hin).
    - intros Hin. destruct (Hback Hin) as (page & _ & H). now exists page. }
  split; [exact Hiff|]. split; [|exact Hback].
  intros Hhost Hascii. rewrite Hiff.
  rewrite (in_matching toLowerCase db filters r Hkept Ht Htier).
  now rewrite (satisfies_ascii toLowerCase filters r Hhost Hascii).
Qed.

Lemma getPaginatedVocabulary_filter_witness :
  exists page,
    In (with_id 1 run_verb)
       (page_items (getPaginatedVocabulary code_unit_compare ascii_toLowerCase sample_db
                      page 1 run_words 0)).
Proof.
  apply (proj1 (proj2 (getPaginatedVocabulary_filter code_unit_compare ascii_toLowerCase
                         sample_db run_words 1 (with_id 1 run_verb)
                         (reachable_kept_by_type sample_db sample_db_reachable)
                         (sample_db_queryable run_words)
                         ltac:(intros n H; discriminate) ltac:(lia)))).
  - intros s _. reflexivity.
  - repeat split; intros s H; injection H as <-; reflexivity.
  - split; [left; left; reflexivity|].
    repeat split; try (intros x H; injection H as <-; reflexivity);
      try (intros x H; discriminate).
    intros s H. injection H as <-. left. exists "run"%string. split; [reflexivity|].
    exists EmptyString, "run"%string, EmptyString. split; [reflexivity|].
    simpl. repeat split; apply same_letterb_iff; reflexivity.
Defined.

(** Against C6 as it is stated, for every stored record: in the store of
    [walk_numbered] and [run_verb] the record of [run_verb] satisfies the
    search for "Hashiru", which is its japanese up to case, and is on no
    page, because the query throws at the record before it. *)
Lemma getPaginatedVocabulary_filter_misses :
  In (with_id 2 run_verb) (records (words numbered_db))
  /\ tier_filter search_hashiru
  /\ satisfies occurs_ci search_hashiru (with_id 2 run_verb)
  /\ satisfies (found_in ascii_toLowerCase) search_hashiru (with_id 2 run_verb)
  /\ ~ (exists page,
          In (with_id 2 run_verb)
             (page_items (getPaginatedVocabulary code_unit_compare ascii_toLowerCase
                            numbered_db page 10 search_hashiru 0))).
Proof.
  split; [right; left; reflexivity|]. split; [intros n H; discriminate|].
  split; [|split].
  - repeat split; try (intros x H; discriminate).
    intros s H. injection H as <-. right. exists "hashiru"%string.
    split; [reflexivity|].
    exists EmptyString, "hashiru"%string, EmptyString. split; [reflexivity|].
    simpl. repeat split; apply same_letterb_iff; reflexivity.
  - repeat split; try (intros x H; discriminate).
    intros s H. injection H as <-. right. exists "hashiru"%string.
    split; [reflexivity|]. now exists EmptyString, EmptyString.
  - intros (page & H). exact H.
Qed.

(** C9: on a store that comes from the migration of [upgrade]: a version
    3 install whose legacy store holds the idiom "run out of" with the
    part of speech Verb.  The migration copies the idiom as it is, with
    its part of speech, where [addVocabularyItems] stores an idiom with
    [pos: null]; with the filter Verb both queries then return that
    idiom, asked for idioms only or for all types, for every run of
    [Math.random]. *)
Theorem pos_filter_returns_migrated_idiom :
  opened (legacy_install 3 legacy_sample) = Some migrated_sample
  /\ records (idioms migrated_sample) = [migrated_idiom]
  /\ pos migrated_idiom = js_pos Verb
  /\ (forall random k,
         getVocabulary random code_unit_compare migrated_sample Beginner DailyLife
                       (Only idiom) (Only Verb) Random 30 None k
         = Some ([migrated_idiom], k))
  /\ (forall random k,
         getAllVocabularyForLevelAndCategory random code_unit_compare migrated_sample
           Beginner DailyLife (Only idiom) (Only Verb) Random None k
         = Some ([migrated_idiom], k))
  /\ (forall random k,
         exists result,
           getVocabulary random code_unit_compare migrated_sample Beginner DailyLife
                         All (Only Verb) Alphabetical 30 None k
           = Some (result, k)
           /\ In migrated_idiom result).
Proof.
  split; [reflexivity|]. split; [reflexivity|]. split; [reflexivity|].
  split; [|split]; intros random k.
  - reflexivity.
  - reflexivity.
  - eexists. split; [reflexivity|]. right. left. reflexivity.
Qed.

(** X27: on a store reachable from the empty one by the exported writers
    (no migration of a legacy store), with a part of speech as the filter,
    [getVocabulary] and [getAllVocabularyForLevelAndCategory] return, for
    every run of [Math.random], only records of the words collection,
    none of the idioms collection; asked for idioms only they return the
    empty list. *)
Theorem pos_filter_excludes_idioms
        (random : nat -> nat * nat) (localeCompare : string -> string -> Z)
        (db : DB) (lvl : Level) (cat : VocabCategory) (vocabType : OrAll VocabType)
        (p : PartOfSpeech) (sortOrder : SortOrder) (count : Z) (freq : option Z)
        (k : nat) :
  reachable db ->
  (exists result k',
      getVocabulary random localeCompare db lvl cat vocabType (Only p)
                    sortOrder count freq k = Some (result, k')
      /\ Forall (fun r => In r (records (words db))
                          /\ ~ In r (records (idioms db))
                          /\ type r = JStr "word") result
      /\ (vocabType = Only idiom -> result = []))
  /\ (exists result k',
         getAllVocabularyForLevelAndCategory random localeCompare db lvl cat
           vocabType (Only p) sortOrder freq k = Some (result, k')
         /\ Forall (fun r => In r (records (words db))
                             /\ ~ In r (records (idioms db))
                             /\ type r = JStr "word") result
         /\ (vocabType = Only idiom -> result = [])).
Proof.
  intros Hreach. pose proof (reachable_inv db Hreach) as Hinv.
  destruct (ordered_selection random localeCompare db lvl cat vocabType p sortOrder
              freq k Hinv) as (l' & k' & Heq & Hall & Hnil).
  split.
  - exists (js_slice l' 0 count), k'. unfold getVocabulary.
    rewrite (qbind_some _ _ _ _ _ Heq). split; [reflexivity|]. split.
    + apply Forall_forall. intros r Hr. apply In_js_slice in Hr.
      rewrite Forall_forall in Hall. now apply Hall.
    + intros Hv. rewrite (Hnil Hv). unfold js_slice. simpl.
      now rewrite firstn_nil.
  - exists l', k'. split; [exact Heq|]. split; assumption.
Qed.

Lemma pos_filter_excludes_idioms_witness :
  exists result k',
    getVocabulary (fun _ => (1, 2)) code_unit_compare sample_db Beginner DailyLife
                  (Only idiom) (Only Verb) Random 30 None 0 = Some (result, k')
    /\ Forall (fun r => In r (records (words sample_db))
                        /\ ~ In r (records (idioms sample_db))
                        /\ type r = JStr "word") result
    /\ (Only idiom = Only idiom -> result = []).
Proof.
  apply (proj1 (pos_filter_excludes_idioms (fun _ => (1, 2)) code_unit_compare
                  sample_db Beginner DailyLife (Only idiom) Verb Random 30 None 0
                  sample_db_reachable)).
Defined.

(** The loop of [getVocabulary] on the three records of the sample store:
    the six equally likely pairs of indices give the six orders, each
    once. *)
Lemma getVocabulary_shuffles_three :
  map (fun draws =>
         option_map (fun r => map existing_name (fst r))
           (getVocabulary (draw_stream draws) code_unit_compare sample_db
                          Beginner DailyLife All All Random 30 None 0))
      three_item_draws
  = [Some [JStr "run-Noun"; JStr "run out of"; JStr "run-Verb"];
     Some [JStr "run out of"; JStr "run-Noun"; JStr "run-Verb"];
     Some [JStr "run out of"; JStr "run-Verb"; JStr "run-Noun"];
     Some [JStr "run-Verb"; JStr "run out of"; JStr "run-Noun"];
     Some [JStr "run-Noun"; JStr "run-Verb"; JStr "run out of"];
     Some [JStr "run-Verb"; JStr "run-Noun"; JStr "run out of"]].
Proof. vm_compute. reflexivity. Qed.

(** C3, at the store with two words and an idiom: [getExistingWords] sorts
    with a comparator that flips a coin; of the eight equally likely
    outcomes of three flips, two give each of the orders that start with
    "run-Verb" and one gives each of the other four, so the orders come
    with probabilities 1/4, 1/4, 1/8, 1/8, 1/8, 1/8 and not 1/6 each. *)
Theorem getExistingWords_order_biased :
  map (fun flips =>
         option_map fst (getExistingWords (coin_stream flips) sample_db
                                          All All All 1500 0))
      three_flips
  = [Some [JStr "run out of"; JStr "run-Noun"; JStr "run-Verb"];
     Some [JStr "run out of"; JStr "run-Verb"; JStr "run-Noun"];
     Some [JStr "run-Verb"; JStr "run out of"; JStr "run-Noun"];
     Some [JStr "run-Verb"; JStr "run out of"; JStr "run-Noun"];
     Some [JStr "run-Noun"; JStr "run out of"; JStr "run-Verb"];
     Some [JStr "run-Noun"; JStr "run-Verb"; JStr "run out of"];
     Some [JStr "run-Verb"; JStr "run-Noun"; JStr "run out of"];
     Some [JStr "run-Verb"; JStr "run-Noun"; JStr "run out of"]].
Proof. vm_compute. reflexivity. Qed.

(** * Further properties *)

(** ** Counting, clearing, annotating *)

Lemma count_after_add fault db items :
  getVocabCount (res_db (addVocabularyItems fault db items))
  = getVocabCount db
    + match res_value (addVocabularyItems fault db items) with
      | inr n => n
      | inl _ => 0
      end.
Proof.
  rewrite addVocabularyItems_body. cbv zeta.
  destruct (outcome (add_body fault items (mkTx db 0))) as [e|n] eqn:E; simpl.
  - lia.
  - destruct (add_body_committed _ _ _ _ E) as (Hout & Hw & _).
    destruct (add_items_grows fault items 0 (mkTx db 0)) as (nw & ni & H1 & H2 & H3).
    unfold getVocabCount. rewrite Hw, H1, H2, !length_app. simpl.
    specialize (H3 n Hout). lia.
Qed.

(** X1: the record count moves by exactly the returned count: a call that
    returns [n] leaves [getVocabCount] higher by [n], a call that fails
    leaves it as it was, and with it the database. *)
Theorem getVocabCount_after_add (fault : FaultPlan) (db : DB)
        (items : list (option VocabDBItem)) :
  let r := addVocabularyItems fault db items in
  getVocabCount (res_db r)
  = getVocabCount db + match res_value r with inr n => n | inl _ => 0 end
  /\ (forall e, res_value r = inl e -> res_db r = db).
Proof.
  intros r. split; [apply count_after_add|].
  unfold r. rewrite addVocabularyItems_body. cbv zeta.
  destruct (outcome (add_body fault items (mkTx db 0))) as [e'|n]; cbn;
    [reflexivity|discriminate].
Qed.

(** *** One candidate, request by request *)

Lemma valid_not_invalid it : valid_record it = true -> invalid_record (Some it) = false.
Proof.
  unfold valid_record, invalid_record, missing. intros H.
  repeat (apply andb_true_iff in H as [H ?]).
  destruct (is_string (english it)); [|discriminate].
  destruct (truthy (english it)); [|discriminate].
  destruct (truthy (japanese it)); [|discriminate].
  destruct (truthy (example_en it)); [|discriminate].
  destruct (truthy (example_jp it)); [|discriminate].
  destruct (truthy (level it)); [|discriminate].
  destruct (truthy (category it)); [|discriminate].
  match goal with Hor : (_ || _)%bool = true |- _ => apply orb_true_iff in Hor as [Hw|Hi] end.
  - apply andb_true_iff in Hw as [Hw Hp]. rewrite Hw, Hp.
    apply strict_eq_iff in Hw. rewrite Hw.
    destruct (includes_parts_valid _ Hp) as [_ Ht]. now rewrite Ht.
  - apply strict_eq_iff in Hi. rewrite Hi. reflexivity.
Qed.

Lemma item_classes item :
  (item_valid item = true /\ item_invalid item = false /\ item_unknown item = false)
  \/ (item_valid item = false /\ item_invalid item = true /\ item_unknown item = false)
  \/ (item_valid item = false /\ item_invalid item = false /\ item_unknown item = true).
Proof.
  destruct item as [it|]; [|right; left; auto].
  unfold item_valid, item_invalid, item_unknown, valid_record, invalid_record,
    unknown_type, missing.
  destruct (is_string (english it)); cbn [negb andb orb]; [|auto].
  destruct (truthy (english it)); cbn [negb andb orb]; [|auto].
  destruct (truthy (japanese it)); cbn [negb andb orb];
    [|rewrite ?andb_false_r, ?orb_true_r; destruct (truthy (type it)); auto].
  destruct (truthy (example_en it)); cbn [negb andb orb];
    [|rewrite ?andb_false_r, ?orb_true_r; destruct (truthy (type it)); auto].
  destruct (truthy (example_jp it)); cbn [negb andb orb];
    [|rewrite ?andb_false_r, ?orb_true_r; destruct (truthy (type it)); auto].
  destruct (truthy (level it)); cbn [negb andb orb];
    [|rewrite ?andb_false_r, ?orb_true_r; destruct (truthy (type it)); auto].
  destruct (truthy (category it)); cbn [negb andb orb];
    [|rewrite ?andb_false_r, ?orb_true_r; destruct (truthy (type it)); auto].
  destruct (strict_eq (type it) (JStr "word")) eqn:Hw; cbn [negb andb orb].
  - apply strict_eq_iff in Hw. rewrite Hw. cbn [truthy strict_eq String.eqb negb andb orb].
    change (truthy (JStr "word")) with true. cbn [negb andb orb].
    rewrite ?andb_false_r.
    destruct (includes PARTS_OF_SPEECH (pos it)) eqn:Hp; cbn [negb andb orb].
    + destruct (includes_parts_valid _ Hp) as [_ Ht]. rewrite Ht. auto.
    + rewrite orb_true_r. auto.
  - destruct (strict_eq (type it) (JStr "idiom")) eqn:Hi; cbn [negb andb orb].
    + apply strict_eq_iff in Hi. rewrite Hi. change (truthy (JStr "idiom")) with true.
      rewrite ?andb_false_r. auto.
    + destruct (truthy (type it)); cbn [negb andb orb]; auto.
Qed.

Lemma add_item_skipped fault item n s :
  item_valid item = false ->
  exists evs,
    add_item fault item n s = mkStep evs (inr n) s
    /\ ((item_invalid item = true /\ exists w, evs = [ConsoleWarn w item])
        \/ (item_invalid item = false /\ evs = [])).
Proof.
  intros Hv. rewrite add_item_plan.
  destruct (item_classes item) as [(H & _) | [(_ & Hi & _) | (_ & Hi & Hu)]].
  - congruence.
  - destruct (invalid_record_plan item Hi) as [w Hp]. rewrite Hp.
    exists [ConsoleWarn w item]. split; [reflexivity|]. left. eauto.
  - destruct item as [it|]; [|discriminate].
    rewrite (unknown_type_plan it Hu). exists []. split; [reflexivity|]. now right.
Qed.

Lemma add_item_valid it n s :
  valid_record it = true ->
  add_item no_faults (Some it) n s
  = match find (has_index_key (target_store it) (unique_key (target_store it) it))
               (records (objectStore (target_store it) (working s))) with
    | Some _ =>
        mkStep [IndexGet (target_store it) (unique_key (target_store it) it)]
               (inr n) (bump s)
    | None =>
        mkStep [IndexGet (target_store it) (unique_key (target_store it) it);
                StoreAdd (target_store it) (stored_form it)]
               (inr (S n))
               (mkTx (append_record (target_store it) (stored_form it) (working s))
                     (S (S (requests s))))
    end.
Proof.
  intros Hv. destruct (valid_record_probe it Hv) as (Hp & Hik & Hid & _ & _).
  rewrite add_item_plan, Hp.
  destruct (find _ _) as [x|] eqn:E.
  - now apply probe_found with (x := x).
  - now apply probe_added.
Qed.

Lemma not_stored_find sn key l :
  ~ In key (map (unique_key sn) l) -> find (has_index_key sn key) l = None.
Proof.
  intros Hn. destruct (find _ _) as [x|] eqn:E; [|reflexivity].
  exfalso. apply Hn. now apply find_stored in E.
Qed.

Lemma addVocabularyItems_fault_free db items :
  res_db (addVocabularyItems no_faults db items)
  = working (post (add_items no_faults items 0 (mkTx db 0)))
  /\ res_value (addVocabularyItems no_faults db items)
     = outcome (add_items no_faults items 0 (mkTx db 0))
  /\ res_events (addVocabularyItems no_faults db items)
     = TxBegin vocab_scope readwrite
         :: emitted (add_items no_faults items 0 (mkTx db 0)) ++ [TxDone].
Proof.
  destruct (no_faults_succeed _ _ (add_items_accounted no_faults items 0 (mkTx db 0)))
    as [n Hn].
  unfold addVocabularyItems. cbv zeta. rewrite Hn. cbn. auto.
Qed.

(** *** What a fault-free call stores *)

Lemma add_items_stores items : forall n s k,
  stored (working (post (add_items no_faults items n s))) k
  <-> stored (working s) k
      \/ exists it, In (Some it) items /\ valid_record it = true /\ uniqueness_key it = k.
Proof.
  induction items as [|item rest IH]; intros n s k; simpl.
  - split; [auto|]. intros [H | (it & [] & _)]. exact H.
  - destruct (item_valid item) eqn:Hv.
    + destruct item as [it|]; [|discriminate]. simpl in Hv.
      pose proof (add_item_valid it n s Hv) as Hstep.
      destruct (valid_record_probe it Hv) as (_ & _ & _ & Hval & Hkey).
      destruct (find _ _) as [x|] eqn:E.
      * rewrite (bind_inr _ Hstep). cbn [post]. rewrite IH. simpl.
        split.
        -- intros [H | (it' & Hin & Hv' & Hk)]; [now left|].
           right. exists it'. auto.
        -- intros [H | (it' & [Heq | Hin] & Hv' & Hk)]; [now left| |].
           ++ injection Heq as <-. left. rewrite <- Hk. apply find_stored in E. exact E.
           ++ right. exists it'. auto.
      * rewrite (bind_inr _ Hstep). cbn [post]. rewrite IH. cbn [working].
        rewrite stored_append, Hkey. split.
        -- intros [[H | H] | (it' & Hin & Hv' & Hk)].
           ++ now left.
           ++ right. exists it. auto.
           ++ right. exists it'. auto.
        -- intros [H | (it' & [Heq | Hin] & Hv' & Hk)].
           ++ left. now left.
           ++ injection Heq as <-. left. right. now rewrite <- Hk.
           ++ right. exists it'. auto.
    + destruct (add_item_skipped no_faults item n s Hv) as (evs & Hstep & _).
      rewrite (bind_inr _ Hstep). cbn [post]. rewrite IH. split.
      * intros [H | (it' & Hin & Hv' & Hk)]; [now left|]. right. exists it'. auto.
      * intros [H | (it' & [Heq | Hin] & Hv' & Hk)]; [now left| |].
        -- subst item. simpl in Hv. congruence.
        -- right. exists it'. auto.
Qed.

(** X2: after a fault-free call a uniqueness key is stored exactly when it
    was stored before or is the key of a valid candidate: every valid
    candidate ends up in its collection (as a new record or as the one that
    was there), and nothing else appears. *)
Theorem addVocabularyItems_stores (db : DB) (items : list (option VocabDBItem))
        (k : StoreName * list jsval) :
  stored (res_db (addVocabularyItems no_faults db items)) k
  <-> stored db k
      \/ exists it, In (Some it) items /\ valid_record it = true /\ uniqueness_key it = k.
Proof.
  destruct (addVocabularyItems_fault_free db items) as (-> & _).
  apply add_items_stores.
Qed.

Lemma add_items_events items : forall n s,
  let r := add_items no_faults items n s in
  List.length (filter is_console_warn (emitted r))
  = List.length (filter item_invalid items)
  /\ List.length (filter is_index_get (emitted r))
     = List.length (filter item_valid items)
  /\ exists m, outcome r = inr m /\ m <= n + List.length (filter item_valid items).
Proof.
  induction items as [|item rest IH]; intros n s; simpl.
  - repeat split. exists n. split; [reflexivity|lia].
  - destruct (item_valid item) eqn:Hv.
    + destruct item as [it|]; [|discriminate]. simpl in Hv.
      pose proof (add_item_valid it n s Hv) as Hstep.
      assert (Hi : item_invalid (Some it) = false) by now apply valid_not_invalid.
      rewrite Hi.
      destruct (find _ _) as [x|]; rewrite (bind_inr _ Hstep);
        cbn [emitted outcome]; rewrite !filter_app, !length_app;
        match goal with
        | |- context [add_items no_faults rest ?n' ?s'] =>
            destruct (IH n' s') as (H1 & H2 & m & H3 & H4)
        end; rewrite H1, H2; simpl; (split; [reflexivity|]); (split; [reflexivity|]);
        exists m; (split; [exact H3|lia]).
    + destruct (add_item_skipped no_faults item n s Hv) as (evs & Hstep & Hevs).
      rewrite (bind_inr _ Hstep). cbn [emitted outcome].
      rewrite !filter_app, !length_app.
      destruct (IH n s) as (H1 & H2 & m & H3 & H4). rewrite H1, H2.
      destruct Hevs as [(Hi & w & ->) | (Hi & ->)]; rewrite Hi; simpl;
        (split; [reflexivity|]); (split; [reflexivity|]); exists m; auto.
Qed.

(** X3: every candidate is of exactly one of three classes, valid, invalid
    or of unknown type, and a fault-free call warns once for each invalid
    candidate, probes the unique index once for each valid one, and
    returns a count that is at most the number of valid candidates. *)
Theorem addVocabularyItems_accounting (db : DB) (items : list (option VocabDBItem)) :
  let r := addVocabularyItems no_faults db items in
  List.length items
  = List.length (filter item_valid items) + List.length (filter item_invalid items)
    + List.length (filter item_unknown items)
  /\ List.length (filter is_console_warn (res_events r))
     = List.length (filter item_invalid items)
  /\ List.length (filter is_index_get (res_events r))
     = List.length (filter item_valid items)
  /\ exists n, res_value r = inr n /\ n <= List.length (filter item_valid items).
Proof.
  intros r. unfold r. clear r.
  destruct (addVocabularyItems_fault_free db items) as (_ & Hval & Hev).
  rewrite Hval, Hev.
  destruct (add_items_events items 0 (mkTx db 0)) as (H1 & H2 & m & H3 & H4).
  split; [|split; [|split]].
  - clear. induction items as [|item rest IH]; [reflexivity|]. simpl.
    destruct (item_classes item) as [(-> & -> & ->) | [(-> & -> & ->) | (-> & -> & ->)]];
      simpl; lia.
  - cbn [filter is_console_warn]. rewrite filter_app, length_app. simpl. lia.
  - cbn [filter is_index_get]. rewrite filter_app, length_app. simpl. lia.
  - exists m. split; [exact H3|exact H4].
Qed.

(** *** clearDatabase *)

Lemma db_clear_outcome fault sn db :
  match clear_rejected fault with
  | Some e =>
      res_value (db_clear fault sn db) = inl e
      /\ res_db (db_clear fault sn db) = db
      /\ ~ In (ConsoleLog "Database cleared.") (res_events (db_clear fault sn db))
  | None =>
      res_value (db_clear fault sn db) = inr tt
      /\ res_db (db_clear fault sn db)
         = set_objectStore sn (mkStore [] (keyGen (objectStore sn db))) db
      /\ ~ In (ConsoleLog "Database cleared.") (res_events (db_clear fault sn db))
  end.
Proof.
  unfold clear_rejected, db_clear, store_clear, tx_done, bind, request, get_working,
    set_working.
  destruct (fault 0) as [e|] eqn:E0; cbn.
  - rewrite E0. cbn. repeat split. intros [H | [H | [H | []]]]; discriminate.
  - rewrite E0. cbn. destruct (fault 1) as [e|] eqn:E1; cbn.
    + repeat split. intros [H | [H | [H | [H | []]]]]; discriminate.
    + repeat split. intros [H | [H | [H | []]]]; discriminate.
Qed.

(** X4: [clearDatabase] is two transactions, not one.  When a request of
    the first is rejected nothing changes; when the first goes through and
    a request of the second is rejected, the words are gone, the idioms
    are all still there and the error is passed on; when both go through
    both collections are empty, their key generators where they were.
    "Database cleared." is logged, as the last event, in the third case
    only. *)
Theorem clearDatabase_outcome (fault1 fault2 : FaultPlan) (db : DB) :
  let r := clearDatabase fault1 fault2 db in
  match clear_rejected fault1, clear_rejected fault2 with
  | Some e, _ => res_value r = inl e /\ res_db r = db
  | None, Some e =>
      res_value r = inl e
      /\ res_db r = mkDB (mkStore [] (keyGen (words db))) (idioms db)
  | None, None =>
      res_value r = inr tt
      /\ res_db r = mkDB (mkStore [] (keyGen (words db)))
                         (mkStore [] (keyGen (idioms db)))
      /\ last_event (res_events r) = Some (ConsoleLog "Database cleared.")
  end
  /\ (In (ConsoleLog "Database cleared.") (res_events r) <-> res_value r = inr tt).
Proof.
  intros r. unfold r, clearDatabase. clear r. cbv zeta.
  pose proof (db_clear_outcome fault1 WORDS_STORE_NAME db) as H1.
  destruct (clear_rejected fault1) as [e1|].
  - destruct H1 as (V1 & D1 & L1). rewrite V1. split; [auto|].
    split; [intros H; contradiction|]. rewrite V1. discriminate.
  - destruct H1 as (V1 & D1 & L1). rewrite V1, D1.
    pose proof (db_clear_outcome fault2 IDIOMS_STORE_NAME
                  (set_objectStore WORDS_STORE_NAME
                     (mkStore [] (keyGen (objectStore WORDS_STORE_NAME db))) db)) as H2.
    destruct (clear_rejected fault2) as [e2|].
    + destruct H2 as (V2 & D2 & L2). rewrite V2. cbn [res_value res_db res_events].
      rewrite D2. split; [split; reflexivity|].
      split; [|discriminate]. intros H. apply in_app_or in H as [H | H]; contradiction.
    + destruct H2 as (V2 & D2 & L2). rewrite V2. cbn [res_value res_db res_events].
      rewrite D2. split.
      * split; [reflexivity|]. split; [reflexivity|].
        unfold last_event. rewrite !map_app, app_assoc. simpl.
        now rewrite last_last.
      * split; [reflexivity|]. intros _. apply in_or_app. right.
        apply in_or_app. right. now left.
Qed.

(** *** New records and their keys *)

Lemma add_items_fresh l : forall n s,
  Forall (fun it => valid_record it = true) l ->
  NoDup (map uniqueness_key l) ->
  (forall it, In it l -> ~ stored (working s) (uniqueness_key it)) ->
  outcome (add_items no_faults (map Some l) n s) = inr (n + List.length l)
  /\ working (post (add_items no_faults (map Some l) n s)) = append_all l (working s).
Proof.
  induction l as [|it l IH]; intros n s Hvalid Hnd Hfresh; simpl.
  - split; [f_equal; lia|reflexivity].
  - inversion Hvalid as [|? ? Hv Hvalid']; subst.
    inversion Hnd as [|? ? Hnotin Hnd']; subst.
    destruct (valid_record_probe it Hv) as (_ & _ & _ & _ & Hkey).
    pose proof (add_item_valid it n s Hv) as Hstep.
    assert (Hnone : find (has_index_key (target_store it)
                                        (unique_key (target_store it) it))
                      (records (objectStore (target_store it) (working s))) = None).
    { apply not_stored_find. exact (Hfresh it (or_introl eq_refl)). }
    rewrite Hnone in Hstep.
    rewrite (bind_inr _ Hstep). cbn [outcome post].
    match goal with
    | |- context [add_items no_faults (map Some l) ?n' ?s'] =>
        destruct (IH n' s' Hvalid' Hnd') as (Hout & Hw)
    end.
    + intros it' Hin Hst. cbn [working] in Hst.
      apply stored_append in Hst as [Hst | Hst].
      * apply (Hfresh it' (or_intror Hin) Hst).
      * apply Hnotin. rewrite Hkey in Hst.
        change (target_store it, unique_key (target_store it) it)
          with (uniqueness_key it) in Hst.
        rewrite <- Hst. now apply in_map.
    + rewrite Hout, Hw. split; [f_equal; lia|reflexivity].
Qed.

Lemma addVocabularyItems_fresh db l :
  Forall (fun it => valid_record it = true) l ->
  NoDup (map uniqueness_key l) ->
  (forall it, In it l -> ~ stored db (uniqueness_key it)) ->
  res_value (addVocabularyItems no_faults db (map Some l)) = inr (List.length l)
  /\ res_db (addVocabularyItems no_faults db (map Some l)) = append_all l db.
Proof.
  intros Hv Hnd Hfresh.
  destruct (addVocabularyItems_fault_free db (map Some l)) as (-> & -> & _).
  destruct (add_items_fresh l 0 (mkTx db 0) Hv Hnd Hfresh) as (-> & ->). auto.
Qed.

Lemma objectStore_append_same sn data db :
  objectStore sn (append_record sn data db)
  = mkStore (records (objectStore sn db) ++ [with_id (keyGen (objectStore sn db)) data])
            (keyGen (objectStore sn db) + 1).
Proof. destruct sn; reflexivity. Qed.

Lemma objectStore_append_other sn sn' data db :
  sn <> sn' -> objectStore sn' (append_record sn data db) = objectStore sn' db.
Proof. destruct sn, sn'; intros H; try reflexivity; now elim H. Qed.

Lemma find_by_key_last k v l :
  (forall r, In r l -> primary_key r <> k) ->
  find (fun r => (primary_key r =? k)%Z) (l ++ [with_id k v]) = Some (with_id k v).
Proof.
  induction l as [|r l IH]; intros H; simpl.
  - now rewrite Z.eqb_refl.
  - destruct (Z.eqb_spec (primary_key r) k) as [E|E].
    + exfalso. now apply (H r (or_introl eq_refl)).
    + apply IH. intros r' Hin. apply H. now right.
Qed.

Lemma find_app_some {A} (p : A -> bool) l1 l2 x :
  find p l1 = Some x -> find p (l1 ++ l2) = Some x.
Proof.
  induction l1 as [|a l1 IH]; simpl; [discriminate|].
  destruct (p a); auto.
Qed.

Lemma In_getAllVocabulary db r :
  In r (getAllVocabulary db) <-> exists sn, In r (records (objectStore sn db)).
Proof.
  unfold getAllVocabulary. rewrite in_app_iff. split.
  - intros [H | H]; [exists WORDS_STORE_NAME | exists IDIOMS_STORE_NAME]; exact H.
  - intros [[|] H]; [left | right]; exact H.
Qed.

(** X5: insert and look up.  A valid candidate whose key is not stored is
    added under the next key [k] of its collection, whatever [id] it came
    with; [store.get(k)] then returns it, in the form it was stored in
    (without the candidate's id, an idiom with [pos] null), every record
    that was there before is still returned under its key, and
    [getAllVocabulary] lists the old records and the new one. *)
Theorem added_record_found (db : DB) (it : VocabDBItem) :
  reachable db -> valid_record it = true -> ~ stored db (uniqueness_key it) ->
  let sn := target_store it in
  let k := keyGen (objectStore sn db) in
  let r := addVocabularyItems no_faults db [Some it] in
  res_value r = inr 1
  /\ find_by_id sn k (res_db r) = Some (with_id k (stored_form it))
  /\ (forall sn' k' old,
         find_by_id sn' k' db = Some old -> find_by_id sn' k' (res_db r) = Some old)
  /\ (forall x, In x (getAllVocabulary (res_db r))
                <-> In x (getAllVocabulary db) \/ x = with_id k (stored_form it)).
Proof.
  intros Hreach Hv Hfresh sn k r.
  assert (Hinv : store_inv db) by now apply reachable_inv.
  destruct (addVocabularyItems_fresh db [it]) as (Hval & Hdb).
  { now constructor. }
  { simpl. constructor; [simpl; tauto|constructor]. }
  { intros it' [<- | []]. exact Hfresh. }
  unfold r. change [Some it] with (map Some [it]). rewrite Hval, Hdb.
  cbn [append_all fold_left]. fold sn.
  assert (Hkeys : forall old, In old (records (objectStore sn db)) -> primary_key old <> k).
  { intros old Hin.
    assert (Hok : store_ok sn (objectStore sn db)) by (destruct sn; apply Hinv).
    pose proof (ok_keys Hok) as Hk. rewrite Forall_forall in Hk.
    apply Hk in Hin. apply has_key_below_primary in Hin. fold k in Hin. lia. }
  split; [reflexivity|]. split; [|split].
  - unfold find_by_id. rewrite objectStore_append_same. cbn [records]. fold k.
    now apply find_by_key_last.
  - intros sn' k' old Hold. unfold find_by_id in *.
    destruct (StoreName_eqb sn sn') eqn:E.
    + apply StoreName_eqb_iff in E. subst sn'. rewrite objectStore_append_same.
      cbn [records]. now apply find_app_some.
    + rewrite objectStore_append_other; [exact Hold|].
      intros ->. destruct sn'; discriminate.
  - intros x. rewrite !In_getAllVocabulary. split.
    + intros [sn' Hin]. destruct (StoreName_eqb sn sn') eqn:E.
      * apply StoreName_eqb_iff in E. subst sn'.
        rewrite objectStore_append_same in Hin. cbn [records] in Hin.
        apply in_app_or in Hin as [Hin | [Hin | []]]; [left; eauto | right; auto].
      * rewrite objectStore_append_other in Hin; [left; eauto|].
        intros ->. destruct sn'; discriminate.
    + intros [[sn' Hin] | ->].
      * exists sn'. destruct (StoreName_eqb sn sn') eqn:E.
        -- apply StoreName_eqb_iff in E. subst sn'. rewrite objectStore_append_same.
           cbn [records]. apply in_or_app. now left.
        -- rewrite objectStore_append_other; [exact Hin|].
           intros ->. destruct sn'; discriminate.
      * exists sn. rewrite objectStore_append_same. cbn [records].
        apply in_or_app. right. now left.
Qed.

Lemma added_record_found_witness :
  find_by_id WORDS_STORE_NAME 3
    (res_db (addVocabularyItems no_faults sample_db [Some jog_verb]))
  = Some (with_id 3 (without_id jog_verb)).
Proof.
  assert (Hfresh : ~ stored sample_db (uniqueness_key jog_verb)).
  { vm_compute. intros [H | [H | []]]; discriminate. }
  exact (proj1 (proj2 (added_record_found sample_db jog_verb sample_db_reachable
                         eq_refl Hfresh))).
Defined.

(** X6: keys are not handed out twice.  After the database was cleared
    the first record added to a collection gets the key the collection
    would have handed out next before the clearing, a key above that of
    every record the collection held. *)
Theorem keys_not_reused (db : DB) (it : VocabDBItem) :
  reachable db -> valid_record it = true ->
  let sn := target_store it in
  let k := keyGen (objectStore sn db) in
  let cleared := res_db (clearDatabase no_faults no_faults db) in
  let r := addVocabularyItems no_faults cleared [Some it] in
  getAllVocabulary cleared = []
  /\ res_value r = inr 1
  /\ getAllVocabulary (res_db r) = [with_id k (stored_form it)]
  /\ (forall old, In old (records (objectStore sn db)) -> (primary_key old < k)%Z).
Proof.
  intros Hreach Hv sn k cleared r.
  assert (Hinv : store_inv db) by now apply reachable_inv.
  assert (Hc : cleared = mkDB (mkStore [] (keyGen (words db)))
                              (mkStore [] (keyGen (idioms db)))) by reflexivity.
  split; [now rewrite Hc|].
  destruct (addVocabularyItems_fresh cleared [it]) as (Hval & Hdb).
  { now constructor. }
  { simpl. constructor; [simpl; tauto|constructor]. }
  { intros it' _. rewrite Hc. unfold stored. destruct (fst (uniqueness_key it')); simpl; tauto. }
  unfold r. change [Some it] with (map Some [it]). rewrite Hval, Hdb, Hc.
  split; [reflexivity|]. split.
  - cbn [append_all fold_left]. unfold k, sn. destruct (target_store it); reflexivity.
  - intros old Hin.
    assert (Hok : store_ok sn (objectStore sn db)) by (destruct sn; apply Hinv).
    pose proof (ok_keys Hok) as Hk. rewrite Forall_forall in Hk.
    apply Hk in Hin. apply has_key_below_primary in Hin. fold k in Hin. lia.
Qed.

Lemma keys_not_reused_witness :
  getAllVocabulary
    (res_db (addVocabularyItems no_faults
               (res_db (clearDatabase no_faults no_faults sample_db))
               [Some run_noun]))
  = [with_id 3 run_noun].
Proof.
  exact (proj1 (proj2 (proj2 (keys_not_reused sample_db run_noun
                                sample_db_reachable eq_refl)))).
Defined.

(** *** Annotation *)

Lemma fold_targeted sn r l : forall acc acc',
  existsb (fun u => targets u sn r) l = true ->
  fold_left (fun acc u => if targets u sn r then JNum (Update.frequencyLevel u) else acc)
            l acc
  = fold_left (fun acc u => if targets u sn r then JNum (Update.frequencyLevel u) else acc)
              l acc'.
Proof.
  induction l as [|u l IH]; intros acc acc' H; simpl in *; [discriminate|].
  destruct (targets u sn r); simpl in H; [reflexivity|]. now apply IH.
Qed.

Lemma fold_targeted_num sn r l : forall acc,
  existsb (fun u => targets u sn r) l = true ->
  exists n,
    fold_left (fun acc u => if targets u sn r then JNum (Update.frequencyLevel u) else acc)
              l acc = JNum n.
Proof.
  induction l as [|u l IH]; intros acc H; simpl in *; [discriminate|].
  destruct (targets u sn r) eqn:E; simpl in H.
  - destruct (existsb (fun u => targets u sn r) l) eqn:E'.
    + now apply IH.
    + exists (Update.frequencyLevel u). apply fold_untargeted.
      intros u' Hin. destruct (targets u' sn r) eqn:E''; [|reflexivity].
      assert (existsb (fun u => targets u sn r) l = true)
        by (apply existsb_exists; eauto).
      congruence.
  - now apply IH.
Qed.

Lemma frequency_after_cases updates sn r :
  (existsb (fun u => targets u sn r) updates = false
   /\ frequency_after updates sn r = frequencyLevel r)
  \/ (existsb (fun u => targets u sn r) updates = true
      /\ exists n, frequency_after updates sn r = JNum n).
Proof.
  destruct (existsb (fun u => targets u sn r) updates) eqn:E.
  - right. split; [reflexivity|]. now apply fold_targeted_num.
  - left. split; [reflexivity|]. apply fold_untargeted.
    intros u Hin. destruct (targets u sn r) eqn:E'; [|reflexivity].
    assert (existsb (fun u => targets u sn r) updates = true)
      by (apply existsb_exists; eauto).
    congruence.
Qed.

Lemma frequency_after_fixed updates sn r :
  frequency_after updates sn (with_frequencyLevel (frequency_after updates sn r) r)
  = frequency_after updates sn r.
Proof.
  change (frequency_after updates sn
            (with_frequencyLevel (frequency_after updates sn r) r))
    with (fold_left (fun acc u => if targets u sn r
                                  then JNum (Update.frequencyLevel u) else acc)
                    updates (frequency_after updates sn r)).
  destruct (existsb (fun u => targets u sn r) updates) eqn:E.
  - now apply fold_targeted.
  - apply fold_untargeted.
    intros u Hin. destruct (targets u sn r) eqn:E'; [|reflexivity].
    assert (existsb (fun u => targets u sn r) updates = true)
      by (apply existsb_exists; eauto).
    congruence.
Qed.

Lemma refreq_db_twice updates db :
  refreq_db (frequency_after updates) (refreq_db (frequency_after updates) db)
  = refreq_db (frequency_after updates) db.
Proof.
  unfold refreq_db, refreq. cbn [records keyGen words idioms].
  rewrite !map_map. f_equal; f_equal; apply map_ext; intros r;
    rewrite frequency_after_fixed; apply with_frequencyLevel_twice.
Qed.

(** X7: a batch of updates that went through may be sent again: the
    second call, whether its requests are served or one of them is
    rejected, leaves the database exactly as the first call left it. *)
Theorem updateFrequencyLevels_again (fault1 fault2 : FaultPlan) (db : DB)
        (updates : list Update.t) :
  reachable db ->
  res_value (updateFrequencyLevels fault1 db updates) = inr tt ->
  res_db (updateFrequencyLevels fault2
            (res_db (updateFrequencyLevels fault1 db updates)) updates)
  = res_db (updateFrequencyLevels fault1 db updates).
Proof.
  intros Hreach Hok.
  assert (Hinv : store_inv db) by now apply reachable_inv.
  destruct (updateFrequencyLevels_spec fault1 db updates Hinv) as (Hinv1 & _ & Hdb1).
  specialize (Hdb1 Hok).
  destruct (updateFrequencyLevels_spec fault2 _ updates Hinv1) as (_ & Hfail & Hdb2).
  destruct (res_value (updateFrequencyLevels fault2 _ updates)) as [e|[]] eqn:E.
  - now destruct (Hfail e eq_refl).
  - rewrite (Hdb2 eq_refl), Hdb1. apply refreq_db_twice.
Qed.

Lemma updateFrequencyLevels_again_witness :
  res_db (updateFrequencyLevels fail_second
            (res_db (updateFrequencyLevels no_faults sample_db mixed_updates))
            mixed_updates)
  = res_db (updateFrequencyLevels no_faults sample_db mixed_updates).
Proof.
  exact (updateFrequencyLevels_again no_faults fail_second sample_db mixed_updates
           sample_db_reachable eq_refl).
Defined.

Lemma In_refreq_db sn g db r' :
  In r' (records (objectStore sn (refreq_db g db)))
  <-> exists r, In r (records (objectStore sn db))
                /\ r' = with_frequencyLevel (g sn r) r.
Proof.
  rewrite objectStore_refreq_db. unfold refreq. cbn [records]. rewrite in_map_iff.
  split; intros (r & H1 & H2); exists r; auto.
Qed.

Lemma In_getItemsWithoutFrequency db r :
  In r (getItemsWithoutFrequency db)
  <-> (exists sn, In r (records (objectStore sn db))) /\ frequencyLevel r = JUndefined.
Proof.
  unfold getItemsWithoutFrequency. rewrite filter_In.
  change (records (words db) ++ records (idioms db)) with (getAllVocabulary db).
  now rewrite In_getAllVocabulary, strict_eq_iff.
Qed.

(** X8: [updateFrequencyLevels] never takes an annotation away.  Whatever
    the updates and whichever request is rejected, a record that is
    without a frequency level after the call was in the database before
    the call, as it is, without a frequency level; and the number of
    records does not change. *)
Theorem updateFrequencyLevels_keeps_annotations (fault : FaultPlan) (db : DB)
        (updates : list Update.t) :
  reachable db ->
  let after := res_db (updateFrequencyLevels fault db updates) in
  (forall r, In r (getItemsWithoutFrequency after) -> In r (getItemsWithoutFrequency db))
  /\ getVocabCount after = getVocabCount db.
Proof.
  intros Hreach after. unfold after. clear after.
  assert (Hinv : store_inv db) by now apply reachable_inv.
  destruct (updateFrequencyLevels_spec fault db updates Hinv) as (_ & Hfail & Hdb).
  destruct (res_value (updateFrequencyLevels fault db updates)) as [e|[]] eqn:E.
  - destruct (Hfail e eq_refl) as [Heq _]. rewrite Heq in *. auto.
  - rewrite (Hdb eq_refl) in *. split.
    + intros r Hin.
      apply In_getItemsWithoutFrequency in Hin as [[sn Hin] Hf].
      apply In_refreq_db in Hin as (r0 & Hin0 & ->).
      cbn [frequencyLevel with_frequencyLevel] in Hf.
      destruct (frequency_after_cases updates sn r0) as [(_ & Hc) | (_ & n & Hc)].
      * rewrite Hc. rewrite with_frequencyLevel_same.
        apply In_getItemsWithoutFrequency. split; [eauto|congruence].
      * rewrite Hc in Hf. discriminate.
    + unfold getVocabCount, refreq_db, refreq. cbn [records words idioms].
      now rewrite !length_map.
Qed.

Lemma updateFrequencyLevels_keeps_annotations_witness :
  (forall r,
      In r (getItemsWithoutFrequency
              (res_db (updateFrequencyLevels fail_second sample_db mixed_updates))) ->
      In r (getItemsWithoutFrequency sample_db))
  /\ getVocabCount (res_db (updateFrequencyLevels fail_second sample_db mixed_updates))
     = getVocabCount sample_db.
Proof.
  exact (updateFrequencyLevels_keeps_annotations fail_second sample_db mixed_updates
           sample_db_reachable).
Defined.

Lemma aimed_at_targets db sn u r :
  store_inv db -> In r (records (objectStore sn db)) -> aimed_at u r ->
  targets u sn r = true.
Proof.
  intros Hinv Hin [Hid Hty].
  assert (Hok : store_ok sn (objectStore sn db)) by (destruct sn; apply Hinv).
  pose proof (ok_records Hok) as Hrec. rewrite Forall_forall in Hrec.
  specialize (Hrec r Hin). unfold targets, update_store.
  rewrite Hid, Z.eqb_refl, andb_true_r.
  destruct sn; destruct Hrec as (_ & _ & Ht); rewrite Ht in Hty;
    destruct (Update.type u); try discriminate; reflexivity.
Qed.

Lemma refreq_covers db updates :
  store_inv db ->
  (forall r, In r (getItemsWithoutFrequency db) ->
             exists u, In u updates /\ aimed_at u r) ->
  getItemsWithoutFrequency (refreq_db (frequency_after updates) db) = [].
Proof.
  intros Hinv Hcover.
  destruct (getItemsWithoutFrequency (refreq_db (frequency_after updates) db))
    as [|r' rest] eqn:E; [reflexivity|].
  exfalso.
  assert (Hin : In r' (getItemsWithoutFrequency (refreq_db (frequency_after updates) db)))
    by (rewrite E; now left).
  apply In_getItemsWithoutFrequency in Hin as [[sn Hin] Hf].
  apply In_refreq_db in Hin as (r0 & Hin0 & ->).
  cbn [frequencyLevel with_frequencyLevel] in Hf.
  destruct (frequency_after_cases updates sn r0) as [(Hno & Hc) | (_ & n & Hc)].
  - rewrite Hc in Hf.
    destruct (Hcover r0) as (u & Hu & Haim).
    { apply In_getItemsWithoutFrequency. eauto. }
    pose proof (aimed_at_targets db sn u r0 Hinv Hin0 Haim) as Ht.
    assert (existsb (fun u => targets u sn r0) updates = true)
      by (apply existsb_exists; eauto).
    congruence.
  - rewrite Hc in Hf. discriminate.
Qed.

(** X9: annotating everything.  When the updates hold, for every record
    [getItemsWithoutFrequency] returns, an update with the record's id and
    type, a fault-free call leaves no record without a frequency level. *)
Theorem annotation_completes (db : DB) (updates : list Update.t) :
  reachable db ->
  (forall r, In r (getItemsWithoutFrequency db) ->
             exists u, In u updates /\ aimed_at u r) ->
  let res := updateFrequencyLevels no_faults db updates in
  res_value res = inr tt /\ getItemsWithoutFrequency (res_db res) = [].
Proof.
  intros Hreach Hcover res.
  assert (Hinv : store_inv db) by now apply reachable_inv.
  destruct (updateFrequencyLevels_no_faults db updates Hinv) as (Hval & Hdb).
  split; [exact Hval|]. unfold res. rewrite Hdb. now apply refreq_covers.
Qed.

Lemma annotation_completes_witness :
  getItemsWithoutFrequency
    (res_db (updateFrequencyLevels no_faults sample_db annotate_all)) = [].
Proof.
  refine (proj2 (annotation_completes sample_db annotate_all sample_db_reachable _)).
  intros r Hr. vm_compute in Hr.
  destruct Hr as [<- | [<- | [<- | []]]].
  - exists (Update.mk 1 word 2). split; [simpl; auto|split; reflexivity].
  - exists (Update.mk 2 word 1). split; [simpl; auto|split; reflexivity].
  - exists (Update.mk 1 idiom 3). split; [simpl; auto|split; reflexivity].
Defined.

(** ** The study queries *)

Lemma in_select_items db lvl cat vocabType posFilter freq r :
  In r (select_items db lvl cat vocabType posFilter freq)
  <-> selected db lvl cat vocabType posFilter freq r.
Proof.
  unfold select_items, selected, getAllFromIndex_level_category.
  assert (Hbase : forall l1 l2,
    In r (l1 ++ l2) <-> In r l1 \/ In r l2) by (intros; apply in_app_iff).
  set (p0 := fun r0 => strict_eq (level r0) (js_level lvl)
                       && strict_eq (category r0) (js_category cat)).
  assert (Hp0 : forall l, In r (filter p0 l)
                          <-> In r l /\ level r = js_level lvl
                              /\ category r = js_category cat).
  { intros l. rewrite filter_In. unfold p0. rewrite andb_true_iff, !strict_eq_iff.
    tauto. }
  assert (Hsel : In r ((if selects idiom vocabType
                        then (if selects word vocabType
                              then [] ++ filter p0 (records (words db)) else [])
                             ++ filter p0 (records (idioms db))
                        else if selects word vocabType
                             then [] ++ filter p0 (records (words db)) else []))
                 <-> ((selects word vocabType = true /\ In r (records (words db)))
                      \/ (selects idiom vocabType = true /\ In r (records (idioms db))))
                     /\ level r = js_level lvl /\ category r = js_category cat).
  { destruct (selects word vocabType), (selects idiom vocabType);
      cbn [app]; rewrite ?Hbase, ?Hp0; simpl; intuition discriminate. }
  assert (Hpos : forall l,
            In r (match posFilter with
                  | Only p => filter (fun item => strict_eq (pos item) (js_pos p)) l
                  | All => l
                  end)
            <-> In r l /\ (forall p, posFilter = Only p -> pos r = js_pos p)).
  { intros l. destruct posFilter as [|p].
    - split; [intros H; split; [exact H|discriminate]|tauto].
    - rewrite filter_In, strict_eq_iff. split.
      + intros [H1 H2]. split; [exact H1|]. intros p' Hp'. now injection Hp' as <-.
      + intros [H1 H2]. split; [exact H1|]. now apply H2. }
  destruct freq as [n|]; cbn [js_opt truthy].
  - destruct (Z.eqb_spec n 0) as [E|E]; cbn [negb].
    + rewrite Hpos, Hsel. split.
      * intros [(H1 & H2 & H3) H4]. repeat split; auto.
        intros n' Hn' Hne. injection Hn' as <-. contradiction.
      * intros (H1 & H2 & H3 & H4 & _). auto.
    + rewrite filter_In, Hpos, Hsel, strict_eq_iff. split.
      * intros [[(H1 & H2 & H3) H4] H5]. repeat split; auto.
        intros n' Hn' _. now injection Hn' as <-.
      * intros (H1 & H2 & H3 & H4 & H5). auto.
  - rewrite Hpos, Hsel. split.
    + intros [(H1 & H2 & H3) H4]. repeat split; auto. discriminate.
    + intros (H1 & H2 & H3 & H4 & _). auto.
Qed.

Lemma select_items_NoDup db lvl cat vocabType posFilter freq :
  store_inv db -> NoDup (select_items db lvl cat vocabType posFilter freq).
Proof.
  intros Hinv. pose proof Hinv as [Hw Hi]. unfold select_items.
  assert (Hbase : NoDup ((if selects idiom vocabType
                          then (if selects word vocabType
                                then [] ++ getAllFromIndex_level_category (words db) lvl cat
                                else [])
                               ++ getAllFromIndex_level_category (idioms db) lvl cat
                          else if selects word vocabType
                               then [] ++ getAllFromIndex_level_category (words db) lvl cat
                               else []))).
  { unfold getAllFromIndex_level_category.
    destruct (selects word vocabType), (selects idiom vocabType); cbn [app];
      try constructor;
      try (apply NoDup_filter, sorted_NoDup; eapply ok_sorted; eassumption).
    apply NoDup_app;
      try (apply NoDup_filter, sorted_NoDup; eapply ok_sorted; eassumption).
    intros r H1 H2. apply filter_In in H1 as [H1 _]. apply filter_In in H2 as [H2 _].
    exact (stores_disjoint db r Hinv H1 H2). }
  destruct (truthy (js_opt JNum freq)); destruct posFilter;
    repeat apply NoDup_filter; exact Hbase.
Qed.

Lemma select_items_strings db lvl cat vocabType posFilter freq :
  store_inv db ->
  Forall (fun r => is_string (english r) = true)
         (select_items db lvl cat vocabType posFilter freq).
Proof.
  intros [Hw Hi]. apply Forall_forall. intros r Hr.
  apply in_select_items in Hr as ([[_ Hin] | [_ Hin]] & _).
  - pose proof (ok_records Hw) as H. rewrite Forall_forall in H. now destruct (H r Hin).
  - pose proof (ok_records Hi) as H. rewrite Forall_forall in H. now destruct (H r Hin).
Qed.

Lemma order_items_alphabetical random localeCompare l k :
  Forall (fun r => is_string (english r) = true) l ->
  order_items random localeCompare Alphabetical l k
  = Some (sort_pure (english_order localeCompare) l, k).
Proof.
  intros Hs. cbn [order_items]. apply array_sort_pure.
  intros x y k' Hx. apply by_english_pure. rewrite Forall_forall in Hs. now apply Hs.
Qed.

Lemma english_order_consistent localeCompare :
  consistent localeCompare -> consistent (english_order localeCompare).
Proof.
  intros [Htot Htrans]. unfold english_order. split.
  - intros a b. apply Htot.
  - intros a b d. apply Htrans.
Qed.

Lemma js_slice_firstn {A} (l : list A) (count : Z) :
  (0 <= count)%Z -> js_slice l 0 count = firstn (Z.to_nat count) l.
Proof.
  intros Hc. unfold js_slice.
  replace (count <? 0)%Z with false by (symmetry; apply Z.ltb_ge; lia).
  cbn [Z.ltb Z.compare]. rewrite (Z.min_l 0) by lia. cbn [Z.to_nat skipn].
  rewrite Z.sub_0_r.
  replace (Z.to_nat (Z.min count (Z.of_nat (List.length l))))
    with (Nat.min (Z.to_nat count) (List.length l)) by lia.
  apply firstn_min_length.
Qed.

Lemma NoDup_firstn {A} n (l : list A) : NoDup l -> NoDup (firstn n l).
Proof.
  intros H. rewrite <- (firstn_skipn n l) in H. now apply NoDup_app_remove_r in H.
Qed.

Lemma order_items_selected random localeCompare db lvl cat vocabType posFilter
      sortOrder freq k :
  store_inv db ->
  exists result,
    order_items random localeCompare sortOrder
      (select_items db lvl cat vocabType posFilter freq) k
    = Some (result, match sortOrder with
                    | Random => shuffle_draws (List.length result) + k
                    | Alphabetical => k
                    end)
    /\ NoDup result
    /\ (forall r, In r result <-> selected db lvl cat vocabType posFilter freq r).
Proof.
  intros Hinv.
  pose proof (select_items_NoDup db lvl cat vocabType posFilter freq Hinv) as Hnd.
  pose proof (select_items_strings db lvl cat vocabType posFilter freq Hinv) as Hs.
  set (l := select_items db lvl cat vocabType posFilter freq) in *.
  destruct sortOrder.
  - destruct (shuffle_uniform random random l k k Hnd) as [(l1 & Heq & Hperm) _].
    exists l1. cbn [order_items]. rewrite Heq. split; [|split].
    + unfold shuffle_draws. now rewrite (Permutation_length Hperm).
    + apply (Permutation_NoDup (Permutation_sym Hperm) Hnd).
    + intros r. rewrite <- in_select_items. fold l. split; apply Permutation_in;
        [exact Hperm | now apply Permutation_sym].
  - exists (sort_pure (english_order localeCompare) l).
    rewrite order_items_alphabetical by exact Hs. split; [reflexivity|]. split.
    + apply (Permutation_NoDup (Permutation_sym (sort_pure_perm _ l)) Hnd).
    + intros r. rewrite <- in_select_items. fold l. split; apply Permutation_in;
        [apply sort_pure_perm | apply Permutation_sym, sort_pure_perm].
Qed.

(** X10: [getAllVocabularyForLevelAndCategory] returns exactly the records
    its filters let through, each of them once: a record is in the result
    if and only if it is in a selected collection and has the level, the
    category, the part of speech (when one is asked for) and the
    frequency level (when one other than 0 is asked for) of the call.  The
    call never throws; in random order it draws one value of
    [Math.random()] less than it returns records, in alphabetical order
    none. *)
Theorem getAllVocabularyForLevelAndCategory_exact
        (random : nat -> nat * nat) (localeCompare : string -> string -> Z)
        (db : DB) (lvl : Level) (cat : VocabCategory) (vocabType : OrAll VocabType)
        (posFilter : OrAll PartOfSpeech) (sortOrder : SortOrder) (freq : option Z)
        (k : nat) :
  reachable db ->
  exists result,
    getAllVocabularyForLevelAndCategory random localeCompare db lvl cat vocabType
      posFilter sortOrder freq k
    = Some (result, match sortOrder with
                    | Random => shuffle_draws (List.length result) + k
                    | Alphabetical => k
                    end)
    /\ NoDup result
    /\ (forall r, In r result <-> selected db lvl cat vocabType posFilter freq r).
Proof.
  intros Hreach. unfold getAllVocabularyForLevelAndCategory.
  apply order_items_selected. now apply reachable_inv.
Qed.

Lemma getAllVocabularyForLevelAndCategory_exact_witness :
  exists result,
    getAllVocabularyForLevelAndCategory (fun _ => (1, 2)) code_unit_compare sample_db
      Beginner DailyLife All All Random None 0
    = Some (result, shuffle_draws (List.length result) + 0)
    /\ NoDup result
    /\ (forall r, In r result <-> selected sample_db Beginner DailyLife All All None r).
Proof.
  exact (getAllVocabularyForLevelAndCategory_exact (fun _ => (1, 2)) code_unit_compare
           sample_db Beginner DailyLife All All Random None 0 sample_db_reachable).
Defined.

(** X11: in alphabetical order the two study queries do not depend on
    [Math.random()] and draw nothing from it, and, for a [localeCompare]
    that is a total preorder, what they return is sorted by it on
    [english]: [getVocabulary] returns the first [count] records of the
    sorted list [getAllVocabularyForLevelAndCategory] returns. *)
Theorem alphabetical_is_sorted
        (localeCompare : string -> string -> Z)
        (db : DB) (lvl : Level) (cat : VocabCategory) (vocabType : OrAll VocabType)
        (posFilter : OrAll PartOfSpeech) (count : Z) (freq : option Z) :
  reachable db -> consistent localeCompare -> (0 <= count)%Z ->
  exists sorted,
    StronglySorted (fun a b => (english_order localeCompare a b <= 0)%Z) sorted
    /\ forall random k,
        getAllVocabularyForLevelAndCategory random localeCompare db lvl cat vocabType
          posFilter Alphabetical freq k = Some (sorted, k)
        /\ getVocabulary random localeCompare db lvl cat vocabType posFilter
             Alphabetical count freq k
           = Some (firstn (Z.to_nat count) sorted, k).
Proof.
  intros Hreach Hcons Hcount. assert (Hinv : store_inv db) by now apply reachable_inv.
  pose proof (select_items_strings db lvl cat vocabType posFilter freq Hinv) as Hs.
  exists (sort_pure (english_order localeCompare)
                    (select_items db lvl cat vocabType posFilter freq)).
  split.
  - apply sort_pure_sorted. now apply english_order_consistent.
  - intros random k. unfold getAllVocabularyForLevelAndCategory, getVocabulary.
    split.
    + now apply order_items_alphabetical.
    + rewrite (qbind_some _ _ _ _ _ (order_items_alphabetical random localeCompare _ k Hs)).
      unfold qret. now rewrite js_slice_firstn.
Qed.

Lemma code_unit_compare_consistent : consistent code_unit_compare.
Proof.
  unfold code_unit_compare. split.
  - intros a b. rewrite (String.compare_antisym b a).
    destruct (String.compare a b); simpl; lia.
  - intros a b d Hab Hbd.
    destruct (String.compare a b) eqn:Eab; try lia;
      destruct (String.compare b d) eqn:Ebd; try lia.
    + apply String.compare_eq_iff in Eab. subst b. rewrite Ebd. lia.
    + apply String.compare_eq_iff in Eab. subst b. rewrite Ebd. lia.
    + apply String.compare_eq_iff in Ebd. subst d. rewrite Eab. lia.
    + apply OrderedTypeEx.String_as_OT.cmp_lt in Eab, Ebd.
      pose proof (OrderedTypeEx.String_as_OT.lt_trans _ _ _ Eab Ebd) as H.
      apply OrderedTypeEx.String_as_OT.cmp_lt in H.
      unfold OrderedTypeEx.String_as_OT.cmp in H. rewrite H. lia.
Qed.

Lemma alphabetical_is_sorted_witness :
  exists sorted,
    StronglySorted (fun a b => (english_order code_unit_compare a b <= 0)%Z) sorted
    /\ forall random k,
        getAllVocabularyForLevelAndCategory random code_unit_compare sample_db
          Beginner DailyLife All All Alphabetical None k = Some (sorted, k)
        /\ getVocabulary random code_unit_compare sample_db Beginner DailyLife All All
             Alphabetical 2 None k
           = Some (firstn (Z.to_nat 2) sorted, k).
Proof.
  apply (alphabetical_is_sorted code_unit_compare sample_db Beginner DailyLife All All
           2 None sample_db_reachable code_unit_compare_consistent).
  lia.
Defined.

(** X12: [getVocabulary] never throws, and for a count that is not
    negative it returns the first [count] records of what
    [getAllVocabularyForLevelAndCategory] returns for the same arguments
    and draws: as many records as the filters let through when these are
    fewer than [count], otherwise [count] of them, no record twice, each
    one let through by the filters. *)
Theorem getVocabulary_count
        (random : nat -> nat * nat) (localeCompare : string -> string -> Z)
        (db : DB) (lvl : Level) (cat : VocabCategory) (vocabType : OrAll VocabType)
        (posFilter : OrAll PartOfSpeech) (sortOrder : SortOrder) (count : Z)
        (freq : option Z) (k : nat) :
  reachable db -> (0 <= count)%Z ->
  exists every result k',
    getAllVocabularyForLevelAndCategory random localeCompare db lvl cat vocabType
      posFilter sortOrder freq k = Some (every, k')
    /\ getVocabulary random localeCompare db lvl cat vocabType posFilter sortOrder
         count freq k = Some (result, k')
    /\ result = firstn (Z.to_nat count) every
    /\ List.length result = Nat.min (Z.to_nat count) (List.length every)
    /\ NoDup result
    /\ (forall r, In r result -> selected db lvl cat vocabType posFilter freq r)
    /\ (List.length every <= Z.to_nat count ->
        forall r, selected db lvl cat vocabType posFilter freq r -> In r result).
Proof.
  intros Hreach Hcount.
  destruct (order_items_selected random localeCompare db lvl cat vocabType posFilter
              sortOrder freq k (reachable_inv db Hreach)) as (every & Heq & Hnd & Hin).
  exists every, (firstn (Z.to_nat count) every). eexists.
  split; [exact Heq|]. split; [|split; [reflexivity|split; [|split; [|split]]]].
  - unfold getVocabulary.
    rewrite (qbind_some _ _ _ _ _ Heq). unfold qret. now rewrite js_slice_firstn.
  - apply length_firstn.
  - now apply NoDup_firstn.
  - intros r Hr. apply Hin. eapply In_firstn_skipn with (m := 0). exact Hr.
  - intros Hle r Hr. rewrite firstn_all2 by exact Hle. now apply Hin.
Qed.

Lemma getVocabulary_count_witness :
  exists every result k',
    getAllVocabularyForLevelAndCategory (fun _ => (1, 2)) code_unit_compare sample_db
      Beginner DailyLife All All Random None 0 = Some (every, k')
    /\ getVocabulary (fun _ => (1, 2)) code_unit_compare sample_db Beginner DailyLife
         All All Random 2 None 0 = Some (result, k')
    /\ result = firstn (Z.to_nat 2) every
    /\ List.length result = Nat.min (Z.to_nat 2) (List.length every)
    /\ NoDup result
    /\ (forall r, In r result -> selected sample_db Beginner DailyLife All All None r)
    /\ (List.length every <= Z.to_nat 2 ->
        forall r, selected sample_db Beginner DailyLife All All None r -> In r result).
Proof.
  apply (getVocabulary_count (fun _ => (1, 2)) code_unit_compare sample_db Beginner
           DailyLife All All Random 2 None 0 sample_db_reachable).
  lia.
Defined.

(** *** getExistingWords *)

Lemma by_chance_eval random a b k :
  by_chance random a b k = Some (half_minus (random k), S k).
Proof. reflexivity. Qed.

Lemma insert_sorted_chance random (x : VocabDBItem) : forall l k,
  exists l' k',
    insert_sorted (by_chance random) x l k = Some (l', k') /\ Permutation l' (x :: l).
Proof.
  induction l as [|y t IH]; intros k.
  - exists [x], k. split; [reflexivity|apply Permutation_refl].
  - cbn [insert_sorted]. unfold qbind at 1. rewrite by_chance_eval.
    destruct (half_minus (random k) <=? 0)%Z.
    + exists (x :: y :: t), (S k). split; [reflexivity|apply Permutation_refl].
    + destruct (IH (S k)) as (t' & k' & Heq & Hperm).
      exists (y :: t'), k'. unfold qbind. rewrite Heq. split; [reflexivity|].
      apply perm_trans with (y :: x :: t); [now constructor|apply perm_swap].
Qed.

Lemma array_sort_chance random (l : list VocabDBItem) : forall k,
  exists l' k', array_sort (by_chance random) l k = Some (l', k') /\ Permutation l' l.
Proof.
  induction l as [|x t IH]; intros k.
  - exists [], k. split; [reflexivity|constructor].
  - destruct (IH k) as (t' & k1 & Heq & Hperm).
    destruct (insert_sorted_chance random x t' k1) as (l' & k' & Heq' & Hperm').
    exists l', k'. cbn [array_sort]. unfold qbind. rewrite Heq. split; [exact Heq'|].
    apply perm_trans with (x :: t'); [exact Hperm'|now constructor].
Qed.

Lemma existing_name_stored db r :
  store_inv db ->
  (In r (records (words db)) ->
   exists e p, english r = JStr e /\ pos r = js_pos p
               /\ existing_name r = JStr (e ++ "-" ++ PartOfSpeech_value p))
  /\ (In r (records (idioms db)) -> existing_name r = english r).
Proof.
  intros [Hw Hi]. split; intros Hin.
  - pose proof (ok_records Hw) as H. rewrite Forall_forall in H.
    destruct (H r Hin) as (He & Hp & Ht).
    destruct (english r) as [| | | |e] eqn:Ee; try discriminate.
    destruct (includes_parts _ Hp) as [p Hp'].
    exists e, p. split; [reflexivity|]. split; [exact Hp'|].
    unfold existing_name. rewrite Ht, Hp', Ee. now destruct p.
  - pose proof (ok_records Hi) as H. rewrite Forall_forall in H.
    destruct (H r Hin) as (_ & _ & Ht).
    unfold existing_name. now rewrite Ht.
Qed.

(** X13: [getExistingWords] never throws.  For a limit that is not
    negative it returns the names of the first [limit] records of an
    arrangement of the records it is asked about (those of the selected
    collections that have the level and the category, where one is
    given), each record once in the arrangement: so no more than [limit]
    names, and a name for every such record when the limit is not below
    their number.  The name of a word is its english and its part of
    speech joined by a hyphen, that of an idiom its english. *)
Theorem getExistingWords_names
        (random : nat -> nat * nat) (db : DB) (lvl : OrAll Level)
        (cat : OrAll VocabCategory) (type_ : OrAll VocabType) (limit : Z) (k : nat) :
  reachable db -> (0 <= limit)%Z ->
  exists shuffled k',
    getExistingWords random db lvl cat type_ limit k
    = Some (map existing_name (firstn (Z.to_nat limit) shuffled), k')
    /\ NoDup shuffled
    /\ (forall r, In r shuffled <-> named db lvl cat type_ r)
    /\ (forall r, In r (records (words db)) ->
          exists e p, english r = JStr e /\ pos r = js_pos p
                      /\ existing_name r = JStr (e ++ "-" ++ PartOfSpeech_value p))
    /\ (forall r, In r (records (idioms db)) -> existing_name r = english r).
Proof.
  intros Hreach Hlimit. assert (Hinv : store_inv db) by now apply reachable_inv.
  pose proof Hinv as [Hw Hi].
  unfold getExistingWords.
  set (base := if selects idiom type_
               then (if selects word type_ then [] ++ records (words db) else [])
                    ++ records (idioms db)
               else if selects word type_ then [] ++ records (words db) else []).
  set (by_level := match lvl with
                   | Only l => filter (fun item => strict_eq (level item) (js_level l)) base
                   | All => base
                   end).
  set (items := match cat with
                | Only c => filter (fun item => strict_eq (category item) (js_category c))
                                   by_level
                | All => by_level
                end).
  assert (Hbase_nd : NoDup base).
  { unfold base. destruct (selects word type_), (selects idiom type_); cbn [app];
      try constructor; try (apply sorted_NoDup; eapply ok_sorted; eassumption).
    apply NoDup_app; try (apply sorted_NoDup; eapply ok_sorted; eassumption).
    intros r H1 H2. exact (stores_disjoint db r Hinv H1 H2). }
  assert (Hbase_in : forall r,
            In r base <-> (selects word type_ = true /\ In r (records (words db)))
                          \/ (selects idiom type_ = true /\ In r (records (idioms db)))).
  { intros r. unfold base. destruct (selects word type_), (selects idiom type_);
      cbn [app]; rewrite ?in_app_iff; simpl; intuition discriminate. }
  assert (Hitems_nd : NoDup items).
  { unfold items, by_level. destruct cat, lvl; repeat apply NoDup_filter; exact Hbase_nd. }
  assert (Hitems_in : forall r, In r items <-> named db lvl cat type_ r).
  { intros r. unfold named. rewrite <- Hbase_in. unfold items, by_level.
    destruct cat as [|c], lvl as [|l]; rewrite ?filter_In, ?strict_eq_iff.
    - split; [intros H; repeat split; [exact H|discriminate|discriminate]|tauto].
    - split.
      + intros [H1 H2]. repeat split; [exact H1| |discriminate].
        intros l' Hl'. now injection Hl' as <-.
      + intros (H1 & H2 & _). split; [exact H1|now apply H2].
    - split.
      + intros [H1 H2]. repeat split; [exact H1|discriminate|].
        intros c' Hc'. now injection Hc' as <-.
      + intros (H1 & _ & H3). split; [exact H1|now apply H3].
    - split.
      + intros [[H1 H2] H3]. repeat split; [exact H1| |].
        * intros l' Hl'. now injection Hl' as <-.
        * intros c' Hc'. now injection Hc' as <-.
      + intros (H1 & H2 & H3). repeat split; auto. }
  destruct (array_sort_chance random items k) as (shuffled & k' & Heq & Hperm).
  exists shuffled, k'. split; [|split; [|split; [|split]]].
  - rewrite (qbind_some _ _ _ _ _ Heq). unfold qret. now rewrite js_slice_firstn.
  - apply (Permutation_NoDup (Permutation_sym Hperm) Hitems_nd).
  - intros r. rewrite <- Hitems_in. split; apply Permutation_in;
      [exact Hperm | now apply Permutation_sym].
  - intros r Hr. now apply (existing_name_stored db r Hinv).
  - intros r Hr. now apply (existing_name_stored db r Hinv).
Qed.

Lemma getExistingWords_names_witness :
  exists shuffled k',
    getExistingWords (coin_stream [true; false; true]) sample_db All All All 1500 0
    = Some (map existing_name (firstn (Z.to_nat 1500) shuffled), k')
    /\ NoDup shuffled
    /\ (forall r, In r shuffled <-> named sample_db All All All r)
    /\ (forall r, In r (records (words sample_db)) ->
          exists e p, english r = JStr e /\ pos r = js_pos p
                      /\ existing_name r = JStr (e ++ "-" ++ PartOfSpeech_value p))
    /\ (forall r, In r (records (idioms sample_db)) -> existing_name r = english r).
Proof.
  apply (getExistingWords_names (coin_stream [true; false; true]) sample_db All All All
           1500 0 sample_db_reachable).
  lia.
Defined.

(** ** The callers *)

(** *** Every stored record is valid *)

Lemma valid_stored_form it k :
  valid_record it = true -> valid_record (with_id k (stored_form it)) = true.
Proof.
  intros H. unfold stored_form, target_store.
  destruct (strict_eq (type it) (JStr "word")) eqn:Hw.
  - exact H.
  - unfold valid_record in *. cbn [with_id with_pos without_id english japanese
      example_en example_jp level category type pos].
    rewrite Hw in *. cbn [andb orb] in *.
    repeat (apply andb_true_iff in H as [H ?]).
    repeat (apply andb_true_iff; split); assumption.
Qed.

Lemma add_item_post fault item n s :
  working (post (add_item fault item n s)) = working s
  \/ exists it,
      item = Some it /\ valid_record it = true
      /\ working (post (add_item fault item n s))
         = append_record (target_store it) (stored_form it) (working s).
Proof.
  destruct (item_valid item) eqn:Hv.
  - destruct item as [it|]; [|discriminate]. simpl in Hv.
    destruct (valid_record_probe it Hv) as (Hp & Hik & Hid & _ & _).
    rewrite add_item_plan, Hp.
    destruct (fault (requests s)) as [e|] eqn:F0.
    + left. now rewrite (probe_rejected fault _ _ _ (Some it) n s e F0).
    + destruct (find (has_index_key (target_store it) (unique_key (target_store it) it))
                     (records (objectStore (target_store it) (working s))))
        as [x|] eqn:E.
      * left. now rewrite (probe_found fault _ _ _ (Some it) n s Hik x F0 E).
      * destruct (fault (S (requests s))) as [e|] eqn:F1.
        -- left. now rewrite (probe_add_rejected fault _ _ _ (Some it) n s Hik e F0 E F1).
        -- right. exists it. split; [reflexivity|]. split; [exact Hv|].
           now rewrite (probe_added fault _ _ _ (Some it) n s Hik Hid F0 E F1).
  - left. destruct (add_item_skipped fault item n s Hv) as (evs & -> & _). reflexivity.
Qed.

Lemma append_record_valid it db :
  all_valid db -> valid_record it = true ->
  all_valid (append_record (target_store it) (stored_form it) db).
Proof.
  intros [Hw Hi] Hv. unfold append_record.
  destruct (target_store it); split; cbn [set_objectStore objectStore words idioms records];
    try assumption; apply Forall_app; (split; [assumption|]); constructor;
    [now apply valid_stored_form|constructor|now apply valid_stored_form|constructor].
Qed.

Lemma add_items_valid fault items : forall n s,
  all_valid (working s) -> all_valid (working (post (add_items fault items n s))).
Proof.
  induction items as [|item items IH]; intros n s Hinv; simpl.
  - assumption.
  - assert (Hstep : all_valid (working (post (add_item fault item n s)))).
    { destruct (add_item_post fault item n s) as [-> | (it & _ & Hv & ->)];
        [assumption|now apply append_record_valid]. }
    apply bind_post_inv; [exact Hstep|]. intros a _. now apply IH.
Qed.

Lemma addVocabularyItems_valid fault db items :
  all_valid db -> all_valid (res_db (addVocabularyItems fault db items)).
Proof.
  intros Hinv. rewrite addVocabularyItems_body. cbv zeta.
  destruct (outcome (add_body fault items (mkTx db 0))) as [e|n] eqn:E; simpl.
  - assumption.
  - destruct (add_body_committed _ _ _ _ E) as (_ & -> & _).
    now apply add_items_valid.
Qed.

Lemma refreq_db_valid g db : all_valid db -> all_valid (refreq_db g db).
Proof.
  intros [Hw Hi]. split; cbn [refreq_db refreq words idioms records];
    apply Forall_map; [revert Hw | revert Hi]; apply Forall_impl; intros r H; exact H.
Qed.

Lemma reachable_valid db : reachable db -> all_valid db.
Proof.
  induction 1 as [|fault db items Hr IH|fault db updates Hr IH|fault1 fault2 db Hr IH].
  - split; constructor.
  - now apply addVocabularyItems_valid.
  - destruct (updateFrequencyLevels_spec fault db updates (reachable_inv db Hr))
      as (_ & Hfail & Hok).
    destruct (res_value (updateFrequencyLevels fault db updates)) as [e|[]] eqn:E.
    + destruct (Hfail e eq_refl) as [-> _]. exact IH.
    + rewrite (Hok eq_refl). now apply refreq_db_valid.
  - unfold clearDatabase. cbv zeta.
    pose proof (db_clear_outcome fault1 WORDS_STORE_NAME db) as H1.
    destruct (clear_rejected fault1).
    + destruct H1 as (-> & D1 & _). rewrite D1. exact IH.
    + destruct H1 as (-> & D1 & _). rewrite D1.
      assert (Hv1 : all_valid (set_objectStore WORDS_STORE_NAME
                     (mkStore [] (keyGen (objectStore WORDS_STORE_NAME db))) db)).
      { destruct IH as [Hw Hi]. split; [constructor|exact Hi]. }
      pose proof (db_clear_outcome fault2 IDIOMS_STORE_NAME
                    (set_objectStore WORDS_STORE_NAME
                       (mkStore [] (keyGen (objectStore WORDS_STORE_NAME db))) db)) as H2.
      destruct (clear_rejected fault2).
      * destruct H2 as (-> & D2 & _). cbn [res_db]. rewrite D2. exact Hv1.
      * destruct H2 as (-> & D2 & _). cbn [res_db]. rewrite D2. split; constructor.
Qed.

(** *** handleAiCollection *)

Lemma kept_valid item :
  kept item = true -> is_string (english item) = true ->
  type item = JStr "word" \/ type item = JStr "idiom" ->
  valid_record item = true.
Proof.
  unfold kept, dropped, valid_record. intros Hk Hs Ht. rewrite Hs.
  destruct (truthy (english item)); [|discriminate].
  destruct (truthy (japanese item)); [|discriminate].
  destruct (truthy (example_en item)); [|discriminate].
  destruct (truthy (example_jp item)); [|discriminate].
  destruct (truthy (level item)); [|discriminate].
  destruct (truthy (category item)); [|discriminate].
  destruct (truthy (type item)); [|discriminate].
  cbn [negb orb andb] in *.
  destruct Ht as [Ht | Ht]; rewrite Ht in *; cbn [strict_eq String.eqb] in *.
  - change ("word" =? "word")%string with true in *. cbn [andb orb] in *.
    destruct (includes PARTS_OF_SPEECH (pos item)); [reflexivity|].
    rewrite orb_true_r in Hk. discriminate.
  - reflexivity.
Qed.

Lemma drop_warnings_count items :
  List.length (filter is_console_warn (drop_warnings items))
  = List.length items - List.length (filter kept items)
  /\ List.length (filter kept items) <= List.length items.
Proof.
  induction items as [|item items [IH1 IH2]]; [split; reflexivity|].
  change (drop_warnings (item :: items))
    with (match dropped item with
          | Some w => [ConsoleWarn w (Some item)]
          | None => []
          end ++ drop_warnings items).
  assert (Hk : kept item = match dropped item with None => true | Some _ => false end)
    by reflexivity.
  cbn [filter]. rewrite Hk.
  destruct (dropped item) as [w|]; cbn [app filter is_console_warn List.length];
    rewrite IH1; split; lia.
Qed.

Lemma validated_only lvl cat t newItems :
  Forall (fun item => is_string (english item) = true) newItems ->
  Forall (fun item => valid_record item = true /\ type item = js_type t
                      /\ (t = idiom -> pos item = JNull))
         (validatedItems lvl cat (Only t) newItems).
Proof.
  intros Hs. unfold validatedItems. apply Forall_forall. intros item Hin.
  apply filter_In in Hin as [Hin Hk]. apply in_map_iff in Hin as (raw & <- & Hraw).
  rewrite Forall_forall in Hs. specialize (Hs raw Hraw).
  split; [|split].
  - apply kept_valid; [exact Hk|exact Hs|]. destruct t; [now left|now right].
  - reflexivity.
  - intros ->. reflexivity.
Qed.

Lemma getExistingWords_returns random db lvl cat type_ limit k :
  exists names k',
    getExistingWords random db lvl cat type_ limit k = Some (names, k').
Proof.
  unfold getExistingWords. cbv zeta.
  match goal with
  | |- context [array_sort (by_chance random) ?l] =>
      destruct (array_sort_chance random l k) as (l' & k' & Heq & _)
  end.
  eexists _, k'. unfold qbind. rewrite Heq. reflexivity.
Qed.

(** The call when the reads are served and the service answers with a
    list. *)
Lemma handleAiCollection_answering random db lvl cat type_ newItems k :
  fst (handleAiCollection random (answering newItems) db lvl cat type_ k)
  = if List.length newItems =? 0 then mkResult db [] (inr 0)
    else
      let completed := map (completeItem lvl cat type_) newItems in
      let validated := filter kept completed in
      if 0 <? List.length validated then
        let r := addVocabularyItems no_faults db (map Some validated) in
        mkResult (res_db r) (drop_warnings completed ++ res_events r) (res_value r)
      else mkResult db (drop_warnings completed) (inr 0).
Proof.
  unfold handleAiCollection, answering.
  cbn [existing_read generateVocabulary add_faults count_read].
  destruct (getExistingWords_returns random db lvl cat type_ 1500 k) as (names & k' & ->).
  destruct (List.length newItems =? 0); [reflexivity|]. cbv zeta.
  destruct (0 <? List.length (filter kept (map (completeItem lvl cat type_) newItems)));
    [|reflexivity].
  destruct (res_value (addVocabularyItems no_faults db
                         (map Some (filter kept (map (completeItem lvl cat type_)
                                                     newItems))))) eqn:E;
    cbn [updateWordCount fst]; now rewrite ?E.
Qed.

(** X14: an AI collection for a given type.  When the service is asked
    for words, or for idioms, and answers with objects whose english is a
    string, every item that gets through the validation of
    [handleAiCollection] is a record [addVocabularyItems] accepts, of the
    type asked for, an idiom without part of speech.  So on a fault-free
    run the keys stored afterwards are those stored before and those of
    the validated items; every warning is for an item the caller dropped,
    none comes from the database layer; and the returned count is at most
    the number of validated items. *)
Theorem handleAiCollection_validated (random : nat -> nat * nat) (db : DB)
        (lvl : OrAll Level) (cat : OrAll VocabCategory) (t : VocabType)
        (newItems : list VocabDBItem) (draws : nat) :
  Forall (fun item => is_string (english item) = true) newItems ->
  let validated := validatedItems lvl cat (Only t) newItems in
  let r := fst (handleAiCollection random (answering newItems) db lvl cat (Only t) draws) in
  Forall (fun item => valid_record item = true /\ type item = js_type t
                      /\ (t = idiom -> pos item = JNull)) validated
  /\ (forall k, stored (res_db r) k
                <-> stored db k
                    \/ exists item, In item validated /\ uniqueness_key item = k)
  /\ List.length (filter is_console_warn (res_events r))
     = List.length newItems - List.length validated
  /\ exists n, res_value r = inr n /\ n <= List.length validated.
Proof.
  intros Hs validated r.
  pose proof (validated_only lvl cat t newItems Hs) as Hval. fold validated in Hval.
  split; [exact Hval|].
  unfold r. rewrite handleAiCollection_answering. clear r.
  destruct (List.length newItems =? 0) eqn:El.
  - apply Nat.eqb_eq, length_zero_iff_nil in El. unfold validated. rewrite El.
    cbn. split; [|split; [reflexivity|exists 0; split; [reflexivity|lia]]].
    intros k. split; [auto|]. intros [H | (item & [] & _)]. exact H.
  - cbv zeta. change (filter kept (map (completeItem lvl cat (Only t)) newItems))
      with validated.
    destruct (drop_warnings_count (map (completeItem lvl cat (Only t)) newItems))
      as [Hw _].
    change (filter kept (map (completeItem lvl cat (Only t)) newItems))
      with validated in Hw.
    rewrite length_map in Hw.
    destruct (0 <? List.length validated) eqn:Hne.
    + cbn [res_db res_events res_value].
      destruct (addVocabularyItems_fault_free db (map Some validated))
        as (Hdb & Hv & Hev).
      rewrite Hdb, Hv, Hev.
      destruct (add_items_events (map Some validated) 0 (mkTx db 0))
        as (H1 & _ & m & H3 & H4).
      assert (Hnone : filter item_invalid (map Some validated) = []).
      { clear - Hval. induction validated as [|it l IH]; [reflexivity|].
        inversion Hval as [|? ? (Hv & _) Hl]; subst. cbn [map filter].
        unfold item_invalid at 1. rewrite (valid_not_invalid it Hv). now apply IH. }
      assert (Hall : filter item_valid (map Some validated) = map Some validated).
      { clear - Hval. induction validated as [|it l IH]; [reflexivity|].
        inversion Hval as [|? ? (Hv & _) Hl]; subst. cbn [map filter].
        cbn [item_valid]. rewrite Hv. f_equal. now apply IH. }
      split; [|split].
      * intros k. rewrite add_items_stores. split.
        -- intros [H | (it & Hin & _ & Hk)]; [now left|].
           right. exists it. split; [|exact Hk].
           apply in_map_iff in Hin as (it' & Heq & Hin). now injection Heq as <-.
        -- intros [H | (it & Hin & Hk)]; [now left|].
           right. exists it. split; [now apply in_map|]. split; [|exact Hk].
           rewrite Forall_forall in Hval. now destruct (Hval it Hin).
      * rewrite filter_app, length_app. cbn [filter is_console_warn].
        rewrite filter_app, length_app, H1, Hnone. cbn. lia.
      * exists m. split; [exact H3|]. rewrite Hall, length_map in H4. lia.
    + apply Nat.ltb_ge in Hne.
      assert (Hnil : validated = []) by (destruct validated; [reflexivity|simpl in Hne; lia]).
      cbn [res_db res_events res_value]. rewrite Hnil in *.
      split; [|split; [exact Hw|exists 0; split; [reflexivity|lia]]].
      intros k. split; [auto|]. intros [H | (item & [] & _)]. exact H.
Qed.

Lemma handleAiCollection_validated_witness :
  let validated := validatedItems (Only Intermediate) (Only Business) (Only idiom)
                     generated_sample in
  let r := fst (handleAiCollection (fun _ => (1, 2)) (answering generated_sample)
                                   sample_db (Only Intermediate) (Only Business)
                                   (Only idiom) 0) in
  Forall (fun item => valid_record item = true /\ type item = js_type idiom
                      /\ (idiom = idiom -> pos item = JNull)) validated
  /\ (forall k, stored (res_db r) k
                <-> stored sample_db k
                    \/ exists item, In item validated /\ uniqueness_key item = k)
  /\ List.length (filter is_console_warn (res_events r))
     = List.length generated_sample - List.length validated
  /\ exists n, res_value r = inr n /\ n <= List.length validated.
Proof.
  apply (handleAiCollection_validated (fun _ => (1, 2)) sample_db (Only Intermediate)
           (Only Business) idiom generated_sample 0).
  repeat constructor.
Defined.

(** *** Export and import *)

Lemma filter_all {A} (p : A -> bool) l : (forall x, In x l -> p x = true) -> filter p l = l.
Proof.
  induction l as [|a l IH]; intros H; [reflexivity|]. simpl.
  rewrite (H a (or_introl eq_refl)). f_equal. apply IH. intros x Hx. apply H. now right.
Qed.

Lemma filter_none {A} (p : A -> bool) l :
  (forall x, In x l -> p x = false) -> filter p l = [].
Proof.
  induction l as [|a l IH]; intros H; [reflexivity|]. simpl.
  rewrite (H a (or_introl eq_refl)). apply IH. intros x Hx. apply H. now right.
Qed.

Lemma stored_record_ok db sn r :
  store_inv db -> In r (records (objectStore sn db)) -> record_ok sn r.
Proof.
  intros Hinv Hin.
  assert (Hok : store_ok sn (objectStore sn db)) by (destruct sn; apply Hinv).
  pose proof (ok_records Hok) as H. rewrite Forall_forall in H. now apply H.
Qed.

Lemma itemsForType db t :
  store_inv db ->
  filter (fun item => strict_eq (type item) (js_type t)) (getAllVocabulary db)
  = records (objectStore (store_of t) db).
Proof.
  intros Hinv. unfold getAllVocabulary. rewrite filter_app.
  destruct t; cbn [store_of objectStore].
  - rewrite filter_all, filter_none; [apply app_nil_r| |].
    + intros r Hr. destruct (stored_record_ok db IDIOMS_STORE_NAME r Hinv Hr)
        as (_ & _ & ->). reflexivity.
    + intros r Hr. destruct (stored_record_ok db WORDS_STORE_NAME r Hinv Hr)
        as (_ & _ & ->). reflexivity.
  - rewrite filter_none, filter_all; [reflexivity| |].
    + intros r Hr. destruct (stored_record_ok db IDIOMS_STORE_NAME r Hinv Hr)
        as (_ & _ & ->). reflexivity.
    + intros r Hr. destruct (stored_record_ok db WORDS_STORE_NAME r Hinv Hr)
        as (_ & _ & ->). reflexivity.
Qed.

Lemma exported_eq db t :
  store_inv db ->
  exported t db
  = map export_item (filter isValid (records (objectStore (store_of t) db))).
Proof.
  intros Hinv. unfold exported, handleExport. cbn [fst].
  rewrite (itemsForType db t Hinv).
  destruct (map export_item (filter isValid (records (objectStore (store_of t) db))));
    reflexivity.
Qed.

Lemma export_item_form db t r :
  store_inv db -> In r (records (objectStore (store_of t) db)) ->
  export_item r = content r
  /\ with_type (js_type t) (content r) = content r
  /\ target_store (content r) = store_of t
  /\ unique_key (store_of t) (content r) = unique_key (store_of t) r
  /\ valid_record (content r) = valid_record r
  /\ stored_form (content r) = content r.
Proof.
  intros Hinv Hin. pose proof (stored_record_ok db _ r Hinv Hin) as Hok.
  clear Hin. destruct r as [i e j p0 ee ej l c ty f].
  destruct t; cbn [store_of record_ok english pos type] in *;
    destruct Hok as (Hs & Hp & Ht); subst ty.
  - destruct (includes_parts _ Hp) as [p Hp']. subst p0.
    unfold export_item, content, with_type, target_store, stored_form, valid_record.
    cbn. repeat split; now destruct p.
  - subst p0.
    unfold export_item, content, with_type, target_store, stored_form, valid_record.
    cbn. repeat split.
Qed.

Lemma NoDup_map_filter {A B} (f : A -> B) (p : A -> bool) l :
  NoDup (map f l) -> NoDup (map f (filter p l)).
Proof.
  induction l as [|a l IH]; intros H; [constructor|]. simpl in *.
  inversion H as [|? ? Hn Hl]; subst. destruct (p a); [|now apply IH].
  simpl. constructor; [|now apply IH].
  intros Hin. apply Hn. apply in_map_iff in Hin as (x & Hx & Hin).
  apply filter_In in Hin as [Hin _]. apply in_map_iff. eauto.
Qed.

Lemma content_with_id k r : content (with_id k r) = content r.
Proof. reflexivity. Qed.

Lemma append_all_content sn l : forall db,
  map content (records (objectStore sn (append_all l db)))
  = map content (records (objectStore sn db))
    ++ map (fun it => content (stored_form it))
           (filter (fun it => StoreName_eqb (target_store it) sn) l).
Proof.
  induction l as [|it l IH]; intros db; cbn [append_all fold_left filter map].
  - now rewrite app_nil_r.
  - change (fold_left (fun d it0 => append_record (target_store it0) (stored_form it0) d)
                      l (append_record (target_store it) (stored_form it) db))
      with (append_all l (append_record (target_store it) (stored_form it) db)).
    rewrite IH. destruct (StoreName_eqb (target_store it) sn) eqn:E.
    + apply StoreName_eqb_iff in E. rewrite <- E. rewrite objectStore_append_same.
      cbn [records map]. rewrite map_app. cbn [map]. rewrite content_with_id.
      now rewrite <- app_assoc.
    + rewrite objectStore_append_other; [reflexivity|].
      intros Heq. rewrite Heq in E. destruct sn; discriminate.
Qed.

Lemma addVocabularyItems_stored db l :
  Forall (fun it => valid_record it = true) l ->
  (forall it, In it l -> stored db (uniqueness_key it)) ->
  res_value (addVocabularyItems no_faults db (map Some l)) = inr 0
  /\ res_db (addVocabularyItems no_faults db (map Some l)) = db.
Proof.
  intros Hv Hst.
  destruct (addVocabularyItems_fault_free db (map Some l)) as (-> & -> & _).
  exact (second_pass l 0 (mkTx db 0) Hv Hst).
Qed.

(** X15: export, then import, on a database that [addVocabularyItems],
    [updateFrequencyLevels] and [clearDatabase] made from the empty one
    (a database with records migrated from a legacy store is not
    covered: a migrated idiom can carry a part of speech, which the
    import drops).  The file [handleExport] writes for a type holds the
    content (everything but the key and the frequency level) of each
    record of that collection whose text fields are strings, in key
    order.  Importing the file into the database it was exported from
    adds nothing and changes nothing; importing it into a fresh install
    adds every object of the file, and the collection then holds exactly
    the contents the file lists, in the same order, under new keys, and
    the other collection is empty. *)
Theorem export_import_round_trip (db : DB) (t : VocabType) :
  reachable db ->
  let file := exported t db in
  let again := fst (handleFileChange no_faults db t (map Some file)) in
  let fresh := fst (handleFileChange no_faults empty_db t (map Some file)) in
  file = map content (filter isValid (records (objectStore (store_of t) db)))
  /\ res_value again = inr 0
  /\ res_db again = db
  /\ res_value fresh = inr (List.length file)
  /\ map content (records (objectStore (store_of t) (res_db fresh))) = file
  /\ getVocabCount (res_db fresh) = List.length file.
Proof.
  intros Hreach file again fresh.
  assert (Hinv : store_inv db) by now apply reachable_inv.
  assert (Hvalid : all_valid db) by now apply reachable_valid.
  set (sn := store_of t) in *.
  set (src := filter isValid (records (objectStore sn db))).
  assert (Hsrc : forall r, In r src -> In r (records (objectStore sn db))).
  { intros r Hr. now apply filter_In in Hr. }
  assert (Hfile : file = map content src).
  { unfold file. rewrite (exported_eq db t Hinv). fold sn. fold src.
    apply map_ext_in. intros r Hr.
    now destruct (export_item_form db t r Hinv (Hsrc r Hr)). }
  assert (Hitems : vocabItems t (map Some file) = file).
  { unfold vocabItems. rewrite map_map, Hfile, map_map.
    apply map_ext_in. intros r Hr.
    now destruct (export_item_form db t r Hinv (Hsrc r Hr)) as (_ & -> & _). }
  assert (Hv : Forall (fun it => valid_record it = true) file).
  { rewrite Hfile. apply Forall_forall. intros it Hin.
    apply in_map_iff in Hin as (r & <- & Hr).
    destruct (export_item_form db t r Hinv (Hsrc r Hr)) as (_ & _ & _ & _ & -> & _).
    destruct Hvalid as [Hw Hi]. rewrite Forall_forall in Hw, Hi.
    specialize (Hsrc r Hr). unfold sn in Hsrc. destruct t; [now apply Hw|now apply Hi]. }
  assert (Hkeys : map uniqueness_key file
                  = map (fun r => (sn, unique_key sn r)) src).
  { rewrite Hfile, map_map. apply map_ext_in. intros r Hr.
    destruct (export_item_form db t r Hinv (Hsrc r Hr)) as (_ & _ & Ht & Hk & _).
    unfold uniqueness_key. now rewrite Ht, Hk. }
  assert (Hok : store_ok sn (objectStore sn db)) by (destruct t; apply Hinv).
  assert (Hagain : again = addVocabularyItems no_faults db (map Some file)).
  { unfold again, handleFileChange. cbv zeta. rewrite Hitems.
    destruct (addVocabularyItems_fault_free db (map Some file)) as (_ & Hval & _).
    destruct (no_faults_succeed _ _
                (add_items_accounted no_faults (map Some file) 0 (mkTx db 0)))
      as [n Hn].
    rewrite Hval, Hn. reflexivity. }
  assert (Hfresh : fresh = addVocabularyItems no_faults empty_db (map Some file)).
  { unfold fresh, handleFileChange. cbv zeta. rewrite Hitems.
    destruct (addVocabularyItems_fault_free empty_db (map Some file)) as (_ & Hval & _).
    destruct (no_faults_succeed _ _
                (add_items_accounted no_faults (map Some file) 0 (mkTx empty_db 0)))
      as [n Hn].
    rewrite Hval, Hn. reflexivity. }
  split; [exact Hfile|].
  destruct (addVocabularyItems_stored db file Hv) as (Ha1 & Ha2).
  { intros it Hin. unfold stored.
    assert (Hk : In (uniqueness_key it) (map uniqueness_key file)) by now apply in_map.
    rewrite Hkeys in Hk. apply in_map_iff in Hk as (r & <- & Hr). cbn [fst snd].
    apply in_map. now apply Hsrc. }
  rewrite Hagain. split; [exact Ha1|]. split; [exact Ha2|].
  destruct (addVocabularyItems_fresh empty_db file Hv) as (Hf1 & Hf2).
  { rewrite Hkeys.
    assert (Hnd : NoDup (map (unique_key sn) src))
      by (apply NoDup_map_filter, (ok_unique Hok)).
    clear - Hnd. induction src as [|r l IH]; [constructor|].
    simpl in *. inversion Hnd as [|? ? Hn Hl]; subst. constructor; [|now apply IH].
    intros Hin. apply Hn. apply in_map_iff in Hin as (x & Hx & Hin).
    injection Hx as Hx. apply in_map_iff. eauto. }
  { intros it _. unfold stored. destruct (fst (uniqueness_key it)); simpl; tauto. }
  rewrite Hfresh. split; [exact Hf1|]. rewrite Hf2.
  assert (Htarget : forall it, In it file -> target_store it = sn
                                             /\ content (stored_form it) = it).
  { intros it Hin. rewrite Hfile in Hin. apply in_map_iff in Hin as (r & <- & Hr).
    destruct (export_item_form db t r Hinv (Hsrc r Hr)) as (_ & _ & Ht & _ & _ & Hs).
    split; [exact Ht|]. now rewrite Hs. }
  assert (Hsame : map content (records (objectStore sn (append_all file empty_db)))
                  = file).
  { rewrite append_all_content. destruct sn; cbn [objectStore empty_db words idioms
      empty_store records map app];
      (rewrite filter_all;
       [|intros it Hin; destruct (Htarget it Hin) as [-> _]; reflexivity]);
      (rewrite <- (map_id file) at 2; apply map_ext_in;
       intros it Hin; now destruct (Htarget it Hin)). }
  split; [exact Hsame|].
  assert (Hother : forall sn', sn' <> sn ->
                     map content (records (objectStore sn' (append_all file empty_db)))
                     = []).
  { intros sn' Hne. rewrite append_all_content.
    rewrite filter_none.
    - destruct sn'; reflexivity.
    - intros it Hin. destruct (Htarget it Hin) as [-> _].
      destruct sn, sn'; try reflexivity; now elim Hne. }
  unfold getVocabCount.
  rewrite <- (length_map content (records (words _))),
          <- (length_map content (records (idioms _))).
  destruct sn eqn:Esn.
  - change (words (append_all file empty_db))
      with (objectStore WORDS_STORE_NAME (append_all file empty_db)).
    change (idioms (append_all file empty_db))
      with (objectStore IDIOMS_STORE_NAME (append_all file empty_db)).
    rewrite Hsame, (Hother IDIOMS_STORE_NAME) by discriminate. simpl. lia.
  - change (words (append_all file empty_db))
      with (objectStore WORDS_STORE_NAME (append_all file empty_db)).
    change (idioms (append_all file empty_db))
      with (objectStore IDIOMS_STORE_NAME (append_all file empty_db)).
    rewrite Hsame, (Hother WORDS_STORE_NAME) by discriminate. simpl. lia.
Qed.

Lemma export_import_round_trip_witness :
  let file := exported word sample_db in
  let again := fst (handleFileChange no_faults sample_db word (map Some file)) in
  let fresh := fst (handleFileChange no_faults empty_db word (map Some file)) in
  file = map content (filter isValid (records (objectStore (store_of word) sample_db)))
  /\ res_value again = inr 0
  /\ res_db again = sample_db
  /\ res_value fresh = inr (List.length file)
  /\ map content (records (objectStore (store_of word) (res_db fresh))) = file
  /\ getVocabCount (res_db fresh) = List.length file.
Proof.
  exact (export_import_round_trip sample_db word sample_db_reachable).
Defined.

(** X16: what the import dialog reports.  [handleFileChange] gives every
    object of the file the type of the button that was pressed, whatever
    type the object had.  On a fault-free run the alert names the count
    [addVocabularyItems] returned and, as "duplicates", every other
    object of the file: those whose key was stored already and also those
    the database layer rejected with a warning. *)
Theorem handleFileChange_report (db : DB) (t : VocabType)
        (vocabulary : list (option VocabDBItem)) :
  let items := vocabItems t vocabulary in
  let out := handleFileChange no_faults db t vocabulary in
  let accepted := List.length (filter item_valid (map Some items)) in
  let rejected := List.length (filter item_invalid (map Some items)) in
  Forall (fun it => type it = js_type t) items
  /\ List.length vocabulary = accepted + rejected
  /\ List.length (filter is_console_warn (res_events (fst out))) = rejected
  /\ exists n,
      res_value (fst out) = inr n
      /\ n <= accepted
      /\ List.length vocabulary - n = (accepted - n) + rejected
      /\ snd out
         = ("Imported " ++ show_nat n ++ " new " ++ VocabType_value t ++ "s. "
            ++ show_nat (List.length vocabulary - n)
            ++ " duplicates were skipped.")%string.
Proof.
  intros items out accepted rejected.
  assert (Htype : Forall (fun it => type it = js_type t) items).
  { unfold items, vocabItems. apply Forall_forall. intros it Hin.
    apply in_map_iff in Hin as (x & <- & _). reflexivity. }
  assert (Hlen : List.length items = List.length vocabulary)
    by (unfold items, vocabItems; apply length_map).
  assert (Hsum : List.length items = accepted + rejected).
  { unfold accepted, rejected. clear - Htype.
    induction items as [|it l IH]; [reflexivity|].
    inversion Htype as [|? ? Ht Hl]; subst. cbn [map filter].
    destruct (item_classes (Some it)) as [(-> & -> & _) | [(-> & -> & _) | (_ & _ & Hu)]].
    - cbn [List.length]. rewrite (IH Hl). lia.
    - cbn [List.length]. rewrite (IH Hl). lia.
    - exfalso. cbn [item_unknown] in Hu. unfold unknown_type in Hu. rewrite Ht in Hu.
      destruct t; cbn in Hu; rewrite ?andb_false_r in Hu; discriminate. }
  split; [exact Htype|]. split; [now rewrite <- Hlen|].
  unfold out, handleFileChange. cbv zeta. fold items.
  destruct (addVocabularyItems_fault_free db (map Some items)) as (_ & Hval & Hev).
  destruct (add_items_events (map Some items) 0 (mkTx db 0)) as (H1 & _ & m & H3 & H4).
  rewrite Hval, H3. cbn [fst snd]. rewrite Hev. split.
  - cbn [filter is_console_warn]. rewrite filter_app, length_app, H1. cbn. fold rejected.
    lia.
  - exists m. split; [now rewrite Hval|]. fold accepted in H4.
    split; [lia|]. split; [lia|]. now rewrite Hlen.
Qed.

(** *** handleStartAnalysis *)

Lemma js_slice_batch {A} (l : list A) (i : nat) :
  js_slice l (Z.of_nat i * Z.of_nat BATCH_SIZE) ((Z.of_nat i + 1) * Z.of_nat BATCH_SIZE)
  = firstn BATCH_SIZE (skipn (i * BATCH_SIZE) l).
Proof.
  pose proof (js_slice_page l (Z.of_nat i + 1) (Z.of_nat BATCH_SIZE)) as H.
  cbv zeta in H.
  replace (Z.of_nat i + 1 - 1)%Z with (Z.of_nat i) in H by lia.
  replace (Z.of_nat i * Z.of_nat BATCH_SIZE + Z.of_nat BATCH_SIZE)%Z
    with ((Z.of_nat i + 1) * Z.of_nat BATCH_SIZE)%Z in H by lia.
  rewrite H by (unfold BATCH_SIZE; lia).
  rewrite Nat2Z.id. f_equal. f_equal. lia.
Qed.

Lemma analysis_batches_eq (l : list VocabDBItem) :
  analysis_batches l
  = map (fun p => firstn BATCH_SIZE (skipn ((p - 1) * BATCH_SIZE) l))
        (seq 1 ((List.length l + BATCH_SIZE - 1) / BATCH_SIZE)).
Proof.
  unfold analysis_batches. cbv zeta. rewrite <- seq_shift, map_map.
  apply map_ext. intros i. rewrite js_slice_batch. do 2 f_equal. lia.
Qed.

(** X17: the batches of [handleStartAnalysis].  The slices the loop takes
    put together are the list of records to analyse, in order, no record
    left out and none taken twice; there are [Math.ceil(n / 100)] of them,
    none empty and none longer than 100. *)
Theorem analysis_batches_cover (itemsToAnalyze : list VocabDBItem) :
  List.concat (analysis_batches itemsToAnalyze) = itemsToAnalyze
  /\ List.length (analysis_batches itemsToAnalyze)
     = (List.length itemsToAnalyze + 99) / 100
  /\ Forall (fun batch => 0 < List.length batch <= 100)
            (analysis_batches itemsToAnalyze).
Proof.
  rewrite analysis_batches_eq.
  set (n := (List.length itemsToAnalyze + BATCH_SIZE - 1) / BATCH_SIZE).
  assert (Hn : List.length itemsToAnalyze <= n * BATCH_SIZE
               /\ forall p, 1 <= p <= n -> (p - 1) * BATCH_SIZE < List.length itemsToAnalyze).
  { unfold n, BATCH_SIZE.
    pose proof (Nat.div_mod_eq (List.length itemsToAnalyze + 100 - 1) 100) as Hd.
    pose proof (Nat.mod_upper_bound (List.length itemsToAnalyze + 100 - 1) 100) as Hm.
    split; [lia|]. intros p Hp. nia. }
  destruct Hn as [Hcover Hlow].
  split; [|split].
  - rewrite pages_concat. now apply firstn_all2.
  - rewrite length_map, length_seq. unfold n, BATCH_SIZE. f_equal. lia.
  - apply Forall_forall. intros batch Hin.
    apply in_map_iff in Hin as (p & <- & Hp). apply in_seq in Hp.
    rewrite length_firstn, length_skipn.
    specialize (Hlow p ltac:(lia)). unfold BATCH_SIZE in *. lia.
Qed.

Lemma refreq_db_compose u1 u2 db :
  refreq_db (frequency_after u2) (refreq_db (frequency_after u1) db)
  = refreq_db (frequency_after (u1 ++ u2)) db.
Proof.
  unfold refreq_db, refreq. cbn [records keyGen words idioms].
  rewrite !map_map. f_equal; f_equal; apply map_ext; intros r;
    rewrite with_frequencyLevel_twice; f_equal; rewrite frequency_after_app;
    reflexivity.
Qed.

Lemma analyse_spec assign db0 : forall batches i done n,
  store_inv db0 ->
  (forall j batch,
      nth_error batches j = Some batch ->
      exists results,
        assign (i + j) (map simplify batch) = Some results
        /\ forall item, In item batch -> exists u, In u results /\ aimed_at u item) ->
  exists extra,
    analyse assign (fun _ => no_faults) batches i
            (refreq_db (frequency_after done) db0) n
    = (refreq_db (frequency_after (done ++ extra)) db0,
       AnalysisComplete (n + List.length (List.concat batches)))
    /\ forall item, In item (List.concat batches) ->
                    exists u, In u extra /\ aimed_at u item.
Proof.
  induction batches as [|batch rest IH]; intros i done n Hinv Hans.
  - exists []. cbn. rewrite app_nil_r, Nat.add_0_r. split; [reflexivity|].
    intros item [].
  - destruct (Hans 0 batch eq_refl) as (results & Hres & Hcov).
    rewrite Nat.add_0_r in Hres.
    cbn [analyse]. rewrite Hres.
    destruct (updateFrequencyLevels_no_faults
                (refreq_db (frequency_after done) db0) results
                (refreq_db_inv _ db0 Hinv)) as (Hval & Hdb).
    rewrite Hval, Hdb, refreq_db_compose.
    destruct (IH (S i) (done ++ results) (n + List.length batch) Hinv) as (extra & Heq & Hcov').
    { intros j b Hj. destruct (Hans (S j) b Hj) as (res & Hr & Hc).
      exists res. split; [|exact Hc].
      replace (S i + j) with (i + S j) by lia. exact Hr. }
    exists (results ++ extra). rewrite Heq. split.
    + f_equal; [now rewrite app_assoc|]. f_equal. cbn [List.concat].
      rewrite length_app. lia.
    + intros item Hin. cbn [List.concat] in Hin. apply in_app_or in Hin as [Hin | Hin].
      * destruct (Hcov item Hin) as (u & Hu & Ha). exists u. split; [|exact Ha].
        apply in_or_app. now left.
      * destruct (Hcov' item Hin) as (u & Hu & Ha). exists u. split; [|exact Ha].
        apply in_or_app. now right.
Qed.

(** X18: a frequency analysis that runs to its end.  When the analysis
    service answers every batch with an update for each of its items,
    carrying the id and the type of the item, and no request is rejected,
    [handleStartAnalysis] leaves no record without a frequency level,
    neither adds nor removes a record, and reports all the records it
    found at the start as processed (or that there was nothing to
    do). *)
Theorem handleStartAnalysis_completes
        (assign : nat -> list Simplified -> option (list Update.t)) (db : DB) :
  reachable db ->
  answers_all assign (analysis_batches (getItemsWithoutFrequency db)) ->
  let out := handleStartAnalysis assign (fun _ => no_faults) db in
  getItemsWithoutFrequency (fst out) = []
  /\ getVocabCount (fst out) = getVocabCount db
  /\ (snd out = NothingToDo
      \/ snd out = AnalysisComplete (List.length (getItemsWithoutFrequency db))).
Proof.
  intros Hreach Hans out. assert (Hinv : store_inv db) by now apply reachable_inv.
  unfold out, handleStartAnalysis. clear out. cbv zeta.
  destruct (List.length (getItemsWithoutFrequency db) =? 0) eqn:El.
  - apply Nat.eqb_eq, length_zero_iff_nil in El. cbn [fst snd]. auto.
  - set (todo := getItemsWithoutFrequency db) in *.
    destruct (analyse_spec assign db (analysis_batches todo) 0 [] 0 Hinv)
      as (extra & Heq & Hcov).
    { intros j batch Hj. now apply Hans. }
    assert (Hid : refreq_db (frequency_after []) db = db) by apply refreq_db_id.
    rewrite Hid in Heq. rewrite Heq. cbn [fst snd app].
    assert (Hconcat : List.concat (analysis_batches todo) = todo).
    { rewrite analysis_batches_eq, pages_concat. apply firstn_all2.
      unfold BATCH_SIZE.
      pose proof (Nat.div_mod_eq (List.length todo + 100 - 1) 100) as Hd.
      pose proof (Nat.mod_upper_bound (List.length todo + 100 - 1) 100) as Hm.
      lia. }
    rewrite Hconcat in *. split; [|split].
    + apply refreq_covers; [exact Hinv|]. intros r Hr. now apply Hcov.
    + unfold getVocabCount, refreq_db, refreq. cbn [records words idioms].
      now rewrite !length_map.
    + now right.
Qed.

Lemma all_medium_answers db :
  store_inv db -> answers_all all_medium (analysis_batches (getItemsWithoutFrequency db)).
Proof.
  intros Hinv i batch Hi. eexists. split; [reflexivity|].
  intros item Hin.
  assert (Hitem : In item (getItemsWithoutFrequency db)).
  { apply nth_error_In in Hi. unfold analysis_batches in Hi.
    apply in_map_iff in Hi as (j & <- & _). now apply In_js_slice in Hin. }
  apply In_getItemsWithoutFrequency in Hitem as [[sn Hst] _].
  exists (Update.mk (primary_key item)
                    (if strict_eq (type item) (JStr "word") then word else idiom) 2).
  split.
  - apply in_map_iff. exists (simplify item). split; [reflexivity|now apply in_map].
  - split; [reflexivity|].
    pose proof (stored_record_ok db sn item Hinv Hst) as Hok.
    destruct sn; destruct Hok as (_ & _ & Ht); cbn [Update.type]; rewrite Ht; reflexivity.
Qed.

Lemma handleStartAnalysis_completes_witness :
  let out := handleStartAnalysis all_medium (fun _ => no_faults) sample_db in
  getItemsWithoutFrequency (fst out) = []
  /\ getVocabCount (fst out) = getVocabCount sample_db
  /\ (snd out = NothingToDo
      \/ snd out = AnalysisComplete (List.length (getItemsWithoutFrequency sample_db))).
Proof.
  exact (handleStartAnalysis_completes all_medium sample_db sample_db_reachable
           (all_medium_answers sample_db (reachable_inv sample_db sample_db_reachable))).
Defined.

(** *** loadPlaylist *)

Lemma js_category_inj c c' : js_category c = js_category c' -> c = c'.
Proof. destruct c, c'; intros H; try reflexivity; discriminate. Qed.

Lemma promise_all_selected random localeCompare db lvl vocabType posFilter freq :
  store_inv db ->
  forall cats k,
    exists results k',
      promise_all (fun cat => getAllVocabularyForLevelAndCategory random localeCompare
                                db lvl cat vocabType posFilter Random freq) cats k
      = Some (results, k')
      /\ (forall r, In r (List.concat results)
                    <-> exists c, In c cats
                                  /\ selected db lvl c vocabType posFilter freq r)
      /\ (NoDup cats -> NoDup (List.concat results)).
Proof.
  intros Hinv. induction cats as [|c cats IH]; intros k.
  - exists [], k. split; [reflexivity|]. split.
    + intros r. split; [intros []|intros (c & [] & _)].
    + intros _. constructor.
  - destruct (order_items_selected random localeCompare db lvl c vocabType posFilter
                Random freq k Hinv) as (res & Heq & Hnd & Hin).
    destruct (IH (shuffle_draws (List.length res) + k)) as (results & k' & Heq' & Hin' & Hnd').
    exists (res :: results), k'. split; [|split].
    + cbn [promise_all]. unfold getAllVocabularyForLevelAndCategory at 1.
      rewrite (qbind_some _ _ _ _ _ Heq). rewrite (qbind_some _ _ _ _ _ Heq').
      reflexivity.
    + intros r. cbn [List.concat]. rewrite in_app_iff, Hin, Hin'. split.
      * intros [H | (c' & Hc' & H)]; [exists c; split; [now left|exact H]|].
        exists c'. split; [now right|exact H].
      * intros (c' & [<- | Hc'] & H); [now left|]. right. eauto.
    + intros Hcats. inversion Hcats as [|? ? Hnot Hrest]; subst.
      cbn [List.concat]. apply NoDup_app; [exact Hnd|now apply Hnd'|].
      intros r Hr Hr'. apply Hin in Hr. apply Hin' in Hr' as (c' & Hc' & Hsel).
      destruct Hr as (_ & _ & Hcat & _). destruct Hsel as (_ & _ & Hcat' & _).
      rewrite Hcat in Hcat'. apply js_category_inj in Hcat'. now subst c'.
Qed.

(** X19: the playlist of the drive mode.  [loadPlaylist] never throws,
    and the playlist it sets holds exactly the records the filters let
    through, each one once: those of the one category chosen, or, for
    "All Categories", those of every category. *)
Theorem loadPlaylist_exact
        (random : nat -> nat * nat) (localeCompare : string -> string -> Z)
        (db : DB) (currentLevel : Level) (category_ : OrAll VocabCategory)
        (vocabSelection : OrAll VocabType) (posFilter : OrAll PartOfSpeech)
        (sortOrder : SortOrder) (frequencyLevel_ : option Z) (k : nat) :
  reachable db ->
  exists playlist k',
    loadPlaylist random localeCompare db currentLevel category_ vocabSelection
                 posFilter sortOrder frequencyLevel_ k = Some (playlist, k')
    /\ NoDup playlist
    /\ (forall r,
           In r playlist
           <-> match category_ with
               | Only c => selected db currentLevel c vocabSelection posFilter
                                    frequencyLevel_ r
               | All => exists c, selected db currentLevel c vocabSelection posFilter
                                           frequencyLevel_ r
               end).
Proof.
  intros Hreach. assert (Hinv : store_inv db) by now apply reachable_inv.
  assert (Hitems : exists items k1,
    (match category_ with
     | All =>
         results <~
           promise_all
             (fun cat => getAllVocabularyForLevelAndCategory random localeCompare db
                           currentLevel cat vocabSelection posFilter Random
                           frequencyLevel_)
             VOCAB_CATEGORIES ;;
         qret (List.concat results)
     | Only c =>
         getAllVocabularyForLevelAndCategory random localeCompare db currentLevel c
           vocabSelection posFilter sortOrder frequencyLevel_
     end) k = Some (items, k1)
    /\ NoDup items
    /\ (forall r,
           In r items
           <-> match category_ with
               | Only c => selected db currentLevel c vocabSelection posFilter
                                    frequencyLevel_ r
               | All => exists c, selected db currentLevel c vocabSelection posFilter
                                           frequencyLevel_ r
               end)).
  { destruct category_ as [|c].
    - destruct (promise_all_selected random localeCompare db currentLevel vocabSelection
                  posFilter frequencyLevel_ Hinv VOCAB_CATEGORIES k)
        as (results & k1 & Heq & Hin & Hnd).
      exists (List.concat results), k1. split; [|split].
      + now rewrite (qbind_some _ _ _ _ _ Heq).
      + apply Hnd. unfold VOCAB_CATEGORIES.
        repeat constructor; simpl; intuition discriminate.
      + intros r. rewrite Hin. split.
        * intros (c & _ & H). eauto.
        * intros (c & H). exists c. split; [|exact H].
          unfold VOCAB_CATEGORIES. destruct c; simpl; auto 6.
    - destruct (order_items_selected random localeCompare db currentLevel c
                  vocabSelection posFilter sortOrder frequencyLevel_ k Hinv)
        as (res & Heq & Hnd & Hin).
      exists res. eexists. split; [exact Heq|]. split; assumption. }
  destruct Hitems as (items & k1 & Heq & Hnd & Hin).
  unfold loadPlaylist. rewrite (qbind_some _ _ _ _ _ Heq).
  destruct (List.length items =? 0) eqn:El.
  - apply Nat.eqb_eq, length_zero_iff_nil in El. subst items.
    exists [], k1. split; [reflexivity|]. split; [constructor|exact Hin].
  - destruct sortOrder.
    + destruct (shuffle_uniform random random items k1 k1 Hnd) as [(l1 & Hs & Hperm) _].
      exists l1. eexists. split; [exact Hs|]. split.
      * apply (Permutation_NoDup (Permutation_sym Hperm) Hnd).
      * intros r. rewrite <- Hin. split; apply Permutation_in;
          [exact Hperm | now apply Permutation_sym].
    + exists items, k1. split; [reflexivity|]. split; assumption.
Qed.

Lemma loadPlaylist_exact_witness :
  exists playlist k',
    loadPlaylist (fun _ => (1, 2)) code_unit_compare sample_db Beginner All All All
                 Alphabetical None 0 = Some (playlist, k')
    /\ NoDup playlist
    /\ (forall r,
           In r playlist
           <-> exists c, selected sample_db Beginner c All All None r).
Proof.
  exact (loadPlaylist_exact (fun _ => (1, 2)) code_unit_compare sample_db Beginner All
           All All Alphabetical None 0 sample_db_reachable).
Defined.

(** ** Opening the database *)

Lemma store_add_fresh sn data s :
  id data = None ->
  ~ In (unique_key sn data) (map (unique_key sn) (records (objectStore sn (working s)))) ->
  store_add no_faults sn data s
  = mkStep [StoreAdd sn data] (inr tt)
           (mkTx (append_record sn data (working s)) (S (requests s))).
Proof.
  intros Hid Hfresh. apply store_add_ok; [reflexivity|exact Hid|].
  unfold violates_unique. destruct (index_key sn data) as [ik|] eqn:E; [|reflexivity].
  apply not_true_is_false. intros H. apply existsb_exists in H as (r & Hin & Hr).
  apply andb_true_iff in Hr as [Hr _]. apply has_index_key_iff in Hr.
  apply index_key_valid in Hr as [_ Hr]. apply index_key_valid in E as [_ E].
  apply Hfresh. rewrite <- E, Hr. now apply in_map.
Qed.

Lemma unique_key_without_id sn r : unique_key sn (without_id r) = unique_key sn r.
Proof. destruct sn; reflexivity. Qed.

Lemma legacy_word_not_idiom item : legacy_word item = true -> legacy_idiom item = false.
Proof. unfold legacy_idiom. now intros ->. Qed.

Lemma migrate_spec legacy : forall s,
  NoDup (map (unique_key WORDS_STORE_NAME) (filter legacy_word legacy)) ->
  NoDup (map (unique_key IDIOMS_STORE_NAME) (filter legacy_idiom legacy)) ->
  (forall x, In x (filter legacy_word legacy) ->
             ~ In (unique_key WORDS_STORE_NAME x)
                  (map (unique_key WORDS_STORE_NAME) (records (words (working s))))) ->
  (forall x, In x (filter legacy_idiom legacy) ->
             ~ In (unique_key IDIOMS_STORE_NAME x)
                  (map (unique_key IDIOMS_STORE_NAME) (records (idioms (working s))))) ->
  outcome (migrate legacy s) = inr tt
  /\ working (post (migrate legacy s))
     = mkDB (mkStore (records (words (working s))
                      ++ number_from (keyGen (words (working s)))
                           (map without_id (filter legacy_word legacy)))
                     (keyGen (words (working s))
                      + Z.of_nat (List.length (filter legacy_word legacy))))
            (mkStore (records (idioms (working s))
                      ++ number_from (keyGen (idioms (working s)))
                           (map without_id (filter legacy_idiom legacy)))
                     (keyGen (idioms (working s))
                      + Z.of_nat (List.length (filter legacy_idiom legacy)))).
Proof.
  induction legacy as [|item rest IH]; intros s Hw Hi Hfw Hfi.
  - cbn. rewrite !app_nil_r, !Z.add_0_r. split; [reflexivity|].
    destruct (working s) as [[rw kw] [ri ki]]. reflexivity.
  - cbn [migrate filter] in *. unfold migrate_item.
    destruct (legacy_word item) eqn:Ew.
    + rewrite (legacy_word_not_idiom item Ew) in *.
      cbn [map] in Hw. inversion Hw as [|? ? Hnot Hw']; subst.
      assert (Hstep := store_add_fresh WORDS_STORE_NAME (without_id item) s eq_refl).
      rewrite unique_key_without_id in Hstep.
      specialize (Hstep (Hfw item (or_introl eq_refl))).
      rewrite (bind_inr _ Hstep). cbn [outcome post].
      match goal with
      | |- context [migrate rest ?s'] => destruct (IH s' Hw' Hi) as (Hout & Hdb)
      end.
      * intros x Hx. cbn [working append_record objectStore set_objectStore words records].
        rewrite map_app, in_app_iff. intros [H | [H | []]].
        -- exact (Hfw x (or_intror Hx) H).
        -- apply Hnot. rewrite unique_key_with_id, unique_key_without_id in H.
           rewrite H. now apply in_map.
      * intros x Hx. exact (Hfi x Hx).
      * split; [exact Hout|]. rewrite Hdb.
        cbn [working append_record objectStore set_objectStore words idioms records keyGen
             map number_from List.length].
        rewrite <- app_assoc. cbn [app]. f_equal. f_equal. lia.
    + unfold legacy_idiom in *. rewrite Ew in *. cbn [negb andb] in *.
      destruct (strict_eq (type item) (JStr "idiom")) eqn:Ei.
      * cbn [map] in Hi. inversion Hi as [|? ? Hnot Hi']; subst.
        assert (Hstep := store_add_fresh IDIOMS_STORE_NAME (without_id item) s eq_refl).
        rewrite unique_key_without_id in Hstep.
        specialize (Hstep (Hfi item (or_introl eq_refl))).
        rewrite (bind_inr _ Hstep). cbn [outcome post].
        match goal with
        | |- context [migrate rest ?s'] => destruct (IH s' Hw Hi') as (Hout & Hdb)
        end.
        -- intros x Hx. exact (Hfw x Hx).
        -- intros x Hx.
           cbn [working append_record objectStore set_objectStore idioms records].
           rewrite map_app, in_app_iff. intros [H | [H | []]].
           ++ exact (Hfi x (or_intror Hx) H).
           ++ apply Hnot. rewrite unique_key_with_id, unique_key_without_id in H.
              rewrite H. now apply in_map.
        -- split; [exact Hout|]. rewrite Hdb.
           cbn [working append_record objectStore set_objectStore words idioms records
                keyGen map number_from List.length].
           rewrite <- app_assoc. cbn [app]. f_equal. f_equal. lia.
      * assert (Hstep : ret tt s = mkStep [] (inr tt) s) by reflexivity.
        rewrite (bind_inr _ Hstep). cbn [outcome post].
        now apply IH.
Qed.

(** X20: the first start of version 5 on an install of a version before
    4.  The two stores are created, and every record of the legacy store,
    if there is one, is copied without its id, in the order of the legacy
    store and under new keys from 1 on: to the words when its type is
    ['word'] and its part of speech is of the enumeration, to the idioms
    when its type is ['idiom'] (with whatever part of speech it carries),
    and nowhere otherwise.  No other field is looked at.  The legacy
    store is deleted.  This is for legacy records without a conflict in
    the unique indexes; a browser that never ran the application ends
    with the empty database. *)
Theorem openDB_migrates (v : nat) (voc : option (list VocabDBItem)) :
  v < 4 -> conflict_free (legacy_of voc) ->
  opened (mkInstall v voc None None)
  = Some (mkDB (migrated legacy_word (legacy_of voc))
               (migrated legacy_idiom (legacy_of voc)))
  /\ exists log,
      openDB (mkInstall v voc None None)
      = Some (mkInstall DB_VERSION None
                        (Some (migrated legacy_word (legacy_of voc)))
                        (Some (migrated legacy_idiom (legacy_of voc))), log).
Proof.
  intros Hv [Hw Hi].
  assert (Hopen : exists log,
             openDB (mkInstall v voc None None)
             = Some (mkInstall DB_VERSION None
                               (Some (migrated legacy_word (legacy_of voc)))
                               (Some (migrated legacy_idiom (legacy_of voc))), log)).
  { unfold openDB, upgrade, upgrade_4, upgrade_5. cbn [version vocabulary words_store
      idioms_store].
    replace (v <? DB_VERSION) with true by (symmetry; apply Nat.ltb_lt; unfold DB_VERSION; lia).
    replace (v <? 4) with true by (symmetry; apply Nat.ltb_lt; lia).
    replace (v <? 5) with true by (symmetry; apply Nat.ltb_lt; lia).
    destruct voc as [legacy|]; cbn [legacy_of] in *.
    - destruct (migrate_spec legacy (mkTx (mkDB empty_store empty_store) 0) Hw Hi)
        as (Hout & Hdb).
      { intros x _ []. }
      { intros x _ []. }
      rewrite Hout, Hdb. cbn. eexists. reflexivity.
    - cbn. eexists. reflexivity. }
  split; [|exact Hopen].
  destruct Hopen as [log Hopen]. unfold opened. now rewrite Hopen.
Qed.

Lemma openDB_migrates_witness :
  opened new_install = Some empty_db
  /\ opened (legacy_install 3 legacy_sample)
     = Some (mkDB (migrated legacy_word legacy_sample)
                  (migrated legacy_idiom legacy_sample)).
Proof.
  split.
  - refine (proj1 (openDB_migrates 0 None _ _)); [lia|split; constructor].
  - refine (proj1 (openDB_migrates 3 (Some legacy_sample) _ _)); [lia|].
    split; vm_compute; repeat constructor; simpl; tauto.
Defined.

(** X21: opening settles.  When [getDb] resolves on an install of a
    version below 5, the install is at version 5 and has both stores, and
    everything the migration logged is logged once: opening again runs
    no upgrade and changes nothing.  An install of version 4 keeps its
    stores as they are. *)
Theorem openDB_settles (inst inst' : Install) (log : list Event) :
  version inst < DB_VERSION ->
  openDB inst = Some (inst', log) ->
  version inst' = DB_VERSION
  /\ (exists w i, words_store inst' = Some w /\ idioms_store inst' = Some i
                  /\ opened inst = Some (mkDB w i))
  /\ openDB inst' = Some (inst', [])
  /\ (4 <= version inst ->
      words_store inst' = words_store inst /\ idioms_store inst' = idioms_store inst
      /\ vocabulary inst' = vocabulary inst).
Proof.
  intros Hv Hopen. pose proof Hopen as Hopen0. unfold openDB in Hopen.
  replace (version inst <? DB_VERSION) with true in Hopen
    by (symmetry; now apply Nat.ltb_lt).
  destruct (upgrade (version inst) DB_VERSION inst) as [[inst5 log5]|] eqn:Eu;
    [|discriminate].
  injection Hopen as <- <-.
  assert (Hstores : exists w i, words_store inst5 = Some w /\ idioms_store inst5 = Some i).
  { unfold upgrade in Eu.
    destruct (if version inst <? 4 then upgrade_4 inst else Some (inst, []))
      as [[inst4 log4]|]; [|discriminate].
    replace (version inst <? 5) with true in Eu by (symmetry; now apply Nat.ltb_lt).
    unfold upgrade_5 in Eu.
    destruct (words_store inst4) as [w|] eqn:Ew; [|discriminate].
    destruct (idioms_store inst4) as [i|] eqn:Ei; [|discriminate].
    injection Eu as <- _. eauto. }
  destruct Hstores as (w & i & Hw & Hi).
  split; [reflexivity|]. split; [|split].
  - exists w, i. cbn [words_store idioms_store]. split; [exact Hw|]. split; [exact Hi|].
    unfold opened. rewrite Hopen0. cbn [words_store idioms_store]. now rewrite Hw, Hi.
  - reflexivity.
  - intros H4. unfold upgrade in Eu.
    replace (version inst <? 4) with false in Eu by (symmetry; apply Nat.ltb_ge; lia).
    replace (version inst <? 5) with true in Eu by (symmetry; now apply Nat.ltb_lt).
    unfold upgrade_5 in Eu.
    destruct (words_store inst) as [w0|] eqn:Ew0; [|discriminate].
    destruct (idioms_store inst) as [i0|] eqn:Ei0; [|discriminate].
    injection Eu as <- _. cbn. auto.
Qed.

Lemma openDB_settles_witness :
  version (mkInstall DB_VERSION None (Some empty_store) (Some empty_store)) = DB_VERSION
  /\ (exists w i,
         words_store (mkInstall DB_VERSION None (Some empty_store) (Some empty_store))
         = Some w
         /\ idioms_store (mkInstall DB_VERSION None (Some empty_store) (Some empty_store))
            = Some i
         /\ opened new_install = Some (mkDB w i))
  /\ openDB (mkInstall DB_VERSION None (Some empty_store) (Some empty_store))
     = Some (mkInstall DB_VERSION None (Some empty_store) (Some empty_store), []).
Proof.
  destruct (openDB_settles new_install
              (mkInstall DB_VERSION None (Some empty_store) (Some empty_store))
              _ ltac:(unfold DB_VERSION; simpl; lia) eq_refl) as (H1 & H2 & H3 & _).
  exact (conj H1 (conj H2 H3)).
Defined.

(** ** More on the store *)

Lemma targets_same sn r u u' :
  targets u sn r = true -> targets u' sn r = true ->
  (update_store u, Update.id u) = (update_store u', Update.id u').
Proof.
  unfold targets. intros H H'.
  apply andb_true_iff in H as [H1 H2]. apply andb_true_iff in H' as [H1' H2'].
  apply StoreName_eqb_iff in H1, H1'. apply Z.eqb_eq in H2, H2'. congruence.
Qed.

Lemma frequency_after_unique updates sn r u :
  distinct_targets updates -> In u updates -> targets u sn r = true ->
  frequency_after updates sn r = JNum (Update.frequencyLevel u).
Proof.
  intros Hnd Hin Ht. apply in_split in Hin as (l1 & l2 & ->).
  apply frequency_after_last; [exact Ht|].
  intros u' Hu'. destruct (targets u' sn r) eqn:E; [|reflexivity]. exfalso.
  unfold distinct_targets in Hnd. rewrite map_app in Hnd. cbn [map] in Hnd.
  apply NoDup_remove_2 in Hnd. apply Hnd. apply in_or_app. right.
  rewrite (targets_same sn r u u' Ht E).
  apply in_map_iff. exists u'. split; [reflexivity|exact Hu'].
Qed.

(** X22: the order of the updates of a call does not matter when no two
    of them are aimed at the same record: a fault-free call with the same
    updates in another order leaves the same database. *)
Theorem updateFrequencyLevels_order (db : DB) (updates updates' : list Update.t) :
  reachable db -> distinct_targets updates -> Permutation updates updates' ->
  res_db (updateFrequencyLevels no_faults db updates')
  = res_db (updateFrequencyLevels no_faults db updates).
Proof.
  intros Hreach Hnd Hperm. assert (Hinv : store_inv db) by now apply reachable_inv.
  destruct (updateFrequencyLevels_no_faults db updates Hinv) as (_ & ->).
  destruct (updateFrequencyLevels_no_faults db updates' Hinv) as (_ & ->).
  assert (Hnd' : distinct_targets updates').
  { unfold distinct_targets in *. eapply Permutation_NoDup; [|exact Hnd].
    now apply Permutation_map. }
  apply refreq_db_ext. intros sn r _.
  destruct (frequency_after_cases updates sn r) as [(Hno & ->) | (Hsome & _)].
  - apply fold_untargeted. intros u Hu.
    destruct (targets u sn r) eqn:E; [|reflexivity].
    assert (existsb (fun u => targets u sn r) updates = true).
    { apply existsb_exists. exists u. split; [|exact E].
      eapply Permutation_in; [apply Permutation_sym; exact Hperm|exact Hu]. }
    congruence.
  - apply existsb_exists in Hsome as (u & Hu & Ht).
    rewrite (frequency_after_unique updates sn r u Hnd Hu Ht).
    apply frequency_after_unique; [exact Hnd'| |exact Ht].
    eapply Permutation_in; [exact Hperm|exact Hu].
Qed.

Lemma updateFrequencyLevels_order_witness :
  res_db (updateFrequencyLevels no_faults sample_db (rev mixed_updates))
  = res_db (updateFrequencyLevels no_faults sample_db mixed_updates).
Proof.
  apply (updateFrequencyLevels_order sample_db mixed_updates (rev mixed_updates)
           sample_db_reachable).
  - unfold distinct_targets. vm_compute.
    repeat constructor; simpl; intuition discriminate.
  - apply Permutation_rev.
Defined.

Lemma add_items_keeps fault items : forall n s sn r,
  In r (records (objectStore sn (working s))) ->
  In r (records (objectStore sn (working (post (add_items fault items n s))))).
Proof.
  intros n s sn r Hin.
  destruct (add_items_grows fault items n s) as (nw & ni & Hw & Hi & _).
  destruct sn; cbn [objectStore] in *; [rewrite Hw | rewrite Hi];
    apply in_or_app; now left.
Qed.

Lemma add_items_first l1 a l2 : forall n s,
  valid_record a = true ->
  (forall it, In (Some it) l1 -> valid_record it = true ->
              uniqueness_key it <> uniqueness_key a) ->
  ~ stored (working s) (uniqueness_key a) ->
  exists k,
    In (with_id k (stored_form a))
       (records (objectStore (target_store a)
                   (working (post (add_items no_faults (l1 ++ Some a :: l2) n s))))).
Proof.
  induction l1 as [|item l1 IH]; intros n s Hv Hdiff Hfresh.
  - cbn [app add_items]. pose proof (add_item_valid a n s Hv) as Hstep.
    assert (Hnone : find (has_index_key (target_store a)
                                        (unique_key (target_store a) a))
                      (records (objectStore (target_store a) (working s))) = None)
      by (apply not_stored_find; exact Hfresh).
    rewrite Hnone in Hstep. rewrite (bind_inr _ Hstep). cbn [post].
    exists (keyGen (objectStore (target_store a) (working s))).
    apply add_items_keeps. cbn [working]. rewrite objectStore_append_same.
    cbn [records]. apply in_or_app. right. now left.
  - cbn [app add_items].
    assert (Hnext : forall s1 n1,
              ~ stored (working s1) (uniqueness_key a) ->
              exists k,
                In (with_id k (stored_form a))
                   (records (objectStore (target_store a)
                      (working (post (add_items no_faults (l1 ++ Some a :: l2) n1 s1)))))).
    { intros s1 n1 H1. apply IH; [exact Hv| |exact H1].
      intros it Hin. apply Hdiff. now right. }
    destruct (item_valid item) eqn:Hvi.
    + destruct item as [it|]; [|discriminate]. cbn [item_valid] in Hvi.
      pose proof (add_item_valid it n s Hvi) as Hstep.
      destruct (valid_record_probe it Hvi) as (_ & _ & _ & _ & Hkey).
      destruct (find _ _) as [x|]; rewrite (bind_inr _ Hstep); cbn [post];
        apply Hnext; cbn [working]; [exact Hfresh|].
      rewrite stored_append, Hkey. intros [H | H]; [now apply Hfresh|].
      apply (Hdiff it (or_introl eq_refl) Hvi). symmetry. exact H.
    + destruct (add_item_skipped no_faults item n s Hvi) as (evs & Hstep & _).
      rewrite (bind_inr _ Hstep). cbn [post]. now apply Hnext.
Qed.

(** X23: the first of several candidates with one key is the one that is
    stored.  When a valid candidate has a key that is not stored and that
    no valid candidate before it in the list has, a fault-free call stores
    that candidate: afterwards its collection holds it, under some key and
    in the form it is stored in, and holds no other record with its
    uniqueness key, whatever comes later in the list. *)
Theorem addVocabularyItems_first_wins (db : DB) (l1 l2 : list (option VocabDBItem))
        (a : VocabDBItem) :
  reachable db -> valid_record a = true ->
  (forall it, In (Some it) l1 -> valid_record it = true ->
              uniqueness_key it <> uniqueness_key a) ->
  ~ stored db (uniqueness_key a) ->
  let after := res_db (addVocabularyItems no_faults db (l1 ++ Some a :: l2)) in
  exists k,
    In (with_id k (stored_form a)) (records (objectStore (target_store a) after))
    /\ forall r, In r (records (objectStore (target_store a) after)) ->
                 unique_key (target_store a) r = unique_key (target_store a) a ->
                 r = with_id k (stored_form a).
Proof.
  intros Hreach Hv Hdiff Hfresh after.
  assert (Hinv : store_inv after).
  { unfold after. apply addVocabularyItems_inv. now apply reachable_inv. }
  unfold after in *. clear after.
  destruct (addVocabularyItems_fault_free db (l1 ++ Some a :: l2)) as (Hdb & _).
  rewrite Hdb in *.
  destruct (add_items_first l1 a l2 0 (mkTx db 0) Hv Hdiff Hfresh) as (k & Hin).
  exists k. split; [exact Hin|]. intros r Hr Hkey.
  set (sn := target_store a) in *.
  assert (Hok : store_ok sn (objectStore sn
             (working (post (add_items no_faults (l1 ++ Some a :: l2) 0 (mkTx db 0))))))
    by (destruct sn; apply Hinv).
  apply (NoDup_map_inj_in (unique_key sn) _ r (with_id k (stored_form a))
           (ok_unique Hok) Hr Hin).
  rewrite Hkey, unique_key_with_id.
  destruct (valid_record_probe a Hv) as (_ & _ & _ & _ & Hk). fold sn in Hk.
  now rewrite Hk.
Qed.

Lemma addVocabularyItems_first_wins_witness :
  exists k,
    In (with_id k (stored_form jog_verb))
       (records (objectStore (target_store jog_verb)
          (res_db (addVocabularyItems no_faults sample_db
                     ([Some run_bare] ++ Some jog_verb
                        :: [Some (with_frequencyLevel (JNum 3) jog_verb)])))))
    /\ forall r,
        In r (records (objectStore (target_store jog_verb)
                (res_db (addVocabularyItems no_faults sample_db
                           ([Some run_bare] ++ Some jog_verb
                              :: [Some (with_frequencyLevel (JNum 3) jog_verb)]))))) ->
        unique_key (target_store jog_verb) r
        = unique_key (target_store jog_verb) jog_verb ->
        r = with_id k (stored_form jog_verb).
Proof.
  apply (addVocabularyItems_first_wins sample_db [Some run_bare]
           [Some (with_frequencyLevel (JNum 3) jog_verb)] jog_verb
           sample_db_reachable eq_refl).
  - intros it [H | []] Hv. injection H as <-. discriminate Hv.
  - vm_compute. intros [H | [H | []]]; discriminate.
Defined.

(** ** The quiz options *)

Lemma same_id_refl a : same_id a a = true.
Proof. unfold same_id. destruct (id a); [apply Z.eqb_refl|reflexivity]. Qed.

Lemma same_id_eq a b : same_id a b = true -> id a = id b.
Proof.
  unfold same_id. destruct (id a), (id b); intros H; try discriminate; [|reflexivity].
  apply Z.eqb_eq in H. now subst.
Qed.

Lemma NoDup_map_NoDup {A B} (f : A -> B) l : NoDup (map f l) -> NoDup l.
Proof.
  induction l as [|a l IH]; intros H; [constructor|].
  inversion H as [|? ? Hn Hl]; subst. constructor; [|now apply IH].
  intros Hin. apply Hn. now apply in_map.
Qed.

Lemma distractors_length vocabList currentItem :
  NoDup (map id vocabList) -> In currentItem vocabList ->
  S (List.length (filter (fun item => negb (same_id item currentItem)) vocabList))
  = List.length vocabList.
Proof.
  induction vocabList as [|x l IH]; intros Hnd Hin; [destruct Hin|].
  cbn [map] in Hnd. inversion Hnd as [|? ? Hn Hl]; subst. cbn [filter].
  destruct Hin as [-> | Hin].
  - rewrite same_id_refl. cbn [negb List.length]. f_equal.
    rewrite filter_all; [reflexivity|]. intros y Hy.
    destruct (same_id y currentItem) eqn:E; [|reflexivity]. exfalso.
    apply same_id_eq in E. apply Hn. rewrite <- E. now apply in_map.
  - destruct (same_id x currentItem) eqn:E.
    + exfalso. apply same_id_eq in E. apply Hn. rewrite E. now apply in_map.
    + cbn [negb List.length]. f_equal. now apply IH.
Qed.

(** X24: the options of a quiz question.  For a vocabulary list of at
    least four records with pairwise different ids, the options set for
    the current item are four different records of the list, the current
    item among them. *)
Theorem quizOptions_four (random : nat -> nat * nat) (vocabList : list VocabDBItem)
        (currentIndex : nat) (currentItem : VocabDBItem) (k : nat) :
  NoDup (map id vocabList) ->
  nth_error vocabList currentIndex = Some currentItem ->
  4 <= List.length vocabList ->
  exists options k',
    quizOptions random vocabList currentIndex k = Some (Some options, k')
    /\ List.length options = 4
    /\ NoDup options
    /\ In currentItem options
    /\ incl options vocabList.
Proof.
  intros Hids Hnth Hlen.
  assert (Hin : In currentItem vocabList) by (eapply nth_error_In; exact Hnth).
  assert (Hnd : NoDup vocabList) by (eapply NoDup_map_NoDup; exact Hids).
  unfold quizOptions. rewrite Hnth.
  replace (4 <=? List.length vocabList) with true by (symmetry; now apply Nat.leb_le).
  set (distractors := filter (fun item => negb (same_id item currentItem)) vocabList).
  assert (Hdl : S (List.length distractors) = List.length vocabList)
    by now apply distractors_length.
  assert (Hdn : NoDup distractors) by now apply NoDup_filter.
  unfold shuffleArray. cbv zeta.
  destruct (shuffle_uniform random random distractors k k Hdn) as [(sh & Hs & Hperm) _].
  rewrite (qbind_some _ _ _ _ _ Hs).
  rewrite js_slice_firstn by lia.
  set (three := firstn (Z.to_nat 3) sh).
  assert (Hthree_in : forall x, In x three -> In x distractors).
  { intros x Hx. eapply Permutation_in; [exact Hperm|].
    unfold three in Hx. eapply In_firstn_skipn with (m := 0). exact Hx. }
  assert (Hfour : NoDup (currentItem :: three)).
  { constructor.
    - intros Hx. apply Hthree_in in Hx. unfold distractors in Hx.
      apply filter_In in Hx as [_ Hx]. now rewrite same_id_refl in Hx.
    - apply NoDup_firstn. apply (Permutation_NoDup (Permutation_sym Hperm) Hdn). }
  assert (Hthree_len : List.length three = 3).
  { unfold three. rewrite length_firstn, (Permutation_length Hperm). lia. }
  destruct (shuffle_uniform random random (currentItem :: three)
              (List.length distractors - 1 + k) (List.length distractors - 1 + k) Hfour)
    as [(options & Ho & Hperm') _].
  rewrite (qbind_some _ _ _ _ _ Ho). unfold qret.
  exists options. eexists. split; [reflexivity|]. split; [|split; [|split]].
  - rewrite (Permutation_length Hperm'). cbn [List.length]. now rewrite Hthree_len.
  - apply (Permutation_NoDup (Permutation_sym Hperm') Hfour).
  - apply (Permutation_in _ (Permutation_sym Hperm')). now left.
  - intros x Hx. apply (Permutation_in _ Hperm') in Hx as [<- | Hx]; [exact Hin|].
    apply Hthree_in in Hx. unfold distractors in Hx. now apply filter_In in Hx.
Qed.

Lemma quizOptions_four_witness :
  exists options k',
    quizOptions (fun _ => (1, 2))
                (number_from 1 [run_verb; run_noun; run_out; jog_verb]) 2 0
    = Some (Some options, k')
    /\ List.length options = 4
    /\ NoDup options
    /\ In (with_id 3 run_out) options
    /\ incl options (number_from 1 [run_verb; run_noun; run_out; jog_verb]).
Proof.
  apply (quizOptions_four (fun _ => (1, 2))
           (number_from 1 [run_verb; run_noun; run_out; jog_verb]) 2
           (with_id 3 run_out) 0).
  - vm_compute. repeat constructor; simpl; intuition discriminate.
  - reflexivity.
  - simpl. lia.
Defined.

(** ** A run of AI collections *)

Lemma handleAiCollection_count random sv db lvl cat type_ k :
  let r := fst (handleAiCollection random sv db lvl cat type_ k) in
  match res_value r with
  | inr n => getVocabCount (res_db r) = getVocabCount db + n
  | inl _ => getVocabCount db <= getVocabCount (res_db r)
             /\ (count_read sv = None -> getVocabCount (res_db r) = getVocabCount db)
  end.
Proof.
  unfold handleAiCollection.
  destruct (existing_read sv); [cbn; split; auto|].
  destruct (getExistingWords random db lvl cat type_ 1500 k) as [[names k']|];
    [|cbn; split; auto].
  destruct (generateVocabulary sv names) as [e|[newItems|]];
    [cbn; split; auto| |cbn; lia].
  destruct (List.length newItems =? 0); [cbn; lia|]. cbv zeta.
  destruct (0 <? List.length (filter kept (map (completeItem lvl cat type_) newItems)));
    [|cbn; lia].
  pose proof (count_after_add (add_faults sv) db
                (map Some (filter kept (map (completeItem lvl cat type_) newItems))))
    as Hc.
  destruct (res_value (addVocabularyItems (add_faults sv) db
                         (map Some (filter kept (map (completeItem lvl cat type_)
                                                     newItems))))) as [e|n].
  - cbn [fst res_value res_db]. split; [lia|intros _; lia].
  - unfold updateWordCount. destruct (count_read sv) as [e|];
      cbn [fst res_value res_db]; [|exact Hc].
    split; [lia|discriminate].
Qed.

Lemma collect_from_total random services lvl cat type_ :
  forall todo i db k totalAdded,
    let out := collect_from random services lvl cat type_ todo i db k totalAdded in
    getVocabCount db + reported_total (snd out) <= getVocabCount (fst out) + totalAdded
    /\ ((forall j, count_read (services j) = None) ->
        getVocabCount (fst out) + totalAdded
        = getVocabCount db + reported_total (snd out))
    /\ (forall total, snd out = Finished total ->
        getVocabCount (fst out) + totalAdded = getVocabCount db + total).
Proof.
  induction todo as [|todo IH]; intros i db k totalAdded; cbn [collect_from].
  - cbn. repeat split; try lia. intros total H. injection H as <-. lia.
  - pose proof (handleAiCollection_count random (services i) db lvl cat type_ k) as Hc.
    cbv zeta in Hc.
    destruct (res_value (fst (handleAiCollection random (services i) db lvl cat type_ k)))
      as [e|n].
    + cbn [fst snd reported_total]. destruct Hc as [Hle Heq]. repeat split.
      * lia.
      * intros Hall. rewrite (Heq (Hall i)). lia.
      * intros total H. discriminate.
    + specialize (IH (S i)
                     (res_db (fst (handleAiCollection random (services i) db lvl cat
                                                      type_ k)))
                     (snd (handleAiCollection random (services i) db lvl cat type_ k))
                     (totalAdded + n)).
      cbv zeta in IH. destruct IH as (H1 & H2 & H3). repeat split.
      * lia.
      * intros Hall. specialize (H2 Hall). lia.
      * intros total H. specialize (H3 total H). lia.
Qed.

(** X25: the total a run of AI collections reports and the records it
    added.  Whatever the service answers in each batch and whichever
    request or read is rejected, [getVocabCount] after
    [handleAiCollectClick] is at least [getVocabCount] before plus the
    total in the last status line.  It is that sum when the run
    finishes, and when no read of [updateWordCount] is rejected; a batch
    whose records are added and whose count is then refused stops the run
    and is left out of the total. *)
Theorem handleAiCollectClick_total
        (random : nat -> nat * nat) (services : nat -> Service)
        (genLevel : OrAll Level) (genCategory : OrAll VocabCategory)
        (genType : OrAll VocabType) (batchCount : nat) (db : DB) (k : nat) :
  let out := handleAiCollectClick random services genLevel genCategory genType
                                  batchCount db k in
  getVocabCount db + reported_total (snd out) <= getVocabCount (fst out)
  /\ ((forall i, count_read (services i) = None) ->
      getVocabCount (fst out) = getVocabCount db + reported_total (snd out))
  /\ (forall total, snd out = Finished total ->
      getVocabCount (fst out) = getVocabCount db + total).
Proof.
  intros out. unfold out, handleAiCollectClick.
  pose proof (collect_from_total random services genLevel genCategory genType
                batchCount 1 db k 0) as H.
  cbv zeta in H. destruct H as (H1 & H2 & H3). repeat split.
  - lia.
  - intros Hall. specialize (H2 Hall). lia.
  - intros total H. specialize (H3 total H). lia.
Qed.

(** A batch that is stored and not counted: the one idiom of
    [generated_sample] that gets through is added, the read of
    [updateWordCount] is rejected, and the run stops with a total of 0. *)
Lemma handleAiCollectClick_count_refused :
  let out := handleAiCollectClick (fun _ => (1, 2))
               (fun _ => count_rejected generated_sample)
               (Only Intermediate) (Only Business) (Only idiom) 2 sample_db 0 in
  snd out = FailedOnBatch 1 0
  /\ getVocabCount sample_db = 3
  /\ getVocabCount (fst out) = 4.
Proof. vm_compute. auto. Qed.
